(** * libKitsunemimiJson: the JSON value handle [JsonItem] over a heap of data items

    The development embeds [src/json_item.cpp].  A [JsonItem] is a pair of a
    pointer [m_content] to a heap-allocated [DataItem] and the flag
    [m_deletable].  Pointers are addresses into an explicit heap, so that
    aliasing (non-owning views), deep copies, [delete] and null or dangling
    dereferences are all visible.  A computation that dereferences a null or
    dangling pointer, frees a cell twice or recurses without bound has
    undefined behaviour; it is [None] in the [option] monad. *)

From Stdlib Require Import ZArith NArith.
From Stdlib Require Import Floats.SpecFloat.
From stdpp Require Import base option list strings gmap fin_maps fin_sets.

Local Open Scope string_scope.
Local Open Scope list_scope.

(** ** Data items (Kitsune::Common) *)

(** A non-null pointer to a [DataItem]; [option addr] is a C++ pointer, with
    [None] for [nullptr]. *)
Definition addr := positive.

(** Modelled from the spec: [DataItem::dataTypes], the variant tag of a node
    (object, array or scalar); the source compares against
    [DataItem::VALUE_TYPE], [DataItem::OBJECT_TYPE] and [DataItem::ARRAY_TYPE]. *)
Inductive dataTypes := VALUE_TYPE | OBJECT_TYPE | ARRAY_TYPE.

(** Modelled from the spec: [DataItem::dataValueTypes], the sub-kind of a
    scalar (string, integer or float); the source compares against
    [DataItem::INT_TYPE] and [DataItem::FLOAT_TYPE]. *)
Inductive dataValueTypes := STRING_TYPE | INT_TYPE | FLOAT_TYPE.

#[global] Instance dataTypes_eq_dec : EqDecision dataTypes.
Proof. solve_decision. Defined.
#[global] Instance dataValueTypes_eq_dec : EqDecision dataValueTypes.
Proof. solve_decision. Defined.

(** Modelled from the spec: the payload of a [DataValue], with exactly one
    active representation: a string, a C++ [int] (kept as an integer, no
    arithmetic is done on it) or a C++ [float] (an IEEE value). *)
Inductive DataValue :=
| StringValue (s : string)
| IntValue (i : Z)
| FloatValue (f : spec_float).

(** Modelled from the spec: one node on the heap, of the classes [DataValue],
    [DataObject] and [DataArray] of [data_structure/data_items.h], which is
    not part of the sources.  Children are held by pointer: an object maps
    unique keys to children and keeps insertion order, an array is the vector
    [m_array] that [replaceItem] indexes. *)
Inductive DataItem :=
| Value (v : DataValue)
| Object (m_map : list (string * addr))
| Array (m_array : list addr).

Abbreviation heap := (gmap addr DataItem).

(** [new T(...)]: a cell at an address that is not in use. *)
Definition new (c : DataItem) (h : heap) : heap * addr :=
  let a := fresh (dom h) in (<[a := c]> h, a).

(** Modelled from the spec: [getType()], which never fails (section 4.1). *)
Definition DataItem_getType (c : DataItem) : dataTypes :=
  match c with
  | Value _ => VALUE_TYPE
  | Object _ => OBJECT_TYPE
  | Array _ => ARRAY_TYPE
  end.

(** Modelled from the spec: [toValue()], the downcast of a node to
    [DataValue*].  On a scalar it is the node itself (section 4.2: the
    getters return the value of a scalar).  For a node of another variant the
    spec names no result: the node operations that return a pointer report a
    wrong variant by the null pointer (section 4.1, [get]), and an object or
    an array is no [DataValue] that the pointer could designate.  [None] is
    that pointer; a member call through it is undefined. *)
Definition DataItem_toValue (c : DataItem) : option DataValue :=
  match c with
  | Value v => Some v
  | _ => None
  end.

(** Modelled from the spec: [getValueType()], the fixed sub-kind of a scalar
    (section 4.1). *)
Definition DataValue_getValueType (v : DataValue) : dataValueTypes :=
  match v with
  | StringValue _ => STRING_TYPE
  | IntValue _ => INT_TYPE
  | FloatValue _ => FLOAT_TYPE
  end.

(** Modelled from the spec: [toString()], the stored value if the sub-kind is
    string, else the empty string (section 4.1). *)
Definition DataValue_toString (v : DataValue) : string :=
  match v with StringValue s => s | _ => "" end.

(** Modelled from the spec: [toInt()], the stored value if the sub-kind is
    integer, else 0 (section 4.1). *)
Definition DataValue_toInt (v : DataValue) : Z :=
  match v with IntValue i => i | _ => 0%Z end.

(** The [float] that [return 0;] yields. *)
Definition float_zero : spec_float := S754_zero false.

(** Modelled from the spec: [toFloat()], the stored value if the sub-kind is
    float, else 0 (section 4.1). *)
Definition DataValue_toFloat (v : DataValue) : spec_float :=
  match v with FloatValue f => f | _ => float_zero end.

(** Modelled from the spec: [DataValue()], the scalar that [setValue]
    materialises before it stores the new value. *)
Definition DataValue_default : DataItem := Value (StringValue "").

(** Position and entry of a key in an object's map. *)
Definition find_key {A} (key : string) (m : list (string * A)) : option (nat * (string * A)) :=
  list_find (λ kv, kv.1 = key) m.

(** Modelled from the spec: [get(key)], object only, null if absent or wrong
    variant. *)
Definition DataItem_get_key (key : string) (c : DataItem) : option addr :=
  match c with
  | Object m => (λ r, r.2.2) <$> find_key key m
  | _ => None
  end.

(** Modelled from the spec: [get(index)], array only, null if out of range
    or wrong variant. *)
Definition DataItem_get_index (index : N) (c : DataItem) : option addr :=
  match c with
  | Array l => l !! N.to_nat index
  | _ => None
  end.

(** Modelled from the spec: [getSize], key count or element count; 0 for a
    scalar. *)
Definition DataItem_getSize (c : DataItem) : N :=
  match c with
  | Value _ => 0%N
  | Object m => N.of_nat (length m)
  | Array l => N.of_nat (length l)
  end.

(** Modelled from the spec: [getKeys()], the keys of an object in order. *)
Definition DataObject_getKeys (c : DataItem) : list string :=
  match c with Object m => m.*1 | _ => [] end.

(** Modelled from the spec: [contains(key)] of an object. *)
Definition DataObject_contains (key : string) (c : DataItem) : bool :=
  match c with Object m => bool_decide (is_Some (find_key key m)) | _ => false end.

(** Threading the heap through the children of a node. *)
Fixpoint destroy_list (f : addr → heap → option heap) (l : list addr) (h : heap)
  : option heap :=
  match l with
  | [] => Some h
  | c :: l' => h' ← f c h; destroy_list f l' h'
  end.

Fixpoint copy_list (f : addr → heap → option (heap * addr)) (l : list addr) (h : heap)
  : option (heap * list addr) :=
  match l with
  | [] => Some (h, [])
  | c :: l' =>
      '(h1, c') ← f c h;
      '(h2, l'') ← copy_list f l' h1;
      Some (h2, c' :: l'')
  end.

(** Modelled from the spec: the destructor of a node, which destroys all owned
    children exactly once and then frees the node.  The recursion is bounded
    by [n]; a cell that is gone when it is reached is a double free. *)
Fixpoint destroy (n : nat) (a : addr) (h : heap) : option heap :=
  match n with
  | O => None
  | S n' =>
      c ← h !! a;
      h' ← match c with
           | Value _ => Some h
           | Object m => destroy_list (destroy n') m.*2 h
           | Array l => destroy_list (destroy n') l h
           end;
      Some (delete a h')
  end.

(** [delete p] for a non-null [p]: the destructor above.  A tree inside [h]
    is never deeper than [size h]. *)
Definition DataItem_delete (a : addr) (h : heap) : option heap :=
  destroy (size h) a h.

(** Modelled from the spec: [copy()], which recursively duplicates the entire
    subtree into cells of its own. *)
Fixpoint copy (n : nat) (a : addr) (h : heap) : option (heap * addr) :=
  match n with
  | O => None
  | S n' =>
      c ← h !! a;
      match c with
      | Value v => Some (new (Value v) h)
      | Object m =>
          '(h', cs) ← copy_list (copy n') m.*2 h;
          Some (new (Object (zip m.*1 cs)) h')
      | Array l =>
          '(h', cs) ← copy_list (copy n') l h;
          Some (new (Array cs) h')
      end
  end.

(** [p->copy()] for a non-null [p]: the copy above, which never needs more
    than [size h] levels on a tree inside [h]. *)
Definition DataItem_copy (a : addr) (h : heap) : option (heap * addr) :=
  copy (size h) a h.

(** Modelled from the spec: [DataValue::setValue], which stores the new
    scalar in the node. *)
Definition DataValue_setValue (value : DataValue) (a : addr) (h : heap) : option heap :=
  c ← h !! a;
  match c with
  | Value _ => Some (<[a := Value value]> h)
  | _ => None
  end.

(** Modelled from the spec: [insert(key, node, force)], object only; fails
    without mutation if the key exists and [force] is false, otherwise
    inserts or overwrites, taking ownership of [node].  An overwritten child
    is destroyed, as every owned child is destroyed exactly once. *)
Definition DataObject_insert (key : string) (item : addr) (force : bool)
    (a : addr) (h : heap) : option (heap * bool) :=
  c ← h !! a;
  match c with
  | Object m =>
      match find_key key m with
      | Some (i, (_, old)) =>
          if force then
            h' ← DataItem_delete old h;
            Some (<[a := Object (<[i := (key, item)]> m)]> h', true)
          else Some (h, false)
      | None => Some (<[a := Object (m ++ [(key, item)])]> h, true)
      end
  | _ => None
  end.

(** Modelled from the spec: [append(node)], array only, takes ownership. *)
Definition DataArray_append (item : addr) (a : addr) (h : heap) : option (heap * bool) :=
  c ← h !! a;
  match c with
  | Array l => Some (<[a := Array (l ++ [item])]> h, true)
  | _ => None
  end.

(** Modelled from the spec: [remove(key)]; fails if the key is absent or the
    node is no object, otherwise destroys and removes the entry. *)
Definition DataItem_remove_key (key : string) (a : addr) (h : heap) : option (heap * bool) :=
  c ← h !! a;
  match c with
  | Object m =>
      match find_key key m with
      | Some (i, (_, old)) =>
          h' ← DataItem_delete old h;
          Some (<[a := Object (delete i m)]> h', true)
      | None => Some (h, false)
      end
  | _ => Some (h, false)
  end.

(** Modelled from the spec: [remove(index)]; fails if the index is out of
    range or the node is no array, otherwise destroys and removes the entry,
    shifting the later elements down. *)
Definition DataItem_remove_index (index : N) (a : addr) (h : heap) : option (heap * bool) :=
  c ← h !! a;
  match c with
  | Array l =>
      match l !! N.to_nat index with
      | Some old =>
          h' ← DataItem_delete old h;
          Some (<[a := Array (delete (N.to_nat index) l)]> h', true)
      | None => Some (h, false)
      end
  | _ => Some (h, false)
  end.

(** ** The abstract tree a pointer stands for *)

(** The document tree of the specification's data model. *)
#[local] Unset Elimination Schemes.
Inductive tree :=
| TValue (v : DataValue)
| TObject (entries : list (string * tree))
| TArray (items : list tree).
#[local] Set Elimination Schemes.

(** [read n a h] is the tree rooted at [a] together with the cells that make
    it up, provided every cell is allocated and no cell is reached twice (each
    child is owned by exactly one parent). *)
Fixpoint read_list (f : addr → heap → option (tree * heap)) (l : list addr) (h : heap)
  : option (list tree * heap) :=
  match l with
  | [] => Some ([], ∅)
  | c :: l' =>
      '(t, h1) ← f c h;
      '(ts, h2) ← read_list f l' h;
      if decide (h1 ##ₘ h2) then Some (t :: ts, (h1 : heap) ∪ h2) else None
  end.

Fixpoint read (n : nat) (a : addr) (h : heap) : option (tree * heap) :=
  match n with
  | O => None
  | S n' =>
      c ← h !! a;
      match c with
      | Value v => Some (TValue v, {[a := Value v]})
      | Object m =>
          '(ts, hs) ← read_list (read n') m.*2 h;
          if decide (hs !! a = None)
          then Some (TObject (zip m.*1 ts), <[a := Object m]> hs) else None
      | Array l =>
          '(ts, hs) ← read_list (read n') l h;
          if decide (hs !! a = None)
          then Some (TArray ts, <[a := Array l]> hs) else None
      end
  end.

(** The tree a pointer holds in a heap; [None] for a null pointer and for a
    pointer that does not lead to a properly owned tree. *)
Definition tree_at (h : heap) (p : option addr) : option tree :=
  a ← p; fst <$> read (size h) a h.

(** Allocation of a whole tree, as a parser does while it builds its
    output. *)
Fixpoint alloc_list (f : tree → heap → heap * addr) (ts : list tree) (h : heap)
  : heap * list addr :=
  match ts with
  | [] => (h, [])
  | t :: ts' =>
      let '(h1, c) := f t h in
      let '(h2, l) := alloc_list f ts' h1 in
      (h2, c :: l)
  end.

Fixpoint alloc_entries (f : tree → heap → heap * addr) (es : list (string * tree))
    (h : heap) : heap * list (string * addr) :=
  match es with
  | [] => (h, [])
  | (k, t) :: es' =>
      let '(h1, c) := f t h in
      let '(h2, m) := alloc_entries f es' h1 in
      (h2, (k, c) :: m)
  end.

Fixpoint alloc_tree (t : tree) (h : heap) : heap * addr :=
  match t with
  | TValue v => new (Value v) h
  | TObject entries =>
      let '(h', m) := alloc_entries alloc_tree entries h in new (Object m) h'
  | TArray items =>
      let '(h', l) := alloc_list alloc_tree items h in new (Array l) h'
  end.

(** ** The value handle (Kitsune::Json::JsonItem) *)

Record JsonItem := mkJsonItem {
  m_content : option addr;
  m_deletable : bool
}.

Definition set_content (p : option addr) (this : JsonItem) : JsonItem :=
  {| m_content := p; m_deletable := m_deletable this |}.

(** Modelled from the spec: the member initialisers of the class declaration
    in [json_item.h], which is not part of the sources.  A handle holds a
    null pointer until a constructor assigns one, and owns its content unless
    a constructor says otherwise (sections 3 and 4.2: default is invalid;
    copy-construction and [copy = true] give an owning handle). *)
Definition JsonItem_members : JsonItem :=
  {| m_content := None; m_deletable := true |}.

(** [JsonItem::JsonItem()] *)
Definition JsonItem_ctor : JsonItem :=
  {| m_content := None; m_deletable := true |}.

(** [JsonItem::JsonItem(const JsonItem &otherItem)]: [otherItem.m_content] is
    dereferenced without a null check. *)
Definition JsonItem_ctor_copy (otherItem : JsonItem) (h : heap) : option (heap * JsonItem) :=
  a ← m_content otherItem;
  '(h', a') ← DataItem_copy a h;
  Some (h', set_content (Some a') JsonItem_members).

(** [JsonItem::JsonItem(DataItem* dataItem, const bool copy)]: with [copy]
    and a null [dataItem] no member is assigned. *)
Definition JsonItem_ctor_ptr (dataItem : option addr) (copy : bool) (h : heap)
  : option (heap * JsonItem) :=
  if copy then
    match dataItem with
    | Some a =>
        '(h', a') ← DataItem_copy a h;
        Some (h', set_content (Some a') JsonItem_members)
    | None => Some (h, JsonItem_members)
    end
  else Some (h, {| m_content := dataItem; m_deletable := false |}).

(** [JsonItem::JsonItem(const std::string&)], [(const int)], [(const float)] *)
Definition JsonItem_ctor_value (value : DataValue) (h : heap) : heap * JsonItem :=
  let '(h', a) := new (Value value) h in
  (h', set_content (Some a) JsonItem_members).

Definition JsonItem_ctor_string (value : string) := JsonItem_ctor_value (StringValue value).
Definition JsonItem_ctor_int (value : Z) := JsonItem_ctor_value (IntValue value).
Definition JsonItem_ctor_float (value : spec_float) := JsonItem_ctor_value (FloatValue value).

(** [JsonItem::clear()] *)
Definition JsonItem_clear (this : JsonItem) (h : heap) : option (heap * JsonItem) :=
  match m_content this with
  | Some a =>
      if m_deletable this then
        h' ← DataItem_delete a h;
        Some (h', set_content None this)
      else Some (h, this)
  | None => Some (h, this)
  end.

(** [JsonItem::~JsonItem()] *)
Definition JsonItem_dtor (this : JsonItem) (h : heap) : option heap :=
  fst <$> JsonItem_clear this h.

(** The pattern [if(m_content == nullptr) { m_content = new T(); }]; the
    result carries the now non-null content pointer. *)
Definition materialize (c0 : DataItem) (this : JsonItem) (h : heap)
  : heap * JsonItem * addr :=
  match m_content this with
  | Some a => (h, this, a)
  | None => let '(h', a) := new c0 h in (h', set_content (Some a) this, a)
  end.

(** [JsonItem::setValue], the three overloads. *)
Definition JsonItem_setValue (value : DataValue) (this : JsonItem) (h : heap)
  : option (heap * JsonItem * bool) :=
  let '(h1, this1, a) := materialize DataValue_default this h in
  c ← h1 !! a;
  if decide (DataItem_getType c = VALUE_TYPE) then
    h2 ← DataValue_setValue value a h1;
    Some (h2, this1, true)
  else Some (h1, this1, false).

Definition JsonItem_setValue_string (value : string) := JsonItem_setValue (StringValue value).
Definition JsonItem_setValue_int (value : Z) := JsonItem_setValue (IntValue value).
Definition JsonItem_setValue_float (value : spec_float) := JsonItem_setValue (FloatValue value).

(** [JsonItem::insert] *)
Definition JsonItem_insert (key : string) (value : JsonItem) (force : bool)
    (this : JsonItem) (h : heap) : option (heap * JsonItem * bool) :=
  match m_content value with
  | None => Some (h, this, false)
  | Some b =>
      if decide (key = "") then Some (h, this, false) else
      let '(h1, this1, a) := materialize (Object []) this h in
      c ← h1 !! a;
      if decide (DataItem_getType c = OBJECT_TYPE) then
        '(h2, b') ← DataItem_copy b h1;
        '(h3, r) ← DataObject_insert key b' force a h2;
        Some (h3, this1, r)
      else Some (h1, this1, false)
  end.

(** [JsonItem::append] *)
Definition JsonItem_append (value : JsonItem) (this : JsonItem) (h : heap)
  : option (heap * JsonItem * bool) :=
  match m_content value with
  | None => Some (h, this, false)
  | Some b =>
      let '(h1, this1, a) := materialize (Array []) this h in
      c ← h1 !! a;
      if decide (DataItem_getType c = ARRAY_TYPE) then
        '(h2, b') ← DataItem_copy b h1;
        '(h3, r) ← DataArray_append b' a h2;
        Some (h3, this1, r)
      else Some (h1, this1, false)
  end.

(** The conversion of a pointer to [bool] in a [return] statement. *)
Definition ptr_to_bool (p : option addr) : bool :=
  match p with Some _ => true | None => false end.

(** [JsonItem::replaceItem]: the index is a [uint32_t], compared with
    [m_array.size()]; the slot is overwritten in place. *)
Definition JsonItem_replaceItem (index : N) (value : JsonItem) (this : JsonItem) (h : heap)
  : option (heap * JsonItem * bool) :=
  match m_content value with
  | None => Some (h, this, false)
  | Some b =>
      let '(h1, this1, a) := materialize (Array []) this h in
      c ← h1 !! a;
      match c with
      | Array l =>
          if decide (index < N.of_nat (length l))%N then
            '(h2, b') ← DataItem_copy b h1;
            Some (<[a := Array (<[N.to_nat index := b']> l)]> h2, this1,
                  ptr_to_bool (Some b'))
          else Some (h1, this1, false)
      | _ => Some (h1, this1, false)
      end
  end.

(** [JsonItem::getItemContent] *)
Definition JsonItem_getItemContent (this : JsonItem) : option addr := m_content this.

(** [JsonItem::operator[]] for a key and for an index, and [JsonItem::get]. *)
Definition JsonItem_get_key (key : string) (copy : bool) (this : JsonItem) (h : heap)
  : option (heap * JsonItem) :=
  match m_content this with
  | None => Some (h, JsonItem_ctor)
  | Some a => c ← h !! a; JsonItem_ctor_ptr (DataItem_get_key key c) copy h
  end.

Definition JsonItem_get_index (index : N) (copy : bool) (this : JsonItem) (h : heap)
  : option (heap * JsonItem) :=
  match m_content this with
  | None => Some (h, JsonItem_ctor)
  | Some a => c ← h !! a; JsonItem_ctor_ptr (DataItem_get_index index c) copy h
  end.

Definition JsonItem_subscript_key (key : string) := JsonItem_get_key key true.
Definition JsonItem_subscript_index (index : N) := JsonItem_get_index index true.

(** [JsonItem::getString], [getInt], [getFloat].  [getString] asks for the
    variant before the downcast; [getInt] and [getFloat] call
    [m_content->toValue()->getValueType()] at once. *)
Definition JsonItem_getString (this : JsonItem) (h : heap) : option string :=
  match m_content this with
  | None => Some ""
  | Some a =>
      c ← h !! a;
      if decide (DataItem_getType c = VALUE_TYPE)
      then v ← DataItem_toValue c; Some (DataValue_toString v)
      else Some ""
  end.

Definition JsonItem_getInt (this : JsonItem) (h : heap) : option Z :=
  match m_content this with
  | None => Some 0%Z
  | Some a =>
      c ← h !! a;
      v ← DataItem_toValue c;
      if decide (DataValue_getValueType v = INT_TYPE)
      then v' ← DataItem_toValue c; Some (DataValue_toInt v')
      else Some 0%Z
  end.

Definition JsonItem_getFloat (this : JsonItem) (h : heap) : option spec_float :=
  match m_content this with
  | None => Some float_zero
  | Some a =>
      c ← h !! a;
      v ← DataItem_toValue c;
      if decide (DataValue_getValueType v = FLOAT_TYPE)
      then v' ← DataItem_toValue c; Some (DataValue_toFloat v')
      else Some float_zero
  end.

(** [JsonItem::getSize], [getKeys], [contains] *)
Definition JsonItem_getSize (this : JsonItem) (h : heap) : option N :=
  match m_content this with
  | None => Some 0%N
  | Some a => c ← h !! a; Some (DataItem_getSize c)
  end.

Definition JsonItem_getKeys (this : JsonItem) (h : heap) : option (list string) :=
  match m_content this with
  | None => Some []
  | Some a =>
      c ← h !! a;
      if decide (DataItem_getType c = OBJECT_TYPE) then Some (DataObject_getKeys c)
      else Some []
  end.

Definition JsonItem_contains (key : string) (this : JsonItem) (h : heap) : option bool :=
  match m_content this with
  | None => Some false
  | Some a =>
      c ← h !! a;
      if decide (DataItem_getType c = OBJECT_TYPE) then Some (DataObject_contains key c)
      else Some false
  end.

(** [JsonItem::isValid], [isObject], [isArray], [isValue] *)
Definition JsonItem_isValid (this : JsonItem) : bool :=
  match m_content this with Some _ => true | None => false end.

Definition JsonItem_isType (ty : dataTypes) (this : JsonItem) (h : heap) : option bool :=
  match m_content this with
  | None => Some false
  | Some a => c ← h !! a; Some (bool_decide (DataItem_getType c = ty))
  end.

Definition JsonItem_isObject := JsonItem_isType OBJECT_TYPE.
Definition JsonItem_isArray := JsonItem_isType ARRAY_TYPE.
Definition JsonItem_isValue := JsonItem_isType VALUE_TYPE.

(** [JsonItem::remove] for a key and for an index. *)
Definition JsonItem_remove_key (key : string) (this : JsonItem) (h : heap)
  : option (heap * JsonItem * bool) :=
  match m_content this with
  | Some a => '(h', r) ← DataItem_remove_key key a h; Some (h', this, r)
  | None => Some (h, this, false)
  end.

Definition JsonItem_remove_index (index : N) (this : JsonItem) (h : heap)
  : option (heap * JsonItem * bool) :=
  match m_content this with
  | Some a => '(h', r) ← DataItem_remove_index index a h; Some (h', this, r)
  | None => Some (h, this, false)
  end.

(** [JsonItem::operator=]: [other] is a reference, which designates either
    the assigned handle itself or another handle object. *)
Inductive JsonItem_ref :=
| RefThis
| RefOther (other : JsonItem).

Definition JsonItem_assign (other : JsonItem_ref) (this : JsonItem) (h : heap)
  : option (heap * JsonItem) :=
  match other with
  | RefThis => Some (h, this)
  | RefOther o =>
      '(h1, this1) ← JsonItem_clear this h;
      b ← m_content o;
      '(h2, b') ← DataItem_copy b h1;
      Some (h2, set_content (Some b') this1)
  end.

Section Collaborators.

(** The serializer of a node, [DataItem::print(nullptr, indent)], and the
    parser, [JsonParserInterface]: collaborators outside [json_item.cpp].
    A parser run yields an error message or an output tree. *)
Variable DataItem_print : bool → addr → heap → option string.
Variable parser_parse : bool → string → string + tree.

(** [JsonItem::print] *)
Definition JsonItem_print (indent : bool) (this : JsonItem) (h : heap) : option string :=
  match m_content this with
  | Some a => DataItem_print indent a h
  | None => Some ""
  end.

(** [JsonItem::parse]: the result pair starts out as [(false, "")]; the
    parser has built its output before the old content is cleared. *)
Definition JsonItem_parse (input : string) (traceParsing : bool)
    (this : JsonItem) (h : heap) : option (heap * JsonItem * (bool * string)) :=
  match parser_parse traceParsing input with
  | inl errorMessage => Some (h, this, (false, errorMessage))
  | inr output =>
      let '(h1, out) := alloc_tree output h in
      '(h2, this1) ← JsonItem_clear this h1;
      Some (h2, set_content (Some out) this1, (true, ""))
  end.

End Collaborators.

(** The mutating calls of a handle, and runs of them. *)
Inductive mutation :=
| MInsert (key : string) (value : JsonItem) (force : bool)
| MAppend (value : JsonItem)
| MReplaceItem (index : N) (value : JsonItem)
| MSetValue (value : DataValue)
| MRemoveKey (key : string)
| MRemoveIndex (index : N).

Definition mutate (m : mutation) (this : JsonItem) (h : heap)
  : option (heap * JsonItem * bool) :=
  match m with
  | MInsert key value force => JsonItem_insert key value force this h
  | MAppend value => JsonItem_append value this h
  | MReplaceItem index value => JsonItem_replaceItem index value this h
  | MSetValue value => JsonItem_setValue value this h
  | MRemoveKey key => JsonItem_remove_key key this h
  | MRemoveIndex index => JsonItem_remove_index index this h
  end.

Fixpoint mutate_all (ms : list mutation) (this : JsonItem) (h : heap)
  : option (heap * JsonItem) :=
  match ms with
  | [] => Some (h, this)
  | m :: ms' => '(h', this', _) ← mutate m this h; mutate_all ms' this' h'
  end.

(** ** Ownership: the cells that make up a tree *)

(** [repr hs a t]: the heap fragment [hs] is exactly the tree [t] rooted at
    [a]; the fragments of the children of a node are pairwise disjoint. *)
Inductive repr : heap → addr → tree → Prop :=
| repr_Value a v : repr {[a := Value v]} a (TValue v)
| repr_Object a m es hs :
    m.*1 = es.*1 → reprs hs m.*2 es.*2 → hs !! a = None →
    repr (<[a := Object m]> hs) a (TObject es)
| repr_Array a l ts hs :
    reprs hs l ts → hs !! a = None →
    repr (<[a := Array l]> hs) a (TArray ts)
with reprs : heap → list addr → list tree → Prop :=
| reprs_nil : reprs ∅ [] []
| reprs_cons h1 h2 c t cs ts :
    repr h1 c t → reprs h2 cs ts → h1 ##ₘ h2 →
    reprs (h1 ∪ h2) (c :: cs) (t :: ts).

Scheme repr_mut := Minimality for repr Sort Prop
  with reprs_mut := Minimality for reprs Sort Prop.
Combined Scheme repr_reprs_ind from repr_mut, reprs_mut.

(** An operation on a tree with cells [hs] takes the heap from [h] to [h'] and
    leaves the tree with cells [hs']: cells outside [hs] are kept, and the new
    cells of the tree were not in use. *)
Definition frame (h hs h' hs' : heap) : Prop :=
  h ∖ hs ⊆ h' ∧ hs' ∖ hs ##ₘ h.

(** ** The tree-level meaning of the mutations *)

Definition entries_insert (key : string) (t : tree) (force : bool)
    (es : list (string * tree)) : list (string * tree) * bool :=
  match find_key key es with
  | Some (i, _) => if force then (<[i := (key, t)]> es, true) else (es, false)
  | None => (es ++ [(key, t)], true)
  end.

Definition entries_remove (key : string) (es : list (string * tree))
  : list (string * tree) * bool :=
  match find_key key es with
  | Some (i, _) => (delete i es, true)
  | None => (es, false)
  end.

Definition items_remove (i : nat) (ts : list tree) : list tree * bool :=
  match ts !! i with
  | Some _ => (delete i ts, true)
  | None => (ts, false)
  end.

(** [n] calls of [append], every one of which returns [true]. *)
Fixpoint append_all (values : list JsonItem) (this : JsonItem) (h : heap)
  : option (heap * JsonItem) :=
  match values with
  | [] => Some (h, this)
  | v :: values' =>
      match JsonItem_append v this h with
      | Some (h', this', true) => append_all values' this' h'
      | _ => None
      end
  end.

(** The operand of a mutation is usable: it is invalid, or it holds a tree. *)
Definition operand_ok (h : heap) (m : mutation) : Prop :=
  match m with
  | MInsert _ value _ | MAppend value | MReplaceItem _ value =>
      m_content value = None ∨ ∃ t, tree_at h (m_content value) = Some t
  | _ => True
  end.

(** A handle whose [clear] is defined: it is empty, or it is a non-owning
    view, or it owns a tree. *)
Definition clearable (h : heap) (this : JsonItem) : Prop :=
  m_content this = None ∨ m_deletable this = false ∨
  ∃ t, tree_at h (m_content this) = Some t.

(** ** A sample document *)

Definition sample_tree : tree :=
  TObject [("name", TValue (StringValue "a"));
           ("tags", TArray [TValue (StringValue "x"); TValue (StringValue "y")]);
           ("count", TValue (IntValue 2))].

Definition sample_heap : heap := (alloc_tree sample_tree ∅).1.
Definition sample_item : JsonItem :=
  {| m_content := Some (alloc_tree sample_tree ∅).2; m_deletable := true |}.

(** The sample document together with two scalar handles [7] and ["hi"]. *)
Definition sample_store : heap :=
  (JsonItem_ctor_string "hi" (JsonItem_ctor_int 7 sample_heap).1).1.
Definition sample_x : JsonItem := (JsonItem_ctor_int 7 sample_heap).2.
Definition sample_y : JsonItem :=
  (JsonItem_ctor_string "hi" (JsonItem_ctor_int 7 sample_heap).1).2.

(** A non-owning view of the sample document, as [JsonItem(ptr, false)]
    makes it, and a second heap cell with a handle of its own. *)
Definition sample_view : JsonItem :=
  {| m_content := m_content sample_item; m_deletable := false |}.

(** A parser for the examples: it accepts one text and rejects the others. *)
Definition sample_parser (traceParsing : bool) (input : string) : string + tree :=
  if decide (input = "{sample}") then inr sample_tree else inl "parse error".

(** A printer for the examples: it writes the kind of the node. *)
Definition sample_printer (indent : bool) (a : addr) (h : heap) : option string :=
  c ← h !! a;
  Some (match c with Value _ => "value" | Object _ => "{}" | Array _ => "[]" end).

(** ** The collection constructors *)

(** The loop of [JsonItem::JsonItem(std::vector<JsonItem> &value)]: every
    element is appended, the result of [append] is ignored. *)
Fixpoint append_each (value : list JsonItem) (this : JsonItem) (h : heap)
  : option (heap * JsonItem) :=
  match value with
  | [] => Some (h, this)
  | it :: rest =>
      '(h', this', _) ← JsonItem_append it this h;
      append_each rest this' h'
  end.

(** [JsonItem::JsonItem(std::vector<JsonItem> &value)] *)
Definition JsonItem_ctor_vector (value : list JsonItem) (h : heap)
  : option (heap * JsonItem) :=
  let '(h1, a) := new (Array []) h in
  append_each value (set_content (Some a) JsonItem_members) h1.

(** The loop of [JsonItem::JsonItem(std::map<std::string, JsonItem> &value)]:
    every pair is inserted with the default [force = false], the result of
    [insert] is ignored.  The map is given as the list of its pairs in
    iteration order. *)
Fixpoint insert_each (value : list (string * JsonItem)) (this : JsonItem) (h : heap)
  : option (heap * JsonItem) :=
  match value with
  | [] => Some (h, this)
  | it :: rest =>
      '(h', this', _) ← JsonItem_insert it.1 it.2 false this h;
      insert_each rest this' h'
  end.

(** [JsonItem::JsonItem(std::map<std::string, JsonItem> &value)] *)
Definition JsonItem_ctor_map (value : list (string * JsonItem)) (h : heap)
  : option (heap * JsonItem) :=
  let '(h1, a) := new (Object []) h in
  insert_each value (set_content (Some a) JsonItem_members) h1.

(** ** Observations on trees *)

(** The cells that make up the tree a pointer holds. *)
Definition cells_at (h : heap) (p : option addr) : option heap :=
  a ← p; snd <$> read (size h) a h.

(** The variant of a tree. *)
Definition tree_kind (t : tree) : dataTypes :=
  match t with
  | TValue _ => VALUE_TYPE
  | TObject _ => OBJECT_TYPE
  | TArray _ => ARRAY_TYPE
  end.

(** The number of entries or elements of a tree; a scalar has none. *)
Definition tree_size (t : tree) : N :=
  match t with
  | TValue _ => 0%N
  | TObject es => N.of_nat (length es)
  | TArray ts => N.of_nat (length ts)
  end.

(** The keys of an object tree, in order. *)
Definition tree_keys (t : tree) : list string :=
  match t with TObject es => es.*1 | _ => [] end.

(** The entries a map constructor keeps: those with a non-empty key and a
    valid handle. *)
Definition kept_entry (h : heap) (it : string * JsonItem) : option (string * tree) :=
  if decide (it.1 = "") then None else (λ t, (it.1, t)) <$> tree_at h (m_content it.2).

(** A handle that can be passed as an operand: invalid, or holding a tree. *)
Definition usable (h : heap) (value : JsonItem) : Prop :=
  m_content value = None ∨ ∃ t, tree_at h (m_content value) = Some t.

(** The outcome of a mutation of a handle that holds a tree: the handle is
    the same, it holds a tree of the same variant, built from the old cells
    and from fresh ones, and the very same tree if the call returned
    [false]. *)
Definition mutated (h hs : heap) (a : addr) (t : tree) (h' : heap) (r : bool) : Prop :=
  ∃ hs' t', repr hs' a t' ∧ hs' ⊆ h' ∧ frame h hs h' hs' ∧
            tree_kind t' = tree_kind t ∧ (r = false → t' = t).

(** * Verification *)

(** ** Pointwise reasoning about heaps *)

#[local] Set Warnings "-clear-no-such-hyp".
Local Open Scope nat_scope.

Ltac heap_hyps i :=
  repeat match goal with
  | H : _ ##ₘ _ |- _ => rewrite map_disjoint_alt in H; specialize (H i); revert H
  | H : @subseteq (gmap _ _) _ _ _ |- _ =>
      rewrite map_subseteq_spec in H; specialize (H i); revert H
  | H : @eq (gmap _ _) _ _ |- _ =>
      apply (f_equal (λ m, m !! i)) in H; simpl in H; revert H
  end.

Ltac heap_revert i :=
  repeat match goal with
  | H : context [ _ !! i ] |- _ => revert H
  end.

Ltac heap_lookups :=
  repeat (rewrite lookup_union || rewrite lookup_difference || rewrite lookup_insert
          || rewrite lookup_delete || rewrite lookup_singleton || rewrite lookup_empty).

Ltac heap_cases i :=
  repeat match goal with
  | |- context [ @lookup ?K ?A ?M ?I i ?m ] =>
      let o := fresh "o" in
      generalize (@lookup K A M I i m); intros o; destruct o
  end.

Ltac heap_split i :=
  repeat match goal with
  | H : context [ _ !! ?a ] |- _ =>
      is_var a; assert_fails (constr_eq a i);
      destruct (decide (a = i)); [subst a | clear H]
  end.

Ltac heap_at i :=
  heap_hyps i; heap_split i; heap_revert i; heap_lookups;
  repeat (case_decide; simplify_eq); heap_revert i; heap_cases i;
  simpl; try naive_solver.

Ltac heap_solver :=
  match goal with
  | |- @eq (gmap _ _) _ _ => apply map_eq; let i := fresh "i" in intros i; heap_at i
  | |- _ ##ₘ _ => rewrite map_disjoint_alt; let i := fresh "i" in intros i; heap_at i
  | |- @subseteq (gmap _ _) _ _ _ =>
      rewrite map_subseteq_spec;
      let i := fresh "i" in let x := fresh "x" in intros i x; heap_at i
  | |- _ !! ?a = _ => heap_at a
  end.

(** ** Reading a tree *)

Lemma new_spec c h h' a :
  new c h = (h', a) → h !! a = None ∧ h' = <[a := c]> h.
Proof.
  unfold new. intros [= <- <-]. split; [|done].
  apply not_elem_of_dom, is_fresh.
Qed.

Lemma repr_root hs a t : repr hs a t → is_Some (hs !! a).
Proof. destruct 1; [rewrite lookup_singleton_eq | rewrite lookup_insert_eq ..]; eauto. Qed.

Lemma reprs_length hs cs ts : reprs hs cs ts → length cs = length ts.
Proof. induction 1; simpl; congruence. Qed.

Lemma size_union_disjoint (h1 h2 : heap) :
  h1 ##ₘ h2 → size (h1 ∪ h2) = size h1 + size h2.
Proof. intros. by apply map_size_disj_union. Qed.

(** [read] computes [repr]. *)
Lemma read_list_sound f l h ts hs :
  (∀ a t hs, f a h = Some (t, hs) → repr hs a t ∧ hs ⊆ h) →
  read_list f l h = Some (ts, hs) → reprs hs l ts ∧ hs ⊆ h.
Proof.
  intros Hf. revert ts hs. induction l as [|c l IH]; intros ts hs Hr; simpl in Hr.
  - simplify_eq. split; [constructor | apply map_empty_subseteq].
  - destruct (f c h) as [[t h1]|] eqn:Hc; simplify_eq/=.
    destruct (read_list f l h) as [[ts' h2]|] eqn:Hl; simplify_eq/=.
    case_decide; simplify_eq.
    destruct (Hf _ _ _ Hc) as [? ?]. destruct (IH _ _ eq_refl) as [? ?].
    split; [by constructor | by apply map_union_least].
Qed.

Lemma read_sound n a h t hs :
  read n a h = Some (t, hs) → repr hs a t ∧ hs ⊆ h.
Proof.
  revert a t hs. induction n as [|n IH]; intros a t hs Hr; [done|].
  simpl in Hr. destruct (h !! a) as [c|] eqn:Ha; simplify_eq/=.
  destruct c as [v|m|l].
  - simplify_eq. split; [constructor|]. by apply map_singleton_subseteq_l.
  - destruct (read_list (read n) m.*2 h) as [[ts hs']|] eqn:Hl; simplify_eq/=.
    case_decide; simplify_eq.
    apply read_list_sound in Hl as [Hrs Hsub]; [|done].
    pose proof (reprs_length _ _ _ Hrs) as Hlen. rewrite !length_fmap in Hlen.
    split.
    + constructor; [| |done].
      * rewrite fst_zip; [done|]. rewrite length_fmap. lia.
      * rewrite snd_zip; [done|]. rewrite length_fmap. lia.
    + by apply insert_subseteq_l.
  - destruct (read_list (read n) l h) as [[ts hs']|] eqn:Hl; simplify_eq/=.
    case_decide; simplify_eq.
    apply read_list_sound in Hl as [Hrs Hsub]; [|done].
    split; [by constructor | by apply insert_subseteq_l].
Qed.

Lemma read_complete_mut :
  (∀ hs a t, repr hs a t →
     ∀ n h, hs ⊆ h → size hs ≤ n → read n a h = Some (t, hs)) ∧
  (∀ hs cs ts, reprs hs cs ts →
     ∀ n h, hs ⊆ h → size hs ≤ n → read_list (read n) cs h = Some (ts, hs)).
Proof.
  apply repr_reprs_ind.
  - intros a v n h Hsub Hn. rewrite map_size_singleton in Hn.
    destruct n as [|n]; [lia|]. simpl.
    apply map_singleton_subseteq_l in Hsub. by rewrite Hsub.
  - intros a m es hs Hk _ IH Ha n h Hsub Hn.
    rewrite map_size_insert_None in Hn by done.
    destruct n as [|n]; [lia|]. simpl.
    assert (h !! a = Some (Object m)) as -> by heap_solver. simpl.
    rewrite (IH n h); [|heap_solver|lia]. simpl.
    rewrite decide_True by done. by rewrite Hk, zip_fst_snd.
  - intros a l ts hs _ IH Ha n h Hsub Hn.
    rewrite map_size_insert_None in Hn by done.
    destruct n as [|n]; [lia|]. simpl.
    assert (h !! a = Some (Array l)) as -> by heap_solver. simpl.
    rewrite (IH n h); [|heap_solver|lia]. simpl.
    by rewrite decide_True by done.
  - done.
  - intros h1 h2 c t cs ts _ IHc _ IHcs Hdisj n h Hsub Hn.
    rewrite size_union_disjoint in Hn by done. simpl.
    rewrite (IHc n h); [|heap_solver|lia]. simpl.
    rewrite (IHcs n h); [|heap_solver|lia]. simpl.
    by rewrite decide_True by done.
Qed.

Lemma tree_at_repr h a t :
  tree_at h (Some a) = Some t ↔ ∃ hs, repr hs a t ∧ hs ⊆ h.
Proof.
  unfold tree_at. simpl. split.
  - destruct (read (size h) a h) as [[t' hs]|] eqn:Hr; intros; simplify_eq/=.
    exists hs. by apply read_sound in Hr.
  - intros (hs & Hr & Hsub).
    rewrite (proj1 read_complete_mut _ _ _ Hr (size h) h Hsub); [done|].
    by apply map_subseteq_size.
Qed.

Lemma tree_at_valid h p t : tree_at h p = Some t → ∃ a, p = Some a.
Proof. destruct p; [eauto|done]. Qed.

(** ** Deep copy *)

(** Whatever [copy] is given, a result consists of the old heap, untouched,
    and a tree in fresh cells. *)
Lemma copy_list_frame f l h h' cs :
  (∀ a h h' a', f a h = Some (h', a') →
     ∃ hs t, h' = h ∪ hs ∧ hs ##ₘ h ∧ repr hs a' t) →
  copy_list f l h = Some (h', cs) →
  ∃ hs ts, h' = h ∪ hs ∧ hs ##ₘ h ∧ reprs hs cs ts.
Proof.
  intros Hf. revert h h' cs. induction l as [|c l IH]; intros h h' cs Hc; simpl in Hc.
  - simplify_eq. exists ∅, []. split_and!; [heap_solver | heap_solver | constructor].
  - destruct (f c h) as [[h1 c']|] eqn:Hfc; simplify_eq/=.
    destruct (copy_list f l h1) as [[h2 l']|] eqn:Hl; simplify_eq/=.
    destruct (Hf _ _ _ _ Hfc) as (hs1 & t & -> & Hd1 & Hr1).
    destruct (IH _ _ _ Hl) as (hs2 & ts & -> & Hd2 & Hr2).
    exists (hs1 ∪ hs2), (t :: ts). split_and!.
    + heap_solver.
    + heap_solver.
    + constructor; [done|done|heap_solver].
Qed.

Lemma copy_list_length f l h h' cs :
  copy_list f l h = Some (h', cs) → length cs = length l.
Proof.
  revert h h' cs. induction l as [|c l IH]; intros h h' cs Hc; simpl in Hc.
  - by simplify_eq.
  - destruct (f c h) as [[h1 c']|]; simplify_eq/=.
    destruct (copy_list f l h1) as [[h2 l']|] eqn:Hl; simplify_eq/=.
    f_equal. eauto.
Qed.

Lemma copy_frame n a h h' a' :
  copy n a h = Some (h', a') →
  ∃ hs t, h' = h ∪ hs ∧ hs ##ₘ h ∧ repr hs a' t.
Proof.
  revert a h h' a'. induction n as [|n IH]; intros a h h' a' Hc; [done|].
  simpl in Hc. destruct (h !! a) as [c|] eqn:Ha; simplify_eq/=.
  destruct c as [v|m|l].
  - simplify_eq. apply new_spec in Hc as [Hfresh ->].
    exists {[a' := Value v]}, (TValue v). split_and!; [heap_solver|heap_solver|constructor].
  - destruct (copy_list (copy n) m.*2 h) as [[h1 cs]|] eqn:Hl; simplify_eq/=.
    apply new_spec in Hc as [Hfresh ->].
    pose proof (copy_list_length _ _ _ _ _ Hl) as Hlen1.
    apply copy_list_frame in Hl as (hs & ts & -> & Hd & Hr); [|done].
    pose proof (reprs_length _ _ _ Hr) as Hlen.
    rewrite length_fmap in Hlen1.
    exists (<[a' := Object (zip m.*1 cs)]> hs), (TObject (zip m.*1 ts)).
    split_and!.
    + heap_solver.
    + heap_solver.
    + constructor.
      * rewrite !fst_zip; [done|rewrite length_fmap; lia..].
      * rewrite !snd_zip; [done|rewrite length_fmap; lia..].
      * heap_solver.
  - destruct (copy_list (copy n) l h) as [[h1 cs]|] eqn:Hl; simplify_eq/=.
    apply new_spec in Hc as [Hfresh ->].
    apply copy_list_frame in Hl as (hs & ts & -> & Hd & Hr); [|done].
    exists (<[a' := Array cs]> hs), (TArray ts).
    split_and!; [heap_solver|heap_solver|].
    constructor; [done|heap_solver].
Qed.

(** The copy of an owned tree succeeds and is the same tree. *)
Lemma copy_ok_mut :
  (∀ hs a t, repr hs a t →
     ∀ n h, hs ⊆ h → size hs ≤ n →
     ∃ a' hs', copy n a h = Some (h ∪ hs', a') ∧ hs' ##ₘ h ∧ repr hs' a' t) ∧
  (∀ hs cs ts, reprs hs cs ts →
     ∀ n h, hs ⊆ h → size hs ≤ n →
     ∃ cs' hs', copy_list (copy n) cs h = Some (h ∪ hs', cs') ∧ hs' ##ₘ h ∧
                reprs hs' cs' ts).
Proof.
  apply repr_reprs_ind.
  - intros a v n h Hsub Hn. rewrite map_size_singleton in Hn.
    destruct n as [|n]; [lia|]. simpl.
    apply map_singleton_subseteq_l in Hsub. rewrite Hsub. simpl.
    destruct (new (Value v) h) as [h' a'] eqn:Hnew.
    apply new_spec in Hnew as [Hfresh ->].
    exists a', {[a' := Value v]}. split_and!; [f_equal; f_equal|..].
    + heap_solver.
    + heap_solver.
    + constructor.
  - intros a m es hs Hk Hrs IH Ha n h Hsub Hn.
    rewrite map_size_insert_None in Hn by done.
    destruct n as [|n]; [lia|]. simpl.
    assert (h !! a = Some (Object m)) as -> by heap_solver. simpl.
    destruct (IH n h) as (cs' & hs' & -> & Hd & Hr'); [heap_solver|lia|]. simpl.
    destruct (new (Object (zip m.*1 cs')) (h ∪ hs')) as [h' a'] eqn:Hnew.
    apply new_spec in Hnew as [Hfresh ->].
    pose proof (reprs_length _ _ _ Hr') as Hlen. rewrite length_fmap in Hlen.
    pose proof (f_equal length Hk) as Hlen'. rewrite !length_fmap in Hlen'.
    exists a', (<[a' := Object (zip m.*1 cs')]> hs').
    split_and!; [f_equal; f_equal|..].
    + heap_solver.
    + heap_solver.
    + constructor.
      * rewrite fst_zip; [done|rewrite length_fmap; lia].
      * rewrite snd_zip; [done|rewrite length_fmap; lia].
      * heap_solver.
  - intros a l ts hs Hrs IH Ha n h Hsub Hn.
    rewrite map_size_insert_None in Hn by done.
    destruct n as [|n]; [lia|]. simpl.
    assert (h !! a = Some (Array l)) as -> by heap_solver. simpl.
    destruct (IH n h) as (cs' & hs' & -> & Hd & Hr'); [heap_solver|lia|]. simpl.
    destruct (new (Array cs') (h ∪ hs')) as [h' a'] eqn:Hnew.
    apply new_spec in Hnew as [Hfresh ->].
    exists a', (<[a' := Array cs']> hs').
    split_and!; [f_equal; f_equal|..].
    + heap_solver.
    + heap_solver.
    + constructor; [done|heap_solver].
  - intros n h _ _. exists [], ∅. simpl.
    split_and!; [f_equal; f_equal| |constructor]; heap_solver.
  - intros h1 h2 c t cs ts _ IHc _ IHcs Hdisj n h Hsub Hn.
    rewrite size_union_disjoint in Hn by done. simpl.
    destruct (IHc n h) as (c' & hc & -> & Hd1 & Hr1); [heap_solver|lia|]. simpl.
    destruct (IHcs n (h ∪ hc)) as (cs' & hcs & -> & Hd2 & Hr2); [heap_solver|lia|]. simpl.
    exists (c' :: cs'), (hc ∪ hcs).
    split_and!; [f_equal; f_equal| |constructor; [done|done|]]; heap_solver.
Qed.

Lemma DataItem_copy_ok hs a t h :
  repr hs a t → hs ⊆ h →
  ∃ a' hs', DataItem_copy a h = Some (h ∪ hs', a') ∧ hs' ##ₘ h ∧ repr hs' a' t.
Proof.
  intros Hr Hsub. apply (proj1 copy_ok_mut _ _ _ Hr); [done|].
  by apply map_subseteq_size.
Qed.

(** ** Destruction *)

Lemma destroy_ok_mut :
  (∀ hs a t, repr hs a t →
     ∀ n h, hs ⊆ h → size hs ≤ n → destroy n a h = Some (h ∖ hs)) ∧
  (∀ hs cs ts, reprs hs cs ts →
     ∀ n h, hs ⊆ h → size hs ≤ n → destroy_list (destroy n) cs h = Some (h ∖ hs)).
Proof.
  apply repr_reprs_ind.
  - intros a v n h Hsub Hn. rewrite map_size_singleton in Hn.
    destruct n as [|n]; [lia|]. simpl.
    apply map_singleton_subseteq_l in Hsub. rewrite Hsub. simpl.
    f_equal. heap_solver.
  - intros a m es hs Hk Hrs IH Ha n h Hsub Hn.
    rewrite map_size_insert_None in Hn by done.
    destruct n as [|n]; [lia|]. simpl.
    assert (h !! a = Some (Object m)) as Hcell by heap_solver. rewrite Hcell. simpl.
    rewrite (IH n h); [|heap_solver|lia]. simpl. f_equal. heap_solver.
  - intros a l ts hs Hrs IH Ha n h Hsub Hn.
    rewrite map_size_insert_None in Hn by done.
    destruct n as [|n]; [lia|]. simpl.
    assert (h !! a = Some (Array l)) as Hcell by heap_solver. rewrite Hcell. simpl.
    rewrite (IH n h); [|heap_solver|lia]. simpl. f_equal. heap_solver.
  - intros n h _ _. simpl. f_equal. heap_solver.
  - intros h1 h2 c t cs ts _ IHc _ IHcs Hdisj n h Hsub Hn.
    rewrite size_union_disjoint in Hn by done. simpl.
    rewrite (IHc n h); [|heap_solver|lia]. simpl.
    rewrite (IHcs n (h ∖ h1)); [|heap_solver|lia]. f_equal. heap_solver.
Qed.

Lemma DataItem_delete_ok hs a t h :
  repr hs a t → hs ⊆ h → DataItem_delete a h = Some (h ∖ hs).
Proof.
  intros Hr Hsub. apply (proj1 destroy_ok_mut _ _ _ Hr); [done|].
  by apply map_subseteq_size.
Qed.

(** ** Allocation of a tree *)

Lemma tree_ind (P : tree → Prop) :
  (∀ v, P (TValue v)) →
  (∀ es, Forall (λ kt, P kt.2) es → P (TObject es)) →
  (∀ ts, Forall P ts → P (TArray ts)) →
  ∀ t, P t.
Proof.
  intros HV HO HA. fix IH 1. intros [v|es|ts].
  - apply HV.
  - apply HO. induction es as [|[k t] es IHes]; constructor; [apply IH | apply IHes].
  - apply HA. induction ts as [|t ts IHts]; constructor; [apply IH | apply IHts].
Qed.

Lemma alloc_tree_ok t :
  ∀ h, ∃ a hs, alloc_tree t h = (h ∪ hs, a) ∧ hs ##ₘ h ∧ repr hs a t.
Proof.
  induction t as [v|es IH|ts IH] using tree_ind; intros h; simpl.
  - destruct (new (Value v) h) as [h' a'] eqn:Hnew.
    apply new_spec in Hnew as [Hfresh ->].
    exists a', {[a' := Value v]}. split_and!; [f_equal| |constructor]; heap_solver.
  - assert (∀ h, ∃ m hs, alloc_entries alloc_tree es h = (h ∪ hs, m) ∧ hs ##ₘ h ∧
                         m.*1 = es.*1 ∧ reprs hs m.*2 es.*2) as Hgo.
    { clear h. induction IH as [|[k t] es IHt _ IHes]; intros h; simpl.
      - exists [], ∅. split_and!; [f_equal| | |constructor]; try done; heap_solver.
      - simpl in IHt. destruct (IHt h) as (c & hc & Hc & Hd1 & Hr1). rewrite Hc.
        destruct (IHes (h ∪ hc)) as (m & hm & -> & Hd2 & Hk & Hr2).
        exists ((k, c) :: m), (hc ∪ hm). simpl.
        split_and!; [f_equal| |by f_equal|constructor; [done|done|]]; heap_solver. }
    destruct (Hgo h) as (m & hs & -> & Hd & Hk & Hr).
    destruct (new (Object m) (h ∪ hs)) as [h' a'] eqn:Hnew.
    apply new_spec in Hnew as [Hfresh ->].
    exists a', (<[a' := Object m]> hs).
    split_and!; [f_equal| |constructor; [done|done|]]; heap_solver.
  - assert (∀ h, ∃ l hs, alloc_list alloc_tree ts h = (h ∪ hs, l) ∧ hs ##ₘ h ∧
                         reprs hs l ts) as Hgo.
    { clear h. induction IH as [|t ts IHt _ IHts]; intros h; simpl.
      - exists [], ∅. split_and!; [f_equal| |constructor]; heap_solver.
      - destruct (IHt h) as (c & hc & -> & Hd1 & Hr1).
        destruct (IHts (h ∪ hc)) as (l & hl & -> & Hd2 & Hr2).
        exists (c :: l), (hc ∪ hl).
        split_and!; [f_equal| |constructor; [done|done|]]; heap_solver. }
    destruct (Hgo h) as (l & hs & -> & Hd & Hr).
    destruct (new (Array l) (h ∪ hs)) as [h' a'] eqn:Hnew.
    apply new_spec in Hnew as [Hfresh ->].
    exists a', (<[a' := Array l]> hs).
    split_and!; [f_equal| |constructor; [done|]]; heap_solver.
Qed.

(** ** The children of a node *)

(** Focusing on the child at position [i]: its cells split off from those of
    its siblings, and it can be taken out or replaced by another tree. *)
Lemma reprs_focus hs cs ts i c :
  reprs hs cs ts → cs !! i = Some c →
  ∃ hc hr t, ts !! i = Some t ∧ repr hc c t ∧ hs = hc ∪ hr ∧ hc ##ₘ hr ∧
    reprs hr (delete i cs) (delete i ts) ∧
    ∀ c' t' hc', repr hc' c' t' → hc' ##ₘ hr →
      reprs (hc' ∪ hr) (<[i := c']> cs) (<[i := t']> ts).
Proof.
  intros Hr. revert i. induction Hr as [|h1 h2 c0 t0 cs ts Hc0 Hcs IH Hd]; intros i Hi.
  - done.
  - destruct i as [|i]; simpl in *.
    + simplify_eq. exists h1, h2, t0. split_and!; try done.
      intros c' t' hc' Hr' Hd'. by constructor.
    + destruct (IH _ Hi) as (hc & hr & t & Ht & Hrc & -> & Hd' & Hdel & Hrepl).
      exists hc, (h1 ∪ hr), t. split_and!; try done.
      * heap_solver.
      * heap_solver.
      * constructor; [done|done|heap_solver].
      * intros c' t' hc' Hr' Hd''.
        assert (hc' ∪ (h1 ∪ hr) = h1 ∪ (hc' ∪ hr)) as -> by heap_solver.
        constructor; [done| |heap_solver]. apply Hrepl; [done|heap_solver].
Qed.

Lemma reprs_snoc hs cs ts hc c t :
  reprs hs cs ts → repr hc c t → hs ##ₘ hc →
  reprs (hs ∪ hc) (cs ++ [c]) (ts ++ [t]).
Proof.
  intros Hr Hc. induction Hr as [|h1 h2 c0 t0 cs ts Hc0 Hcs IH Hd]; intros Hdisj; simpl.
  - assert (∅ ∪ hc = hc ∪ ∅) as -> by heap_solver.
    constructor; [done|constructor|heap_solver].
  - assert (h1 ∪ h2 ∪ hc = h1 ∪ (h2 ∪ hc)) as -> by heap_solver.
    constructor; [done| |heap_solver]. apply IH. heap_solver.
Qed.

(** Keys are found at the same position in a node and in its tree. *)
Lemma find_key_Some {A B} key (m : list (string * A)) (es : list (string * B)) i k c :
  m.*1 = es.*1 → find_key key m = Some (i, (k, c)) →
  k = key ∧ m !! i = Some (key, c) ∧
  ∃ t, find_key key es = Some (i, (key, t)) ∧ es !! i = Some (key, t).
Proof.
  unfold find_key. revert es i.
  induction m as [|[k0 c0] m IH]; intros [|[k1 t1] es] i Hk Hf; simplify_eq/=.
  case_decide; simplify_eq/=.
  - eauto.
  - destruct (list_find _ m) as [[j [k' c']]|] eqn:Hm; simplify_eq/=.
    destruct (IH es j) as (-> & Hmi & t & -> & Hes); [done..|]. simpl. eauto.
Qed.

Lemma find_key_None {A B} key (m : list (string * A)) (es : list (string * B)) :
  m.*1 = es.*1 → find_key key m = None → find_key key es = None.
Proof.
  unfold find_key. revert es.
  induction m as [|[k0 c0] m IH]; intros [|[k1 t1] es] Hk Hf; simplify_eq/=; [done|].
  case_decide; simplify_eq/=.
  destruct (list_find _ m) as [[j [k' c']]|] eqn:Hm; simplify_eq/=.
  by rewrite (IH es).
Qed.

(** ** The frame of an operation *)

Lemma frame_refl h hs : frame h hs h hs.
Proof. split; heap_solver. Qed.

Lemma frame_kept h hs h' hs' hf :
  frame h hs h' hs' → hf ⊆ h → hf ##ₘ hs → hf ⊆ h' ∧ hf ##ₘ hs'.
Proof. intros [H1 H2] Hsub Hd. split; heap_solver. Qed.

(** An operation that first copies its operand into fresh cells [hc]. *)
Lemma frame_after_copy h hs hc h' hs' :
  hs ⊆ h → hc ##ₘ h → frame (h ∪ hc) (hs ∪ hc) h' hs' → frame h hs h' hs'.
Proof. intros Hsub Hd [H1 H2]. split; heap_solver. Qed.


(** ** Node operations on an owned tree *)

Lemma repr_Value_inv hs a v : repr hs a (TValue v) → hs = {[a := Value v]}.
Proof. by inversion 1. Qed.

Lemma repr_Object_inv hs a es :
  repr hs a (TObject es) →
  ∃ m hs0, hs = <[a := Object m]> hs0 ∧ m.*1 = es.*1 ∧
           reprs hs0 m.*2 es.*2 ∧ hs0 !! a = None.
Proof. inversion 1; subst. eauto 10. Qed.

Lemma repr_Array_inv hs a ts :
  repr hs a (TArray ts) →
  ∃ l hs0, hs = <[a := Array l]> hs0 ∧ reprs hs0 l ts ∧ hs0 !! a = None.
Proof. inversion 1; subst. eauto 10. Qed.

Lemma repr_cell hs a t h :
  repr hs a t → hs ⊆ h →
  ∃ c, h !! a = Some c ∧
       match t with
       | TValue v => c = Value v
       | TObject _ => DataItem_getType c = OBJECT_TYPE
       | TArray _ => DataItem_getType c = ARRAY_TYPE
       end.
Proof.
  intros Hr Hsub. destruct Hr.
  - exists (Value v). split; [heap_solver|done].
  - exists (Object m). split; [heap_solver|done].
  - exists (Array l). split; [heap_solver|done].
Qed.

Lemma DataValue_setValue_spec value a h v :
  {[a := Value v]} ⊆ h →
  ∃ h', DataValue_setValue value a h = Some h' ∧
        {[a := Value value]} ⊆ h' ∧
        frame h {[a := Value v]} h' {[a := Value value]}.
Proof.
  intros Hsub. unfold DataValue_setValue.
  assert (h !! a = Some (Value v)) as -> by heap_solver. simpl.
  eexists. split; [done|]. split; [|split]; heap_solver.
Qed.

Lemma DataObject_insert_spec key b force a h hs es hc tc :
  repr hs a (TObject es) → hs ⊆ h → repr hc b tc → hc ⊆ h → hc ##ₘ hs →
  ∃ h' hs',
    DataObject_insert key b force a h = Some (h', (entries_insert key tc force es).2) ∧
    repr hs' a (TObject (entries_insert key tc force es).1) ∧ hs' ⊆ h' ∧
    frame h (hs ∪ hc) h' hs'.
Proof.
  intros (m & hs0 & -> & Hk & Hrs & Ha)%repr_Object_inv Hsub Hrc Hsubc Hd.
  unfold DataObject_insert, entries_insert.
  assert (h !! a = Some (Object m)) as -> by heap_solver. simpl.
  assert (hc !! a = None) as Hca by heap_solver.
  destruct (find_key key m) as [[i [k old]]|] eqn:Hf.
  - destruct (find_key_Some _ _ es _ _ _ Hk Hf) as (-> & Hmi & told & -> & Hei).
    destruct force; simpl.
    + assert (m.*2 !! i = Some old) as Hold by (by rewrite list_lookup_fmap, Hmi).
      destruct (reprs_focus _ _ _ _ _ Hrs Hold)
        as (ho & hr & t' & Ht' & Hro & -> & Hdo & _ & Hrepl).
      rewrite (DataItem_delete_ok ho old t'); [|done|heap_solver]. simpl.
      eexists _, (<[a := Object (<[i := (key, b)]> m)]> (hc ∪ hr)).
      split; [done|]. split_and!.
      * constructor.
        -- by rewrite !list_fmap_insert, Hk.
        -- rewrite !list_fmap_insert. simpl. apply Hrepl; [done|heap_solver].
        -- heap_solver.
      * heap_solver.
      * split; heap_solver.
    + eexists _, _. split; [done|]. split_and!.
      * by constructor.
      * done.
      * split; heap_solver.
  - rewrite (find_key_None _ _ es Hk Hf). simpl.
    eexists _, (<[a := Object (m ++ [(key, b)])]> (hs0 ∪ hc)).
    split; [done|]. split_and!.
    + constructor.
      * by rewrite !fmap_app, Hk.
      * rewrite !fmap_app. simpl. apply reprs_snoc; [done|done|heap_solver].
      * heap_solver.
    + heap_solver.
    + split; heap_solver.
Qed.

Lemma DataArray_append_spec b a h hs ts hc tc :
  repr hs a (TArray ts) → hs ⊆ h → repr hc b tc → hc ⊆ h → hc ##ₘ hs →
  ∃ h' hs',
    DataArray_append b a h = Some (h', true) ∧
    repr hs' a (TArray (ts ++ [tc])) ∧ hs' ⊆ h' ∧ frame h (hs ∪ hc) h' hs'.
Proof.
  intros (l & hs0 & -> & Hrs & Ha)%repr_Array_inv Hsub Hrc Hsubc Hd.
  unfold DataArray_append.
  assert (h !! a = Some (Array l)) as -> by heap_solver. simpl.
  assert (hc !! a = None) as Hca by heap_solver.
  eexists _, (<[a := Array (l ++ [b])]> (hs0 ∪ hc)).
  split; [done|]. split_and!.
  - constructor; [|heap_solver]. apply reprs_snoc; [done|done|heap_solver].
  - heap_solver.
  - split; heap_solver.
Qed.

(** The in-place overwrite [m_array[index] = item] of [replaceItem]; the old
    element is not destroyed, its cells stay allocated. *)
Lemma array_replace_spec i b a h l hs0 ts hc tc :
  reprs hs0 l ts → hs0 !! a = None → <[a := Array l]> hs0 ⊆ h →
  repr hc b tc → hc ⊆ h → hc ##ₘ <[a := Array l]> hs0 → i < length l →
  ∃ hs',
    repr hs' a (TArray (<[i := tc]> ts)) ∧
    hs' ⊆ <[a := Array (<[i := b]> l)]> h ∧
    frame h (<[a := Array l]> hs0 ∪ hc) (<[a := Array (<[i := b]> l)]> h) hs'.
Proof.
  intros Hrs Ha Hsub Hrc Hsubc Hd Hi.
  destruct (lookup_lt_is_Some_2 l i Hi) as [old Hold].
  destruct (reprs_focus _ _ _ _ _ Hrs Hold)
    as (ho & hr & t' & Ht' & Hro & -> & Hdo & _ & Hrepl).
  assert (hc !! a = None) as Hca by heap_solver.
  exists (<[a := Array (<[i := b]> l)]> (hc ∪ hr)). split_and!.
  - constructor; [|heap_solver]. apply Hrepl; [done|heap_solver].
  - heap_solver.
  - split; heap_solver.
Qed.

Lemma DataItem_remove_key_spec key a h hs es :
  repr hs a (TObject es) → hs ⊆ h →
  ∃ h' hs',
    DataItem_remove_key key a h = Some (h', (entries_remove key es).2) ∧
    repr hs' a (TObject (entries_remove key es).1) ∧ hs' ⊆ h' ∧ frame h hs h' hs'.
Proof.
  intros (m & hs0 & -> & Hk & Hrs & Ha)%repr_Object_inv Hsub.
  unfold DataItem_remove_key, entries_remove.
  assert (h !! a = Some (Object m)) as -> by heap_solver. simpl.
  destruct (find_key key m) as [[i [k old]]|] eqn:Hf.
  - destruct (find_key_Some _ _ es _ _ _ Hk Hf) as (-> & Hmi & told & -> & Hei).
    assert (m.*2 !! i = Some old) as Hold by (by rewrite list_lookup_fmap, Hmi).
    destruct (reprs_focus _ _ _ _ _ Hrs Hold)
      as (ho & hr & t' & Ht' & Hro & -> & Hdo & Hdel & _).
    rewrite (DataItem_delete_ok ho old t'); [|done|heap_solver]. simpl.
    eexists _, (<[a := Object (delete i m)]> hr).
    split; [done|]. split_and!.
    + constructor.
      * by rewrite !list_fmap_delete, Hk.
      * by rewrite !list_fmap_delete.
      * heap_solver.
    + heap_solver.
    + split; heap_solver.
  - rewrite (find_key_None _ _ es Hk Hf). simpl.
    eexists _, _. split; [done|]. split_and!; [by constructor|done|apply frame_refl].
Qed.

Lemma DataItem_remove_index_spec index a h hs ts :
  repr hs a (TArray ts) → hs ⊆ h →
  ∃ h' hs',
    DataItem_remove_index index a h = Some (h', (items_remove (N.to_nat index) ts).2) ∧
    repr hs' a (TArray (items_remove (N.to_nat index) ts).1) ∧ hs' ⊆ h' ∧
    frame h hs h' hs'.
Proof.
  intros (l & hs0 & -> & Hrs & Ha)%repr_Array_inv Hsub.
  unfold DataItem_remove_index, items_remove.
  assert (h !! a = Some (Array l)) as -> by heap_solver. simpl.
  destruct (l !! N.to_nat index) as [old|] eqn:Hold.
  - destruct (reprs_focus _ _ _ _ _ Hrs Hold)
      as (ho & hr & t' & -> & Hro & -> & Hdo & Hdel & _).
    rewrite (DataItem_delete_ok ho old t'); [|done|heap_solver]. simpl.
    eexists _, (<[a := Array (delete (N.to_nat index) l)]> hr).
    split; [done|]. split_and!.
    + constructor; [done|heap_solver].
    + heap_solver.
    + split; heap_solver.
  - assert (ts !! N.to_nat index = None) as ->.
    { apply lookup_ge_None. apply lookup_ge_None in Hold.
      by rewrite <- (reprs_length _ _ _ Hrs). }
    simpl. eexists _, _. split; [done|].
    split_and!; [by constructor|done|apply frame_refl].
Qed.

(** ** Handle operations on an owned tree *)

Lemma materialize_valid c0 this h a :
  m_content this = Some a → materialize c0 this h = (h, this, a).
Proof. unfold materialize. by intros ->. Qed.

Lemma DataItem_copy_frame a h h' a' :
  DataItem_copy a h = Some (h', a') →
  ∃ hc tc, h' = h ∪ hc ∧ hc ##ₘ h ∧ repr hc a' tc.
Proof. apply copy_frame. Qed.

Lemma JsonItem_setValue_spec value this h a hs t :
  m_content this = Some a → repr hs a t → hs ⊆ h →
  ∃ h' hs' t' r,
    JsonItem_setValue value this h = Some (h', this, r) ∧
    repr hs' a t' ∧ hs' ⊆ h' ∧ frame h hs h' hs' ∧
    match t with
    | TValue _ => t' = TValue value ∧ r = true
    | _ => t' = t ∧ r = false ∧ h' = h
    end.
Proof.
  intros Hthis Hr Hsub. unfold JsonItem_setValue.
  rewrite (materialize_valid _ _ _ _ Hthis).
  destruct (repr_cell _ _ _ _ Hr Hsub) as (c & Hc & Hty). rewrite Hc. simpl.
  destruct t as [v|es|ts].
  - subst c. simpl. apply repr_Value_inv in Hr as ->.
    destruct (DataValue_setValue_spec value a h v Hsub) as (h' & -> & Hsub' & Hfr).
    simpl. exists h', {[a := Value value]}, (TValue value), true.
    split_and!; try done. constructor.
  - rewrite decide_False by (by rewrite Hty).
    exists h, hs, (TObject es), false. split_and!; try done. apply frame_refl.
  - rewrite decide_False by (by rewrite Hty).
    exists h, hs, (TArray ts), false. split_and!; try done. apply frame_refl.
Qed.

(** [insert] on an object, once the copy of the operand is known. *)
Lemma JsonItem_insert_copied key value force this h a hs es b b' hc tc :
  m_content this = Some a → repr hs a (TObject es) → hs ⊆ h →
  m_content value = Some b → key ≠ ""%string →
  DataItem_copy b h = Some (h ∪ hc, b') → hc ##ₘ h → repr hc b' tc →
  ∃ h' hs',
    JsonItem_insert key value force this h
      = Some (h', this, (entries_insert key tc force es).2) ∧
    repr hs' a (TObject (entries_insert key tc force es).1) ∧ hs' ⊆ h' ∧
    frame h hs h' hs'.
Proof.
  intros Hthis Hr Hsub Hvalue Hkey Hcopy Hd Hrc. unfold JsonItem_insert.
  rewrite Hvalue, decide_False by done.
  rewrite (materialize_valid _ _ _ _ Hthis).
  destruct (repr_cell _ _ _ _ Hr Hsub) as (c & Hc & Hty). rewrite Hc. simpl.
  rewrite decide_True by done. rewrite Hcopy. simpl.
  destruct (DataObject_insert_spec key b' force a (h ∪ hc) hs es hc tc)
    as (h' & hs' & -> & Hr' & Hsub' & Hfr); [done|heap_solver|done|heap_solver|heap_solver|].
  simpl. exists h', hs'. split_and!; try done.
  by apply (frame_after_copy h hs hc).
Qed.

Lemma JsonItem_append_copied value this h a hs ts b b' hc tc :
  m_content this = Some a → repr hs a (TArray ts) → hs ⊆ h →
  m_content value = Some b →
  DataItem_copy b h = Some (h ∪ hc, b') → hc ##ₘ h → repr hc b' tc →
  ∃ h' hs',
    JsonItem_append value this h = Some (h', this, true) ∧
    repr hs' a (TArray (ts ++ [tc])) ∧ hs' ⊆ h' ∧ frame h hs h' hs'.
Proof.
  intros Hthis Hr Hsub Hvalue Hcopy Hd Hrc. unfold JsonItem_append.
  rewrite Hvalue. rewrite (materialize_valid _ _ _ _ Hthis).
  destruct (repr_cell _ _ _ _ Hr Hsub) as (c & Hc & Hty). rewrite Hc. simpl.
  rewrite decide_True by done. rewrite Hcopy. simpl.
  destruct (DataArray_append_spec b' a (h ∪ hc) hs ts hc tc)
    as (h' & hs' & -> & Hr' & Hsub' & Hfr); [done|heap_solver|done|heap_solver|heap_solver|].
  simpl. exists h', hs'. split_and!; try done.
  by apply (frame_after_copy h hs hc).
Qed.

Lemma JsonItem_replaceItem_copied index value this h a hs ts b b' hc tc :
  m_content this = Some a → repr hs a (TArray ts) → hs ⊆ h →
  m_content value = Some b → N.to_nat index < length ts →
  DataItem_copy b h = Some (h ∪ hc, b') → hc ##ₘ h → repr hc b' tc →
  ∃ h' hs',
    JsonItem_replaceItem index value this h = Some (h', this, true) ∧
    repr hs' a (TArray (<[N.to_nat index := tc]> ts)) ∧ hs' ⊆ h' ∧
    frame h hs h' hs'.
Proof.
  intros Hthis Hr Hsub Hvalue Hi Hcopy Hd Hrc. unfold JsonItem_replaceItem.
  rewrite Hvalue. rewrite (materialize_valid _ _ _ _ Hthis).
  apply repr_Array_inv in Hr as (l & hs0 & -> & Hrs & Ha).
  assert (h !! a = Some (Array l)) as -> by heap_solver. simpl.
  pose proof (reprs_length _ _ _ Hrs) as Hlen.
  rewrite decide_True by lia. rewrite Hcopy. simpl.
  destruct (array_replace_spec (N.to_nat index) b' a (h ∪ hc) l hs0 ts hc tc)
    as (hs' & Hr' & Hsub' & Hfr);
    [done|done|heap_solver|done|heap_solver|heap_solver|lia|].
  eexists _, hs'. split_and!; try done.
  by apply (frame_after_copy h _ hc).
Qed.

Lemma JsonItem_replaceItem_out_of_range index value this h a hs ts :
  m_content this = Some a → repr hs a (TArray ts) → hs ⊆ h →
  length ts ≤ N.to_nat index →
  JsonItem_replaceItem index value this h = Some (h, this, false).
Proof.
  intros Hthis Hr Hsub Hi. unfold JsonItem_replaceItem.
  destruct (m_content value) as [b|]; [|done].
  rewrite (materialize_valid _ _ _ _ Hthis).
  apply repr_Array_inv in Hr as (l & hs0 & -> & Hrs & Ha).
  assert (h !! a = Some (Array l)) as -> by heap_solver. simpl.
  pose proof (reprs_length _ _ _ Hrs) as Hlen.
  by rewrite decide_False by lia.
Qed.

Lemma JsonItem_remove_key_spec key this h a hs t :
  m_content this = Some a → repr hs a t → hs ⊆ h →
  ∃ h' hs' t' r,
    JsonItem_remove_key key this h = Some (h', this, r) ∧
    repr hs' a t' ∧ hs' ⊆ h' ∧ frame h hs h' hs' ∧
    match t with
    | TObject es => t' = TObject (entries_remove key es).1 ∧ r = (entries_remove key es).2
    | _ => t' = t ∧ r = false ∧ h' = h
    end.
Proof.
  intros Hthis Hr Hsub. unfold JsonItem_remove_key. rewrite Hthis.
  destruct t as [v|es|ts].
  - unfold DataItem_remove_key.
    destruct (repr_cell _ _ _ _ Hr Hsub) as (c & -> & ->). simpl.
    exists h, hs, (TValue v), false. split_and!; try done. apply frame_refl.
  - destruct (DataItem_remove_key_spec key a h hs es Hr Hsub)
      as (h' & hs' & -> & Hr' & Hsub' & Hfr). simpl.
    eexists h', hs', _, _. split_and!; done.
  - unfold DataItem_remove_key.
    pose proof Hr as (l & hs0 & -> & Hrs & Ha)%repr_Array_inv.
    assert (h !! a = Some (Array l)) as -> by heap_solver. simpl.
    eexists h, _, (TArray ts), false. split_and!; try done. apply frame_refl.
Qed.

Lemma JsonItem_remove_index_spec index this h a hs t :
  m_content this = Some a → repr hs a t → hs ⊆ h →
  ∃ h' hs' t' r,
    JsonItem_remove_index index this h = Some (h', this, r) ∧
    repr hs' a t' ∧ hs' ⊆ h' ∧ frame h hs h' hs' ∧
    match t with
    | TArray ts =>
        t' = TArray (items_remove (N.to_nat index) ts).1 ∧
        r = (items_remove (N.to_nat index) ts).2
    | _ => t' = t ∧ r = false ∧ h' = h
    end.
Proof.
  intros Hthis Hr Hsub. unfold JsonItem_remove_index. rewrite Hthis.
  destruct t as [v|es|ts].
  - unfold DataItem_remove_index.
    destruct (repr_cell _ _ _ _ Hr Hsub) as (c & -> & ->). simpl.
    exists h, hs, (TValue v), false. split_and!; try done. apply frame_refl.
  - unfold DataItem_remove_index.
    pose proof Hr as (m & hs0 & -> & Hk & Hrs & Ha)%repr_Object_inv.
    assert (h !! a = Some (Object m)) as -> by heap_solver. simpl.
    eexists h, _, (TObject es), false. split_and!; try done. apply frame_refl.
  - destruct (DataItem_remove_index_spec index a h hs ts Hr Hsub)
      as (h' & hs' & -> & Hr' & Hsub' & Hfr). simpl.
    eexists h', hs', _, _. split_and!; done.
Qed.

(** [insert] on an owned object with an owned operand. *)
Lemma JsonItem_insert_spec key value force this h a hs es tv :
  m_content this = Some a → repr hs a (TObject es) → hs ⊆ h →
  tree_at h (m_content value) = Some tv → key ≠ ""%string →
  ∃ h' hs',
    JsonItem_insert key value force this h
      = Some (h', this, (entries_insert key tv force es).2) ∧
    repr hs' a (TObject (entries_insert key tv force es).1) ∧ hs' ⊆ h' ∧
    frame h hs h' hs'.
Proof.
  intros Hthis Hr Hsub Hv Hkey.
  destruct (tree_at_valid _ _ _ Hv) as [b Hb]. rewrite Hb in Hv.
  apply tree_at_repr in Hv as (hb & Hrb & Hsubb).
  destruct (DataItem_copy_ok _ _ _ _ Hrb Hsubb) as (b' & hc & Hcopy & Hd & Hrc).
  by eapply JsonItem_insert_copied.
Qed.

(** ** Every mutation stays within the tree of its handle *)

Lemma JsonItem_insert_frame key value force this h a hs t h' this' r :
  m_content this = Some a → repr hs a t → hs ⊆ h →
  JsonItem_insert key value force this h = Some (h', this', r) →
  this' = this ∧ ∃ hs' t', repr hs' a t' ∧ hs' ⊆ h' ∧ frame h hs h' hs'.
Proof.
  intros Hthis Hr Hsub Hop.
  assert (h' = h → this' = this →
          this' = this ∧ ∃ hs' t', repr hs' a t' ∧ hs' ⊆ h' ∧ frame h hs h' hs') as Hsame.
  { intros -> ->. split; [done|]. exists hs, t. split_and!; try done. apply frame_refl. }
  destruct (m_content value) as [b|] eqn:Hvalue;
    [|unfold JsonItem_insert in Hop; rewrite Hvalue in Hop; simplify_eq; by apply Hsame].
  destruct (decide (key = ""%string)) as [Hkey|Hkey];
    [unfold JsonItem_insert in Hop; rewrite Hvalue, decide_True in Hop by done;
     simplify_eq; by apply Hsame|].
  destruct (repr_cell _ _ _ _ Hr Hsub) as (c & Hc & Hty).
  destruct t as [v|es|ts].
  - unfold JsonItem_insert in Hop.
    rewrite Hvalue, decide_False, (materialize_valid _ _ _ _ Hthis) in Hop by done.
    rewrite Hc in Hop. subst c. simpl in Hop. simplify_eq. by apply Hsame.
  - destruct (DataItem_copy b h) as [[h2 b']|] eqn:Hcopy.
    + destruct (DataItem_copy_frame _ _ _ _ Hcopy) as (hc & tc & -> & Hd & Hrc).
      destruct (JsonItem_insert_copied key value force this h a hs es b b' hc tc)
        as (h'' & hs' & Heq & Hr' & Hsub' & Hfr); try done.
      rewrite Heq in Hop. simplify_eq. eauto 10.
    + unfold JsonItem_insert in Hop.
      rewrite Hvalue, decide_False, (materialize_valid _ _ _ _ Hthis) in Hop by done.
      rewrite Hc in Hop. simpl in Hop. rewrite decide_True, Hcopy in Hop by done. done.
  - unfold JsonItem_insert in Hop.
    rewrite Hvalue, decide_False, (materialize_valid _ _ _ _ Hthis) in Hop by done.
    rewrite Hc in Hop. simpl in Hop. rewrite decide_False in Hop by (by rewrite Hty).
    simplify_eq. by apply Hsame.
Qed.

Lemma JsonItem_append_frame value this h a hs t h' this' r :
  m_content this = Some a → repr hs a t → hs ⊆ h →
  JsonItem_append value this h = Some (h', this', r) →
  this' = this ∧ ∃ hs' t', repr hs' a t' ∧ hs' ⊆ h' ∧ frame h hs h' hs'.
Proof.
  intros Hthis Hr Hsub Hop.
  assert (h' = h → this' = this →
          this' = this ∧ ∃ hs' t', repr hs' a t' ∧ hs' ⊆ h' ∧ frame h hs h' hs') as Hsame.
  { intros -> ->. split; [done|]. exists hs, t. split_and!; try done. apply frame_refl. }
  destruct (m_content value) as [b|] eqn:Hvalue;
    [|unfold JsonItem_append in Hop; rewrite Hvalue in Hop; simplify_eq; by apply Hsame].
  destruct (repr_cell _ _ _ _ Hr Hsub) as (c & Hc & Hty).
  destruct t as [v|es|ts].
  - unfold JsonItem_append in Hop.
    rewrite Hvalue, (materialize_valid _ _ _ _ Hthis) in Hop.
    rewrite Hc in Hop. subst c. simpl in Hop. simplify_eq. by apply Hsame.
  - unfold JsonItem_append in Hop.
    rewrite Hvalue, (materialize_valid _ _ _ _ Hthis) in Hop.
    rewrite Hc in Hop. simpl in Hop. rewrite decide_False in Hop by (by rewrite Hty).
    simplify_eq. by apply Hsame.
  - destruct (DataItem_copy b h) as [[h2 b']|] eqn:Hcopy.
    + destruct (DataItem_copy_frame _ _ _ _ Hcopy) as (hc & tc & -> & Hd & Hrc).
      destruct (JsonItem_append_copied value this h a hs ts b b' hc tc)
        as (h'' & hs' & Heq & Hr' & Hsub' & Hfr); try done.
      rewrite Heq in Hop. simplify_eq. eauto 10.
    + unfold JsonItem_append in Hop.
      rewrite Hvalue, (materialize_valid _ _ _ _ Hthis) in Hop.
      rewrite Hc in Hop. simpl in Hop. rewrite decide_True, Hcopy in Hop by done. done.
Qed.

Lemma JsonItem_replaceItem_frame index value this h a hs t h' this' r :
  m_content this = Some a → repr hs a t → hs ⊆ h →
  JsonItem_replaceItem index value this h = Some (h', this', r) →
  this' = this ∧ ∃ hs' t', repr hs' a t' ∧ hs' ⊆ h' ∧ frame h hs h' hs'.
Proof.
  intros Hthis Hr Hsub Hop.
  assert (h' = h → this' = this →
          this' = this ∧ ∃ hs' t', repr hs' a t' ∧ hs' ⊆ h' ∧ frame h hs h' hs') as Hsame.
  { intros -> ->. split; [done|]. exists hs, t. split_and!; try done. apply frame_refl. }
  destruct (m_content value) as [b|] eqn:Hvalue;
    [|unfold JsonItem_replaceItem in Hop; rewrite Hvalue in Hop; simplify_eq;
      by apply Hsame].
  destruct t as [v|es|ts].
  - destruct (repr_cell _ _ _ _ Hr Hsub) as (c & Hc & ->).
    unfold JsonItem_replaceItem in Hop.
    rewrite Hvalue, (materialize_valid _ _ _ _ Hthis), Hc in Hop.
    simpl in Hop. simplify_eq. by apply Hsame.
  - pose proof Hr as (m & hs0 & -> & Hk & Hrs & Ha)%repr_Object_inv.
    unfold JsonItem_replaceItem in Hop.
    rewrite Hvalue, (materialize_valid _ _ _ _ Hthis) in Hop.
    assert (h !! a = Some (Object m)) as Hc by heap_solver. rewrite Hc in Hop.
    simpl in Hop. simplify_eq. by apply Hsame.
  - destruct (decide (N.to_nat index < length ts)) as [Hi|Hi].
    + destruct (DataItem_copy b h) as [[h2 b']|] eqn:Hcopy.
      * destruct (DataItem_copy_frame _ _ _ _ Hcopy) as (hc & tc & -> & Hd & Hrc).
        destruct (JsonItem_replaceItem_copied index value this h a hs ts b b' hc tc)
          as (h'' & hs' & Heq & Hr' & Hsub' & Hfr); try done.
        rewrite Heq in Hop. simplify_eq. eauto 10.
      * pose proof Hr as (l & hs0 & -> & Hrs & Ha)%repr_Array_inv.
        pose proof (reprs_length _ _ _ Hrs) as Hlen.
        unfold JsonItem_replaceItem in Hop.
        rewrite Hvalue, (materialize_valid _ _ _ _ Hthis) in Hop.
        assert (h !! a = Some (Array l)) as Hc by heap_solver. rewrite Hc in Hop.
        simpl in Hop. rewrite decide_True, Hcopy in Hop by lia. done.
    + rewrite (JsonItem_replaceItem_out_of_range index value this h a hs ts) in Hop;
        [|done|done|done|lia].
      simplify_eq. by apply Hsame.
Qed.

Lemma mutate_frame m this h a hs t h' this' r :
  m_content this = Some a → repr hs a t → hs ⊆ h →
  mutate m this h = Some (h', this', r) →
  this' = this ∧ ∃ hs' t', repr hs' a t' ∧ hs' ⊆ h' ∧ frame h hs h' hs'.
Proof.
  intros Hthis Hr Hsub Hop. destruct m; simpl in Hop.
  - by eapply JsonItem_insert_frame.
  - by eapply JsonItem_append_frame.
  - by eapply JsonItem_replaceItem_frame.
  - destruct (JsonItem_setValue_spec value this h a hs t)
      as (h'' & hs' & t' & r' & Heq & Hr' & Hsub' & Hfr & _); try done.
    rewrite Heq in Hop. simplify_eq. eauto 10.
  - destruct (JsonItem_remove_key_spec key this h a hs t)
      as (h'' & hs' & t' & r' & Heq & Hr' & Hsub' & Hfr & _); try done.
    rewrite Heq in Hop. simplify_eq. eauto 10.
  - destruct (JsonItem_remove_index_spec index this h a hs t)
      as (h'' & hs' & t' & r' & Heq & Hr' & Hsub' & Hfr & _); try done.
    rewrite Heq in Hop. simplify_eq. eauto 10.
Qed.

(** A run of mutations of one handle keeps every tree that is disjoint from
    the tree of the handle. *)
Lemma mutate_all_kept ms :
  ∀ this h a hs t hf h' this',
    m_content this = Some a → repr hs a t → hs ⊆ h →
    hf ⊆ h → hf ##ₘ hs →
    mutate_all ms this h = Some (h', this') →
    this' = this ∧ hf ⊆ h'.
Proof.
  induction ms as [|m ms IH]; intros this h a hs t hf h' this' Hthis Hr Hsub Hf Hd Hrun;
    simpl in Hrun.
  - by simplify_eq.
  - destruct (mutate m this h) as [[[h1 this1] r]|] eqn:Hm; simplify_eq/=.
    destruct (mutate_frame _ _ _ _ _ _ _ _ _ Hthis Hr Hsub Hm)
      as (-> & hs1 & t1 & Hr1 & Hsub1 & Hfr).
    destruct (frame_kept _ _ _ _ _ Hfr Hf Hd) as [Hf1 Hd1].
    by apply (IH this h1 a hs1 t1 hf h' this').
Qed.

(** Mutations of a handle that holds a tree are defined whenever their
    operand is usable: no call runs into undefined behaviour. *)
Lemma mutate_defined m this h a hs t :
  m_content this = Some a → repr hs a t → hs ⊆ h → operand_ok h m →
  is_Some (mutate m this h).
Proof.
  intros Hthis Hr Hsub Hop.
  destruct (repr_cell _ _ _ _ Hr Hsub) as (c & Hc & Hty).
  destruct m as [key value force|value|index value|value|key|index]; simpl in *.
  - destruct Hop as [Hnone|[tv Hv]];
      [unfold JsonItem_insert; rewrite Hnone; by eexists|].
    destruct (decide (key = ""%string)) as [->|Hkey].
    { unfold JsonItem_insert. destruct (m_content value); by eexists. }
    destruct t as [v|es|ts].
    + unfold JsonItem_insert. destruct (tree_at_valid _ _ _ Hv) as [b ->].
      rewrite decide_False, (materialize_valid _ _ _ _ Hthis), Hc by done.
      subst c. by eexists.
    + destruct (JsonItem_insert_spec key value force this h a hs es tv)
        as (h' & hs' & -> & _); try done.
    + unfold JsonItem_insert. destruct (tree_at_valid _ _ _ Hv) as [b ->].
      rewrite decide_False, (materialize_valid _ _ _ _ Hthis), Hc by done.
      simpl. rewrite decide_False by (by rewrite Hty). by eexists.
  - destruct Hop as [Hnone|[tv Hv]];
      [unfold JsonItem_append; rewrite Hnone; by eexists|].
    destruct (tree_at_valid _ _ _ Hv) as [b Hb]. rewrite Hb in Hv.
    destruct t as [v|es|ts].
    + unfold JsonItem_append.
      rewrite Hb, (materialize_valid _ _ _ _ Hthis), Hc. subst c. by eexists.
    + unfold JsonItem_append.
      rewrite Hb, (materialize_valid _ _ _ _ Hthis), Hc.
      simpl. rewrite decide_False by (by rewrite Hty). by eexists.
    + apply tree_at_repr in Hv as (hb & Hrb & Hsubb).
      destruct (DataItem_copy_ok _ _ _ _ Hrb Hsubb) as (b' & hc & Hcopy & Hd & Hrc).
      destruct (JsonItem_append_copied value this h a hs ts b b' hc tv)
        as (h' & hs' & -> & _); try done.
  - destruct Hop as [Hnone|[tv Hv]];
      [unfold JsonItem_replaceItem; rewrite Hnone; by eexists|].
    destruct (tree_at_valid _ _ _ Hv) as [b Hb]. rewrite Hb in Hv.
    destruct t as [v|es|ts].
    + unfold JsonItem_replaceItem.
      rewrite Hb, (materialize_valid _ _ _ _ Hthis), Hc. subst c. by eexists.
    + unfold JsonItem_replaceItem.
      rewrite Hb, (materialize_valid _ _ _ _ Hthis), Hc.
      destruct c; try done; by eexists.
    + destruct (decide (N.to_nat index < length ts)) as [Hi|Hi].
      * apply tree_at_repr in Hv as (hb & Hrb & Hsubb).
        destruct (DataItem_copy_ok _ _ _ _ Hrb Hsubb) as (b' & hc & Hcopy & Hd & Hrc).
        destruct (JsonItem_replaceItem_copied index value this h a hs ts b b' hc tv)
          as (h' & hs' & -> & _); try done.
      * rewrite (JsonItem_replaceItem_out_of_range index value this h a hs ts);
          [by eexists|done..|lia].
  - destruct (JsonItem_setValue_spec value this h a hs t)
      as (h' & hs' & t' & r & -> & _); done.
  - destruct (JsonItem_remove_key_spec key this h a hs t)
      as (h' & hs' & t' & r & -> & _); done.
  - destruct (JsonItem_remove_index_spec index this h a hs t)
      as (h' & hs' & t' & r & -> & _); done.
Qed.

(** * The claims *)

(** C1.  Copy-constructing a handle [T2] from a handle [T] that holds a tree
    yields an independent deep copy: the copy succeeds, [T2] holds the same
    tree in cells of its own, every run of mutations ([insert], [append],
    [replaceItem], [setValue], [remove]) of [T2] leaves the tree of [T] as it
    was, and every run of mutations of [T] leaves the tree of [T2] as it
    was. *)
Theorem C1_copy_is_independent T h t :
  tree_at h (m_content T) = Some t →
  ∃ h1 T2,
    JsonItem_ctor_copy T h = Some (h1, T2) ∧
    tree_at h1 (m_content T2) = Some t ∧
    tree_at h1 (m_content T) = Some t ∧
    m_content T2 ≠ m_content T ∧
    (∀ ms h' T2', mutate_all ms T2 h1 = Some (h', T2') →
       tree_at h' (m_content T) = Some t) ∧
    (∀ ms h' T', mutate_all ms T h1 = Some (h', T') →
       tree_at h' (m_content T2) = Some t).
Proof.
  intros Ht. destruct (tree_at_valid _ _ _ Ht) as [a Ha]. rewrite Ha in *.
  apply tree_at_repr in Ht as (hs & Hr & Hsub).
  destruct (DataItem_copy_ok _ _ _ _ Hr Hsub) as (a' & hs' & Hcopy & Hd & Hr').
  exists (h ∪ hs'), (set_content (Some a') JsonItem_members).
  unfold JsonItem_ctor_copy. rewrite Ha. simpl. rewrite Hcopy. simpl.
  assert (hs' ⊆ h ∪ hs') as Hsub' by heap_solver.
  assert (hs ⊆ h ∪ hs') as Hsub1 by heap_solver.
  assert (hs ##ₘ hs') as Hdisj by heap_solver.
  split_and!.
  - done.
  - apply tree_at_repr. eauto.
  - apply tree_at_repr. eauto.
  - intros [= ->]. destruct (repr_root _ _ _ Hr) as [c Hc].
    destruct (repr_root _ _ _ Hr') as [c' Hc'].
    assert (h !! a = Some c) by heap_solver. clear Hsub' Hsub1 Hdisj Hsub. heap_at a.
  - intros ms h' T2' Hrun. apply tree_at_repr. exists hs. split; [done|].
    by eapply (mutate_all_kept ms (set_content (Some a') JsonItem_members)
                 (h ∪ hs') a' hs' t hs).
  - intros ms h' T' Hrun. apply tree_at_repr. exists hs'. split; [done|].
    by eapply (mutate_all_kept ms T (h ∪ hs') a hs t hs').
Qed.

Lemma C1_copy_is_independent_witness :
  tree_at sample_heap (m_content sample_item) = Some sample_tree ∧
  ∃ h1 T2,
    JsonItem_ctor_copy sample_item sample_heap = Some (h1, T2) ∧
    tree_at h1 (m_content T2) = Some sample_tree ∧
    tree_at h1 (m_content sample_item) = Some sample_tree ∧
    m_content T2 ≠ m_content sample_item ∧
    (∀ ms h' T2', mutate_all ms T2 h1 = Some (h', T2') →
       tree_at h' (m_content sample_item) = Some sample_tree) ∧
    (∀ ms h' T', mutate_all ms sample_item h1 = Some (h', T') →
       tree_at h' (m_content T2) = Some sample_tree).
Proof.
  split; [vm_compute; reflexivity|].
  apply (C1_copy_is_independent sample_item sample_heap sample_tree).
  vm_compute; reflexivity.
Defined.

(** A run on the sample document: the copy is mutated by one call of each
    kind, the original still holds the sample tree and the copy holds the
    mutated one. *)
Example copy_then_mutate :
  ∃ h1 T2 h2 T2',
    JsonItem_ctor_copy sample_item sample_store = Some (h1, T2) ∧
    mutate_all [MInsert "extra" sample_x false; MRemoveKey "tags";
                MInsert "count" sample_y true; MSetValue (IntValue 3);
                MAppend sample_x; MReplaceItem 0 sample_y; MRemoveIndex 0]
               T2 h1 = Some (h2, T2') ∧
    tree_at h2 (m_content sample_item) = Some sample_tree ∧
    tree_at h2 (m_content T2') =
      Some (TObject [("name", TValue (StringValue "a"));
                     ("count", TValue (StringValue "hi"));
                     ("extra", TValue (IntValue 7))]).
Proof. eexists _, _, _, _. split_and!; vm_compute; reflexivity. Qed.

(** A successful [insert] leaves the inserted tree under the key. *)
Lemma entries_insert_found key t force es :
  (entries_insert key t force es).2 = true →
  ∃ i, find_key key (entries_insert key t force es).1 = Some (i, (key, t)).
Proof.
  unfold entries_insert, find_key.
  destruct (list_find _ es) as [[i [k t0]]|] eqn:Hf.
  - destruct force; simpl; [|done]. intros _. exists i.
    apply list_find_Some in Hf as (Hi & Hk & Hbefore).
    apply list_find_Some. split_and!.
    + apply list_lookup_insert_eq. by eapply lookup_lt_Some.
    + done.
    + intros j y Hj Hlt. rewrite list_lookup_insert_ne in Hj by lia. eauto.
  - simpl. intros _. exists (length es).
    apply list_find_None in Hf.
    apply list_find_Some. split_and!.
    + by rewrite lookup_app_r, Nat.sub_diag.
    + done.
    + intros j y Hj Hlt. rewrite lookup_app_l in Hj by done.
      rewrite Forall_forall in Hf. apply Hf. eapply list_elem_of_lookup_2, Hj.
Qed.

(** The view [get(key, false)] of an entry of an owned object is the child
    stored under the key. *)
Lemma JsonItem_get_key_view key this h a hs es i t :
  m_content this = Some a → repr hs a (TObject es) → hs ⊆ h →
  find_key key es = Some (i, (key, t)) →
  ∃ v, JsonItem_get_key key false this h = Some (h, v) ∧
       tree_at h (m_content v) = Some t.
Proof.
  intros Hthis Hr Hsub Hf. unfold JsonItem_get_key. rewrite Hthis.
  apply repr_Object_inv in Hr as (m & hs0 & -> & Hk & Hrs & Ha).
  assert (h !! a = Some (Object m)) as -> by heap_solver. simpl.
  destruct (find_key key m) as [[j [k c]]|] eqn:Hm.
  - destruct (find_key_Some _ _ es _ _ _ Hk Hm) as (-> & Hmj & t' & Hf' & Hej).
    rewrite Hf in Hf'. simplify_eq. simpl.
    eexists. split; [done|]. simpl. apply tree_at_repr.
    assert (m.*2 !! j = Some c) as Hc by (by rewrite list_lookup_fmap, Hmj).
    destruct (reprs_focus _ _ _ _ _ Hrs Hc) as (hc & hr & t'' & Ht'' & Hrc & -> & Hd & _).
    rewrite list_lookup_fmap, Hej in Ht''. simplify_eq/=.
    exists hc. split; [done|heap_solver].
  - by rewrite (find_key_None _ _ es Hk Hm) in Hf.
Qed.

(** C2.  On a handle whose content is an object, once [insert(key, x)] has
    succeeded (with the default [force = false], or with [force = true]),
    [insert(key, y, false)] returns [false] and the value stored under [key]
    is still the tree of [x], while [insert(key, y, true)] returns [true] and
    the value stored under [key] is the tree of [y]. *)
Theorem C2_insert_overwrite J h es key x tx force0 y ty h1 J1 :
  tree_at h (m_content J) = Some (TObject es) →
  tree_at h (m_content x) = Some tx →
  JsonItem_insert key x force0 J h = Some (h1, J1, true) →
  tree_at h1 (m_content y) = Some ty →
  (∃ h2 J2 v,
     JsonItem_insert key y false J1 h1 = Some (h2, J2, false) ∧
     JsonItem_get_key key false J2 h2 = Some (h2, v) ∧
     tree_at h2 (m_content v) = Some tx) ∧
  (∃ h3 J3 v,
     JsonItem_insert key y true J1 h1 = Some (h3, J3, true) ∧
     JsonItem_get_key key false J3 h3 = Some (h3, v) ∧
     tree_at h3 (m_content v) = Some ty).
Proof.
  intros HJ Hx Hins Hy.
  destruct (tree_at_valid _ _ _ HJ) as [a Ha]. rewrite Ha in HJ.
  apply tree_at_repr in HJ as (hs & Hr & Hsub).
  assert (key ≠ ""%string) as Hkey.
  { intros ->. unfold JsonItem_insert in Hins.
    destruct (m_content x); simpl in Hins; simplify_eq. }
  destruct (JsonItem_insert_spec key x force0 J h a hs es tx)
    as (h1' & hs1 & Heq & Hr1 & Hsub1 & _); try done.
  rewrite Heq in Hins. injection Hins as <- <- Hres.
  destruct (entries_insert_found _ _ _ _ Hres) as [i Hi].
  set (es1 := (entries_insert key tx force0 es).1) in *.
  split.
  - destruct (JsonItem_insert_spec key y false J h1' a hs1 es1 ty)
      as (h2 & hs2 & Heq2 & Hr2 & Hsub2 & _); try done.
    unfold entries_insert in Heq2, Hr2. rewrite Hi in Heq2, Hr2. simpl in *.
    destruct (JsonItem_get_key_view key J h2 a hs2 es1 i tx) as (v & Hv & Htv); try done.
    eauto 10.
  - destruct (JsonItem_insert_spec key y true J h1' a hs1 es1 ty)
      as (h3 & hs3 & Heq3 & Hr3 & Hsub3 & _); try done.
    assert ((entries_insert key ty true es1).2 = true) as Hres3
      by (unfold entries_insert; rewrite Hi; done).
    destruct (entries_insert_found _ _ _ _ Hres3) as [i3 Hi3].
    rewrite Hres3 in Heq3.
    destruct (JsonItem_get_key_view key J h3 a hs3 _ i3 ty Ha Hr3 Hsub3 Hi3)
      as (v & Hv & Htv).
    eauto 10.
Qed.

Lemma C2_insert_overwrite_witness :
  ∃ h1 J1,
    JsonItem_insert "a" sample_x false sample_item sample_store = Some (h1, J1, true) ∧
    (∃ h2 J2 v,
       JsonItem_insert "a" sample_y false J1 h1 = Some (h2, J2, false) ∧
       JsonItem_get_key "a" false J2 h2 = Some (h2, v) ∧
       tree_at h2 (m_content v) = Some (TValue (IntValue 7))) ∧
    (∃ h3 J3 v,
       JsonItem_insert "a" sample_y true J1 h1 = Some (h3, J3, true) ∧
       JsonItem_get_key "a" false J3 h3 = Some (h3, v) ∧
       tree_at h3 (m_content v) = Some (TValue (StringValue "hi"))).
Proof.
  eexists _, _. split; [vm_compute; reflexivity|].
  apply (C2_insert_overwrite sample_item sample_store
           (match sample_tree with TObject es => es | _ => [] end)
           "a" sample_x _ false sample_y);
    vm_compute; reflexivity.
Defined.

(** C3.  The lookups [operator[](key)], [operator[](index)], [get(key, copy)]
    and [get(index, copy)] return an invalid handle, without error and
    without touching the heap, when the content is absent, when the content
    is of the wrong variant, and when the key or index does not exist. *)
Theorem C3_lookup_gives_invalid_handle this h key index copy :
  let invalid r := ∃ v, r = Some (h, v) ∧ JsonItem_isValid v = false in
  (m_content this = None →
     invalid (JsonItem_get_key key copy this h) ∧
     invalid (JsonItem_get_index index copy this h) ∧
     invalid (JsonItem_subscript_key key this h) ∧
     invalid (JsonItem_subscript_index index this h)) ∧
  (∀ a c, m_content this = Some a → h !! a = Some c →
     (DataItem_getType c ≠ OBJECT_TYPE →
        invalid (JsonItem_get_key key copy this h) ∧
        invalid (JsonItem_subscript_key key this h)) ∧
     (DataItem_getType c ≠ ARRAY_TYPE →
        invalid (JsonItem_get_index index copy this h) ∧
        invalid (JsonItem_subscript_index index this h)) ∧
     (∀ m, c = Object m → key ∉ m.*1 →
        invalid (JsonItem_get_key key copy this h) ∧
        invalid (JsonItem_subscript_key key this h)) ∧
     (∀ l, c = Array l → (N.of_nat (length l) ≤ index)%N →
        invalid (JsonItem_get_index index copy this h) ∧
        invalid (JsonItem_subscript_index index this h))).
Proof.
  intros invalid.
  assert (∀ cp, invalid (JsonItem_ctor_ptr None cp h)) as Hnull.
  { intros []; eexists; (split; [done|done]). }
  split.
  - intros Hnone.
    unfold JsonItem_subscript_key, JsonItem_subscript_index, JsonItem_get_key,
      JsonItem_get_index. rewrite Hnone.
    split_and!; eexists; (split; [done|done]).
  - intros a c Hthis Hcell.
    unfold JsonItem_subscript_key, JsonItem_subscript_index, JsonItem_get_key,
      JsonItem_get_index. rewrite Hthis, Hcell. simpl.
    split_and!.
    + intros Hty. destruct c; try done; simpl; (split; [exact (Hnull copy)|exact (Hnull true)]).
    + intros Hty. destruct c; try done; simpl; (split; [exact (Hnull copy)|exact (Hnull true)]).
    + intros m -> Hkey. simpl.
      assert (find_key key m = None) as ->; [|simpl; split; [exact (Hnull copy)|exact (Hnull true)]].
      apply list_find_None, Forall_forall. intros [k c] Hin Hk. simpl in Hk. subst k.
      apply Hkey, list_elem_of_fmap. by exists (key, c).
    + intros l -> Hlen. simpl.
      assert (l !! N.to_nat index = None) as ->; [|split; [exact (Hnull copy)|exact (Hnull true)]].
      apply lookup_ge_None. lia.
Qed.

Lemma C3_lookup_gives_invalid_handle_witness :
  let this := sample_item in
  let h := sample_heap in
  let invalid r := ∃ v, r = Some (h, v) ∧ JsonItem_isValid v = false in
  invalid (JsonItem_get_index 0 false this h) ∧
  invalid (JsonItem_subscript_index 0 this h) ∧
  invalid (JsonItem_get_key "missing" true this h) ∧
  invalid (JsonItem_subscript_key "missing" this h).
Proof.
  intros this h invalid.
  destruct (C3_lookup_gives_invalid_handle this h "missing" 0%N false)
    as [_ Hvalid].
  destruct (C3_lookup_gives_invalid_handle this h "missing" 0%N true)
    as [_ Hvalid'].
  edestruct Hvalid as (_ & Harr & _); [vm_compute; reflexivity..|].
  edestruct Hvalid' as (_ & _ & Hkey & _); [vm_compute; reflexivity..|].
  destruct Harr as [H1 H2]; [done|].
  edestruct Hkey as [H3 H4]; [reflexivity|by vm_compute; set_solver|].
  done.
Defined.

(** C4 (defect).  On the handle of the sample document, which holds an
    object, and on a view of its array ["tags"], [getString] returns the empty
    string: it asks for the variant first.  [getInt] and [getFloat] do not:
    they call [toValue()->getValueType()] on the object and on the array,
    where the downcast designates no scalar.  They do not return 0; the
    behaviour is undefined. *)
Theorem C4_getInt_on_container_undefined :
  JsonItem_isObject sample_item sample_store = Some true ∧
  JsonItem_getString sample_item sample_store = Some ""%string ∧
  JsonItem_getInt sample_item sample_store = None ∧
  JsonItem_getFloat sample_item sample_store = None ∧
  ∃ tags,
    JsonItem_get_key "tags" false sample_item sample_store = Some (sample_store, tags) ∧
    JsonItem_isArray tags sample_store = Some true ∧
    JsonItem_getString tags sample_store = Some ""%string ∧
    JsonItem_getInt tags sample_store = None ∧
    JsonItem_getFloat tags sample_store = None.
Proof.
  split_and!; try (vm_compute; reflexivity).
  eexists. split_and!; vm_compute; reflexivity.
Qed.

(** ** Arrays built by [append] *)

Lemma repr_empty_array a : repr {[a := Array []]} a (TArray []).
Proof. rewrite <- insert_empty. constructor; [constructor|done]. Qed.

Lemma JsonItem_append_materialize value this h b :
  m_content this = None → m_content value = Some b →
  JsonItem_append value this h
  = JsonItem_append value (set_content (Some (fresh (dom h))) this)
                    (<[fresh (dom h) := Array []]> h).
Proof.
  intros Hthis Hvalue. unfold JsonItem_append, materialize, new.
  by rewrite Hvalue, Hthis.
Qed.

Lemma JsonItem_append_true value this h a hs ts h' this' :
  m_content this = Some a → repr hs a (TArray ts) → hs ⊆ h →
  JsonItem_append value this h = Some (h', this', true) →
  this' = this ∧ ∃ hs' tc, repr hs' a (TArray (ts ++ [tc])) ∧ hs' ⊆ h'.
Proof.
  intros Hthis Hr Hsub Hop.
  destruct (m_content value) as [b|] eqn:Hvalue;
    [|unfold JsonItem_append in Hop; rewrite Hvalue in Hop; simplify_eq].
  destruct (DataItem_copy b h) as [[h2 b']|] eqn:Hcopy.
  - destruct (DataItem_copy_frame _ _ _ _ Hcopy) as (hc & tc & -> & Hd & Hrc).
    destruct (JsonItem_append_copied value this h a hs ts b b' hc tc)
      as (h'' & hs' & Heq & Hr' & Hsub' & Hfr); try done.
    rewrite Heq in Hop. simplify_eq. eauto 10.
  - unfold JsonItem_append in Hop.
    rewrite Hvalue, (materialize_valid _ _ _ _ Hthis) in Hop.
    destruct (repr_cell _ _ _ _ Hr Hsub) as (c & Hc & Hty). rewrite Hc in Hop.
    simpl in Hop. rewrite decide_True, Hcopy in Hop by done. done.
Qed.

Lemma append_all_array values :
  ∀ this h a hs ts h' this',
    m_content this = Some a → repr hs a (TArray ts) → hs ⊆ h →
    append_all values this h = Some (h', this') →
    this' = this ∧
    ∃ hs' ts', repr hs' a (TArray (ts ++ ts')) ∧ hs' ⊆ h' ∧
               length ts' = length values.
Proof.
  induction values as [|v values IH]; intros this h a hs ts h' this' Hthis Hr Hsub Hrun;
    simpl in Hrun.
  - simplify_eq. split; [done|]. exists hs, []. by rewrite app_nil_r.
  - destruct (JsonItem_append v this h) as [[[h1 this1] []]|] eqn:Hop; try done.
    destruct (JsonItem_append_true _ _ _ _ _ _ _ _ Hthis Hr Hsub Hop)
      as (-> & hs1 & tc & Hr1 & Hsub1).
    destruct (IH _ _ _ _ _ _ _ Hthis Hr1 Hsub1 Hrun) as (-> & hs' & ts' & Hr' & Hsub' & Hlen).
    split; [done|]. exists hs', (tc :: ts').
    rewrite <- app_assoc in Hr'. simpl in *. by rewrite Hlen.
Qed.

(** An array of [length values] elements, however the handle started out:
    holding an empty array, or invalid with at least one call. *)
Lemma append_all_builds values this h h' this' :
  tree_at h (m_content this) = Some (TArray []) ∨
    (m_content this = None ∧ values ≠ []) →
  append_all values this h = Some (h', this') →
  ∃ ts, tree_at h' (m_content this') = Some (TArray ts) ∧
        length ts = length values.
Proof.
  intros [Harr|[Hnone Hne]] Hrun.
  - destruct (tree_at_valid _ _ _ Harr) as [a Ha]. rewrite Ha in Harr.
    apply tree_at_repr in Harr as (hs & Hr & Hsub).
    destruct (append_all_array _ _ _ _ _ _ _ _ Ha Hr Hsub Hrun)
      as (-> & hs' & ts' & Hr' & Hsub' & Hlen).
    exists ts'. rewrite Ha. split; [|done]. apply tree_at_repr. eauto.
  - destruct values as [|v values]; [done|]. simpl in Hrun.
    destruct (m_content v) as [b|] eqn:Hv;
      [|unfold JsonItem_append in Hrun; by rewrite Hv in Hrun].
    rewrite (JsonItem_append_materialize v this h b) in Hrun by done.
    set (a := fresh (dom h)) in *.
    assert (h !! a = None) as Hfresh by apply not_elem_of_dom, is_fresh.
    change (append_all (v :: values) (set_content (Some a) this)
              (<[a := Array []]> h) = Some (h', this')) in Hrun.
    destruct (append_all_array (v :: values) (set_content (Some a) this)
                (<[a := Array []]> h) a {[a := Array []]} [] h' this')
      as (-> & hs' & ts' & Hr' & Hsub' & Hlen);
      [done|apply repr_empty_array|heap_solver|done|].
    exists ts'. split; [|done]. apply tree_at_repr. eauto.
Qed.

(** C5.  On an array of [N] elements built by [N] successful calls of
    [append], [replaceItem(N, w)] with a valid [w] returns [false] and leaves
    handle and heap as they were, and, for [N > 0], [replaceItem(N-1, w)]
    returns [true] and the array afterwards holds the tree of [w] at index
    [N-1] and the old elements everywhere else.  The index is a [uint32_t],
    so [N] is below [2^32]. *)
Theorem C5_replaceItem_bounds values this0 h0 this h w tw :
  tree_at h0 (m_content this0) = Some (TArray []) ∨
    (m_content this0 = None ∧ values ≠ []) →
  append_all values this0 h0 = Some (h, this) →
  tree_at h (m_content w) = Some tw →
  (N.of_nat (length values) < 2 ^ 32)%N →
  ∃ ts,
    tree_at h (m_content this) = Some (TArray ts) ∧
    length ts = length values ∧
    JsonItem_replaceItem (N.of_nat (length values)) w this h = Some (h, this, false) ∧
    (0 < length values →
     ∃ h',
       JsonItem_replaceItem (N.of_nat (length values - 1)) w this h
         = Some (h', this, true) ∧
       tree_at h' (m_content this)
         = Some (TArray (<[length values - 1 := tw]> ts))).
Proof.
  intros Hstart Hrun Hw _.
  destruct (append_all_builds _ _ _ _ _ Hstart Hrun) as (ts & Hts & Hlen).
  exists ts. split; [done|]. split; [done|].
  destruct (tree_at_valid _ _ _ Hts) as [a Ha]. rewrite Ha in Hts.
  apply tree_at_repr in Hts as (hs & Hr & Hsub).
  destruct (tree_at_valid _ _ _ Hw) as [b Hb]. rewrite Hb in Hw.
  apply tree_at_repr in Hw as (hb & Hrb & Hsubb).
  split.
  - apply (JsonItem_replaceItem_out_of_range _ _ _ _ a hs ts); [done..|lia].
  - intros Hpos.
    destruct (DataItem_copy_ok _ _ _ _ Hrb Hsubb) as (b' & hc & Hcopy & Hd & Hrc).
    destruct (JsonItem_replaceItem_copied (N.of_nat (length values - 1)) w this h
                a hs ts b b' hc tw) as (h' & hs' & Heq & Hr' & Hsub' & _);
      [done..|lia|done|done|done|].
    exists h'. split; [done|]. rewrite Ha. apply tree_at_repr.
    rewrite Nat2N.id in Hr'. eauto.
Qed.

Lemma C5_replaceItem_bounds_witness :
  ∃ h this,
    append_all [sample_x; sample_y; sample_x] JsonItem_ctor sample_store = Some (h, this) ∧
    ∃ ts,
      tree_at h (m_content this) = Some (TArray ts) ∧
      length ts = 3 ∧
      JsonItem_replaceItem 3 sample_y this h = Some (h, this, false) ∧
      (0 < 3 →
       ∃ h',
         JsonItem_replaceItem 2 sample_y this h = Some (h', this, true) ∧
         tree_at h' (m_content this)
           = Some (TArray (<[2 := TValue (StringValue "hi")]> ts))).
Proof.
  eexists _, _. split; [vm_compute; reflexivity|].
  apply (C5_replaceItem_bounds [sample_x; sample_y; sample_x] JsonItem_ctor sample_store
           _ _ sample_y (TValue (StringValue "hi"))).
  - right. split; [reflexivity|discriminate].
  - vm_compute; reflexivity.
  - vm_compute; reflexivity.
  - vm_compute; reflexivity.
Defined.

(** ** Clearing a handle *)

Lemma JsonItem_clear_spec this h :
  clearable h this →
  ∃ h' this',
    JsonItem_clear this h = Some (h', this') ∧
    m_deletable this' = m_deletable this ∧
    (m_deletable this = true → m_content this' = None ∧
       ∀ a, m_content this = Some a → h' !! a = None) ∧
    (m_deletable this = false → h' = h ∧ this' = this) ∧
    (∀ hf a hs t, m_content this = Some a → repr hs a t → hs ⊆ h →
       hf ⊆ h → hf ##ₘ hs → hf ⊆ h').
Proof.
  unfold clearable, JsonItem_clear. intros Hok.
  destruct (m_content this) as [a|] eqn:Ha.
  - destruct (m_deletable this) eqn:Hdel.
    + destruct Hok as [?|[?|[t Ht]]]; try done.
      apply tree_at_repr in Ht as (hs & Hr & Hsub).
      rewrite (DataItem_delete_ok _ _ _ _ Hr Hsub). simpl.
      eexists _, _. split; [done|]. split_and!; try done.
      * intros _. split; [done|]. intros a' [= <-].
        destruct (repr_root _ _ _ Hr) as [c Hc]. clear Hr. heap_solver.
      * intros hf a' hs' t' [= <-] Hr' Hsub' Hf Hd.
        assert (hs' = hs) as ->.
        { pose proof (proj1 read_complete_mut _ _ _ Hr (size h) h Hsub
                        (map_subseteq_size _ _ Hsub)) as H1.
          pose proof (proj1 read_complete_mut _ _ _ Hr' (size h) h Hsub'
                        (map_subseteq_size _ _ Hsub')) as H2.
          congruence. }
        heap_solver.
    + eexists _, _. split; [done|]. split_and!; done.
  - eexists _, _. split; [done|]. split_and!; done.
Qed.

(** C6.  When the parser fails, [parse] returns [(false, errorMessage)] and
    neither the handle nor the heap changes.  When the parser succeeds,
    [parse] returns [(true, "")]: the old content is cleared first (destroyed
    if the handle owns it, left alone if it is a view) and the output tree of
    the parser is installed as the new content: the content pointer of the
    returned handle is the root of the parser's output, the handle is valid
    and holds the output tree, and its ownership flag is the one from
    before. *)
Theorem C6_parse parser_parse input traceParsing this h :
  (∀ errorMessage, parser_parse traceParsing input = inl errorMessage →
     JsonItem_parse parser_parse input traceParsing this h
       = Some (h, this, (false, errorMessage))) ∧
  (∀ output, parser_parse traceParsing input = inr output →
     clearable h this →
     ∃ h1 out h' this1 this',
       alloc_tree output h = (h1, out) ∧
       JsonItem_clear this h1 = Some (h', this1) ∧
       JsonItem_parse parser_parse input traceParsing this h
         = Some (h', this', (true, ""%string)) ∧
       this' = set_content (Some out) this1 ∧
       m_content this' = Some out ∧
       m_deletable this' = m_deletable this ∧
       JsonItem_isValid this' = true ∧
       tree_at h' (m_content this') = Some output ∧
       (m_deletable this = true → ∀ a, m_content this = Some a → h' !! a = None) ∧
       (m_deletable this = false → ∀ t,
          tree_at h (m_content this) = Some t → tree_at h' (m_content this) = Some t)).
Proof.
  unfold JsonItem_parse. split.
  - by intros errorMessage ->.
  - intros output -> Hok.
    destruct (alloc_tree_ok output h) as (out & ho & Halloc & Hd & Hro).
    rewrite Halloc.
    assert (clearable (h ∪ ho) this) as Hok'.
    { destruct Hok as [?|[?|[t Ht]]]; [by left|by right; left|].
      right; right. exists t. destruct (tree_at_valid _ _ _ Ht) as [a Ha].
      rewrite Ha in *. apply tree_at_repr in Ht as (hs & Hr & Hsub).
      apply tree_at_repr. exists hs. split; [done|heap_solver]. }
    destruct (JsonItem_clear_spec this (h ∪ ho) Hok')
      as (h' & this1 & Hclear & Hdel & Hown & Hview & Hkept).
    rewrite Hclear. simpl.
    exists (h ∪ ho), out, h', this1, (set_content (Some out) this1).
    simpl. split_and!; try done.
    + apply tree_at_repr. exists ho. split; [done|].
      destruct (m_content this) as [a|] eqn:Ha.
      * destruct (m_deletable this) eqn:Hd'.
        -- destruct Hok as [?|[?|[t Ht]]]; try congruence.
           rewrite Ha in Ht. apply tree_at_repr in Ht as (hs & Hr & Hsub).
           apply (Hkept ho a hs t); [done|done|heap_solver|heap_solver|heap_solver].
        -- destruct Hview as [-> _]; [done|]. heap_solver.
      * unfold JsonItem_clear in Hclear. rewrite Ha in Hclear. simplify_eq.
        heap_solver.
    + intros Htrue a Ha. by apply Hown.
    + intros Hfalse t Ht. destruct (Hview Hfalse) as [-> ->].
      destruct (tree_at_valid _ _ _ Ht) as [a Ha]. rewrite Ha in *.
      apply tree_at_repr in Ht as (hs & Hr & Hsub).
      apply tree_at_repr. exists hs. split; [done|heap_solver].
Qed.

Lemma C6_parse_witness :
  clearable sample_heap sample_item ∧
  ∃ h1 out h' this1 this',
    alloc_tree sample_tree sample_heap = (h1, out) ∧
    JsonItem_clear sample_item h1 = Some (h', this1) ∧
    JsonItem_parse sample_parser "{sample}" false sample_item sample_heap
      = Some (h', this', (true, ""%string)) ∧
    this' = set_content (Some out) this1 ∧
    m_content this' = Some out ∧
    m_deletable this' = m_deletable sample_item ∧
    JsonItem_isValid this' = true ∧
    tree_at h' (m_content this') = Some sample_tree ∧
    (m_deletable sample_item = true →
       ∀ a, m_content sample_item = Some a → h' !! a = None) ∧
    (m_deletable sample_item = false → ∀ t,
       tree_at sample_heap (m_content sample_item) = Some t →
       tree_at h' (m_content sample_item) = Some t).
Proof.
  assert (clearable sample_heap sample_item) as Hok.
  { right; right. exists sample_tree. vm_compute; reflexivity. }
  split; [exact Hok|].
  destruct (C6_parse sample_parser "{sample}" false sample_item sample_heap) as [_ H].
  apply (H sample_tree); [vm_compute; reflexivity|exact Hok].
Defined.

Example parse_failure_keeps_content :
  JsonItem_parse sample_parser "{" false sample_item sample_heap
    = Some (sample_heap, sample_item, (false, "parse error"%string)).
Proof. vm_compute; reflexivity. Qed.

(** C7 (defect).  Assigning from an invalid (default-constructed) handle to
    the handle of the sample document: [clear] destroys the document, then
    [other.m_content->copy()] dereferences the null pointer.  No deep copy of
    the (absent) content is installed; the behaviour is undefined. *)
Theorem C7_assign_from_invalid_undefined :
  JsonItem_assign (RefOther JsonItem_ctor) sample_item sample_store = None.
Proof. vm_compute; reflexivity. Qed.

(** The second way [operator=] misses its contract: on a non-owning view
    [clear] does nothing, the deep copy of the right-hand side is installed,
    and [m_deletable] is still [false].  The handle does not own the copy:
    its destructor leaves the copy allocated. *)
Example assign_to_view_does_not_own :
  ∃ h' this' a,
    JsonItem_assign (RefOther sample_x) sample_view sample_store = Some (h', this') ∧
    m_content this' = Some a ∧
    tree_at h' (Some a) = Some (TValue (IntValue 7)) ∧
    m_deletable this' = false ∧
    JsonItem_dtor this' h' = Some h' ∧
    is_Some (h' !! a).
Proof. eexists _, _, _. split_and!; vm_compute; eauto. Qed.

(** Where the left-hand side is empty or owns its tree and the right-hand
    side holds a tree outside it, assignment does what is intended: the old
    tree is destroyed, the handle holds a copy of the right-hand tree, and
    the right-hand side still holds its tree. *)
Lemma JsonItem_assign_owning this other h t :
  m_deletable this = true →
  (m_content this = None ∨
   ∃ a hs ta hb b, m_content this = Some a ∧ repr hs a ta ∧ hs ⊆ h ∧
     m_content other = Some b ∧ repr hb b t ∧ hb ⊆ h ∧ hs ##ₘ hb) →
  tree_at h (m_content other) = Some t →
  ∃ h' this',
    JsonItem_assign (RefOther other) this h = Some (h', this') ∧
    m_deletable this' = true ∧
    tree_at h' (m_content this') = Some t ∧
    tree_at h' (m_content other) = Some t ∧
    m_content this' ≠ m_content other.
Proof.
  intros Hdel Hthis Hother. unfold JsonItem_assign, JsonItem_clear. rewrite Hdel.
  destruct (tree_at_valid _ _ _ Hother) as [b Hb]. rewrite Hb in *.
  assert (∀ h1 hb b' hc, repr hb b t → hb ⊆ h1 → hc ##ₘ h1 → repr hc b' t →
            Some b' ≠ Some b) as Hne.
  { intros h1 hb b' hc Hrb Hsb Hdc Hrc [= ->].
    destruct (repr_root _ _ _ Hrb) as [c Hc]. destruct (repr_root _ _ _ Hrc) as [c' Hc'].
    clear Hrb Hrc. heap_at b. }
  destruct Hthis as [Hnone|(a & hs & ta & hb & b0 & Ha & Hr & Hsub & Hb0 & Hrb & Hsubb & Hd)].
  - rewrite Hnone. simpl. apply tree_at_repr in Hother as (hb & Hrb & Hsubb).
    destruct (DataItem_copy_ok _ _ _ _ Hrb Hsubb) as (b' & hc & -> & Hdc & Hrc). simpl.
    eexists _, _. split; [done|]. simpl. split_and!; try done.
    + apply tree_at_repr. exists hc. split; [done|heap_solver].
    + apply tree_at_repr. exists hb. split; [done|heap_solver].
    + by eapply Hne.
  - rewrite Ha. simplify_eq. rewrite (DataItem_delete_ok _ _ _ _ Hr Hsub). simpl.
    assert (hb ⊆ h ∖ hs) as Hsubb' by heap_solver.
    destruct (DataItem_copy_ok _ _ _ _ Hrb Hsubb') as (b' & hc & -> & Hdc & Hrc). simpl.
    eexists _, _. split; [done|]. simpl. split_and!; try done.
    + apply tree_at_repr. exists hc. split; [done|heap_solver].
    + apply tree_at_repr. exists hb. split; [done|heap_solver].
    + by eapply Hne.
Qed.

Lemma JsonItem_assign_self this h :
  JsonItem_assign RefThis this h = Some (h, this).
Proof. done. Qed.

(** C8 (as stated, for a non-owning handle).  After [clear] the view of the
    sample document is still valid and still has three entries. *)
Lemma C8_clear_view_still_valid :
  ¬ (∀ h' this',
       JsonItem_clear sample_view sample_heap = Some (h', this') →
       JsonItem_isValid this' = false ∧ JsonItem_getSize this' h' = Some 0%N).
Proof.
  intros H. destruct (H sample_heap sample_view) as [Hvalid _].
  - vm_compute; reflexivity.
  - vm_compute in Hvalid. discriminate.
Qed.

(** C8 (amended).  After [clear], a handle that was empty or owned its
    content is invalid: [isValid] is [false], [getSize] is 0 and [print] is
    the empty string, and owned content has been destroyed.  On a non-owning
    handle [clear] changes nothing: the content is not destroyed and the
    handle keeps pointing to it. *)
Theorem C8_clear DataItem_print indent this h :
  (m_content this = None ∨
   (m_deletable this = true ∧ ∃ t, tree_at h (m_content this) = Some t) →
     ∃ h' this',
       JsonItem_clear this h = Some (h', this') ∧
       JsonItem_isValid this' = false ∧
       JsonItem_getSize this' h' = Some 0%N ∧
       JsonItem_print DataItem_print indent this' h' = Some ""%string ∧
       (∀ a, m_content this = Some a → h' !! a = None)) ∧
  (m_deletable this = false → JsonItem_clear this h = Some (h, this)).
Proof.
  split.
  - intros Hok.
    assert (clearable h this) as Hok' by (destruct Hok as [?|[_ ?]]; [by left|by right; right]).
    destruct (JsonItem_clear_spec this h Hok') as (h' & this' & Hclear & _ & Hown & _).
    exists h', this'. split; [done|].
    assert (m_content this' = None ∧ ∀ a, m_content this = Some a → h' !! a = None)
      as [Hnone Hgone].
    { destruct Hok as [Hnone|[Hdel _]]; [|by apply Hown].
      unfold JsonItem_clear in Hclear. rewrite Hnone in Hclear. simplify_eq.
      split; [done|]. intros a. by rewrite Hnone. }
    unfold JsonItem_isValid, JsonItem_getSize, JsonItem_print. by rewrite Hnone.
  - intros Hdel. unfold JsonItem_clear. rewrite Hdel. by destruct (m_content this).
Qed.

Lemma C8_clear_witness :
  (∃ h' this',
     JsonItem_clear sample_item sample_heap = Some (h', this') ∧
     JsonItem_isValid this' = false ∧
     JsonItem_getSize this' h' = Some 0%N ∧
     JsonItem_print sample_printer false this' h' = Some ""%string ∧
     (∀ a, m_content sample_item = Some a → h' !! a = None)) ∧
  JsonItem_clear sample_view sample_heap = Some (sample_heap, sample_view).
Proof.
  destruct (C8_clear sample_printer false sample_item sample_heap) as [Hown _].
  destruct (C8_clear sample_printer false sample_view sample_heap) as [_ Hview].
  split.
  - apply Hown. right. split; [reflexivity|].
    exists sample_tree. vm_compute; reflexivity.
  - apply Hview. reflexivity.
Defined.

(** ** Invalid handles *)

Lemma tree_at_new c h p t :
  tree_at h p = Some t → tree_at (new c h).1 p = Some t.
Proof.
  intros Ht. destruct (tree_at_valid _ _ _ Ht) as [a ->].
  apply tree_at_repr in Ht as (hs & Hr & Hsub). apply tree_at_repr.
  exists hs. split; [done|]. simpl.
  assert (h !! fresh (dom h) = None) by apply not_elem_of_dom, is_fresh.
  set (a' := fresh (dom h)) in *. clearbody a'. heap_solver.
Qed.

Lemma JsonItem_insert_materialize key value force this h b :
  m_content this = None → m_content value = Some b → key ≠ ""%string →
  JsonItem_insert key value force this h
  = JsonItem_insert key value force (set_content (Some (fresh (dom h))) this)
                    (<[fresh (dom h) := Object []]> h).
Proof.
  intros Hthis Hvalue Hkey. unfold JsonItem_insert, materialize, new.
  by rewrite Hvalue, Hthis, !decide_False by done.
Qed.

(** Mutators that take an operand return [false] at once when the operand is
    invalid, whatever the handle. *)
Lemma invalid_operand_guarded deletable this h key force index :
  let value := {| m_content := None; m_deletable := deletable |} in
  JsonItem_insert key value force this h = Some (h, this, false) ∧
  JsonItem_append value this h = Some (h, this, false) ∧
  JsonItem_replaceItem index value this h = Some (h, this, false).
Proof. done. Qed.

(** On an invalid handle, a mutator with a valid operand materialises the
    container and goes on. *)
Lemma invalid_handle_mutators deletable h value t key force index :
  let this := {| m_content := None; m_deletable := deletable |} in
  tree_at h (m_content value) = Some t →
  is_Some (JsonItem_insert key value force this h) ∧
  is_Some (JsonItem_append value this h) ∧
  is_Some (JsonItem_replaceItem index value this h).
Proof.
  intros this Hv. destruct (tree_at_valid _ _ _ Hv) as [b Hb].
  assert (h !! fresh (dom h) = None) as Hfresh by apply not_elem_of_dom, is_fresh.
  split_and!.
  - destruct (decide (key = ""%string)) as [->|Hkey].
    { unfold JsonItem_insert. by rewrite Hb. }
    rewrite (JsonItem_insert_materialize key value force this h b) by done.
    set (a := fresh (dom h)) in *.
    destruct (JsonItem_insert_spec key value force (set_content (Some a) this)
                (<[a := Object []]> h) a {[a := Object []]} [] t)
      as (h' & hs' & -> & _); try done.
    + rewrite <- insert_empty. constructor; [done|constructor|done].
    + heap_solver.
    + by apply (tree_at_new (Object []) h).
  - rewrite (JsonItem_append_materialize value this h b) by done.
    set (a := fresh (dom h)) in *.
    pose proof (tree_at_new (Array []) h _ _ Hv) as Hv'. simpl in Hv'.
    fold a in Hv'. rewrite Hb in Hv'.
    apply tree_at_repr in Hv' as (hb & Hrb & Hsubb).
    destruct (DataItem_copy_ok _ _ _ _ Hrb Hsubb) as (b' & hc & Hcopy & Hd & Hrc).
    destruct (JsonItem_append_copied value (set_content (Some a) this)
                (<[a := Array []]> h) a {[a := Array []]} [] b b' hc t)
      as (h' & hs' & -> & _); try done.
    + apply repr_empty_array.
    + heap_solver.
  - unfold JsonItem_replaceItem. rewrite Hb. simpl.
    rewrite lookup_insert_eq. simpl. rewrite decide_False by lia. done.
Qed.

(** C9.  Copy-constructing from an invalid handle, and assigning from one,
    dereferences the null content pointer: both are undefined.  Every other
    operation is defined on an invalid handle: the accessors return their
    neutral result, the mutators return [false] for an invalid operand and
    materialise a container for a valid one. *)
Theorem C9_copy_from_invalid_is_undefined DataItem_print parser_parse deletable h :
  let invalid := {| m_content := None; m_deletable := deletable |} in
  JsonItem_ctor_copy invalid h = None ∧
  (∀ this, JsonItem_assign (RefOther invalid) this h = None) ∧
  (∀ key index copy value indent input trace,
     is_Some (JsonItem_setValue value invalid h) ∧
     is_Some (JsonItem_get_key key copy invalid h) ∧
     is_Some (JsonItem_get_index index copy invalid h) ∧
     is_Some (JsonItem_subscript_key key invalid h) ∧
     is_Some (JsonItem_subscript_index index invalid h) ∧
     is_Some (JsonItem_getString invalid h) ∧
     is_Some (JsonItem_getInt invalid h) ∧
     is_Some (JsonItem_getFloat invalid h) ∧
     is_Some (JsonItem_getSize invalid h) ∧
     is_Some (JsonItem_getKeys invalid h) ∧
     is_Some (JsonItem_contains key invalid h) ∧
     is_Some (JsonItem_isObject invalid h) ∧
     is_Some (JsonItem_isArray invalid h) ∧
     is_Some (JsonItem_isValue invalid h) ∧
     is_Some (JsonItem_remove_key key invalid h) ∧
     is_Some (JsonItem_remove_index index invalid h) ∧
     is_Some (JsonItem_print DataItem_print indent invalid h) ∧
     is_Some (JsonItem_clear invalid h) ∧
     is_Some (JsonItem_dtor invalid h) ∧
     is_Some (JsonItem_parse parser_parse input trace invalid h)) ∧
  (∀ key force index this,
     JsonItem_insert key invalid force this h = Some (h, this, false) ∧
     JsonItem_append invalid this h = Some (h, this, false) ∧
     JsonItem_replaceItem index invalid this h = Some (h, this, false)) ∧
  (∀ key force index value t,
     tree_at h (m_content value) = Some t →
     is_Some (JsonItem_insert key value force invalid h) ∧
     is_Some (JsonItem_append value invalid h) ∧
     is_Some (JsonItem_replaceItem index value invalid h)).
Proof.
  intros invalid. split_and!.
  - done.
  - intros this. unfold JsonItem_assign.
    by destruct (JsonItem_clear this h) as [[h1 this1]|].
  - intros key index copy value indent input trace.
    split_and!; try (by eexists).
    + unfold JsonItem_setValue, materialize, new. simpl.
      rewrite lookup_insert_eq. simpl. unfold DataValue_setValue.
      rewrite lookup_insert_eq. by eexists.
    + unfold JsonItem_parse. destruct (parser_parse trace input); [by eexists|].
      destruct (alloc_tree t h). by eexists.
  - intros key force index this. apply invalid_operand_guarded.
  - intros key force index value t Hv. by eapply invalid_handle_mutators.
Qed.

Lemma C9_copy_from_invalid_is_undefined_witness :
  JsonItem_ctor_copy JsonItem_ctor sample_store = None ∧
  JsonItem_assign (RefOther JsonItem_ctor) sample_item sample_store = None ∧
  is_Some (JsonItem_insert "k" sample_x false JsonItem_ctor sample_store) ∧
  is_Some (JsonItem_append sample_x JsonItem_ctor sample_store) ∧
  is_Some (JsonItem_replaceItem 0 sample_x JsonItem_ctor sample_store).
Proof.
  destruct (C9_copy_from_invalid_is_undefined sample_printer sample_parser true
              sample_store) as (Hcopy & Hassign & _ & _ & Hmut).
  split; [exact Hcopy|]. split; [exact (Hassign sample_item)|].
  apply (Hmut "k"%string false 0%N sample_x (TValue (IntValue 7))).
  vm_compute; reflexivity.
Defined.

(** C10.  On an invalid handle, [replaceItem] with a valid operand returns
    [false] and yet leaves the handle with a freshly materialised empty array
    as its content; the heap is otherwise as it was.  With an invalid operand
    [replaceItem], [insert] and [append] return [false] before anything is
    materialised: handle and heap are unchanged. *)
Theorem C10_failed_replaceItem_materialises deletable h index value b :
  let this := {| m_content := None; m_deletable := deletable |} in
  m_content value = Some b →
  (∃ h' this',
     JsonItem_replaceItem index value this h = Some (h', this', false) ∧
     JsonItem_isValid this' = true ∧
     JsonItem_isArray this' h' = Some true ∧
     JsonItem_getSize this' h' = Some 0%N ∧
     tree_at h' (m_content this') = Some (TArray []) ∧
     h ⊆ h' ∧ h' ≠ h) ∧
  (∀ d key force,
     let operand := {| m_content := None; m_deletable := d |} in
     JsonItem_replaceItem index operand this h = Some (h, this, false) ∧
     JsonItem_insert key operand force this h = Some (h, this, false) ∧
     JsonItem_append operand this h = Some (h, this, false) ∧
     JsonItem_isValid this = false).
Proof.
  intros this Hb. split; [|done].
  assert (h !! fresh (dom h) = None) as Hfresh by apply not_elem_of_dom, is_fresh.
  unfold JsonItem_replaceItem. rewrite Hb. simpl.
  set (a := fresh (dom h)) in *.
  rewrite lookup_insert_eq. simpl. rewrite decide_False by lia.
  eexists _, _. split; [done|].
  unfold JsonItem_isArray, JsonItem_isType, JsonItem_getSize, JsonItem_isValid. simpl.
  rewrite lookup_insert_eq. simpl. split_and!; try done.
  - apply tree_at_repr. exists {[a := Array []]}.
    split; [apply repr_empty_array|]. clearbody a. heap_solver.
  - clearbody a. heap_solver.
  - intros Heq. apply (f_equal (λ m : heap, m !! a)) in Heq.
    rewrite lookup_insert_eq, Hfresh in Heq. done.
Qed.

Lemma C10_failed_replaceItem_materialises_witness :
  ∃ h' this',
    JsonItem_replaceItem 0 sample_x JsonItem_ctor sample_store = Some (h', this', false) ∧
    JsonItem_isValid this' = true ∧
    JsonItem_isArray this' h' = Some true ∧
    JsonItem_getSize this' h' = Some 0%N ∧
    tree_at h' (m_content this') = Some (TArray []) ∧
    sample_store ⊆ h' ∧ h' ≠ sample_store.
Proof.
  eapply proj1.
  eapply (C10_failed_replaceItem_materialises true sample_store 0%N sample_x).
  vm_compute; reflexivity.
Defined.

(** * Further properties of the handle *)

(** ** Trees and their cells *)

Lemma tree_at_mono h h' p t :
  h ⊆ h' → tree_at h p = Some t → tree_at h' p = Some t.
Proof.
  intros Hsub Ht. destruct (tree_at_valid _ _ _ Ht) as [a ->].
  apply tree_at_repr in Ht as (hs & Hr & Hsub'). apply tree_at_repr.
  exists hs. split; [done|]. by etrans.
Qed.

Lemma repr_unique hs hs' a t t' h :
  repr hs a t → hs ⊆ h → repr hs' a t' → hs' ⊆ h → hs' = hs ∧ t' = t.
Proof.
  intros Hr Hsub Hr' Hsub'.
  pose proof (proj1 read_complete_mut _ _ _ Hr (size h) h Hsub
                (map_subseteq_size _ _ Hsub)) as H1.
  pose proof (proj1 read_complete_mut _ _ _ Hr' (size h) h Hsub'
                (map_subseteq_size _ _ Hsub')) as H2.
  rewrite H1 in H2. by simplify_eq.
Qed.

Lemma cells_at_repr h a hs :
  cells_at h (Some a) = Some hs ↔ ∃ t, repr hs a t ∧ hs ⊆ h.
Proof.
  unfold cells_at. simpl. split.
  - destruct (read (size h) a h) as [[t hs']|] eqn:Hr; intros; simplify_eq/=.
    exists t. by apply read_sound in Hr.
  - intros (t & Hr & Hsub).
    rewrite (proj1 read_complete_mut _ _ _ Hr (size h) h Hsub); [done|].
    by apply map_subseteq_size.
Qed.

Lemma cells_at_valid h p hs : cells_at h p = Some hs → ∃ a, p = Some a.
Proof. destruct p; [eauto|done]. Qed.

Lemma tree_cells_at h p t :
  tree_at h p = Some t → ∃ hs, cells_at h p = Some hs.
Proof.
  intros Ht. destruct (tree_at_valid _ _ _ Ht) as [a ->].
  apply tree_at_repr in Ht as (hs & Hr & Hsub).
  exists hs. apply cells_at_repr. eauto.
Qed.

(** ** What a mutation does to the tree of its handle *)

Lemma entries_insert_false key t force es :
  (entries_insert key t force es).2 = false → (entries_insert key t force es).1 = es.
Proof.
  unfold entries_insert. destruct (find_key key es) as [[i ?]|]; [|done].
  by destruct force.
Qed.

Lemma entries_remove_false key es :
  (entries_remove key es).2 = false → (entries_remove key es).1 = es.
Proof. unfold entries_remove. by destruct (find_key key es) as [[i ?]|]. Qed.

Lemma items_remove_false i ts :
  (items_remove i ts).2 = false → (items_remove i ts).1 = ts.
Proof. unfold items_remove. by destruct (ts !! i). Qed.

Lemma mutated_same h hs a t :
  repr hs a t → hs ⊆ h → mutated h hs a t h false.
Proof. intros. exists hs, t. split_and!; try done. apply frame_refl. Qed.

Lemma JsonItem_insert_mutated key value force this h a hs t h' this' r :
  m_content this = Some a → repr hs a t → hs ⊆ h →
  JsonItem_insert key value force this h = Some (h', this', r) →
  this' = this ∧ mutated h hs a t h' r.
Proof.
  intros Hthis Hr Hsub Hop.
  pose proof (mutated_same h hs a t Hr Hsub) as Hsame.
  destruct (m_content value) as [b|] eqn:Hvalue;
    [|unfold JsonItem_insert in Hop; rewrite Hvalue in Hop; by simplify_eq].
  destruct (decide (key = ""%string)) as [Hkey|Hkey];
    [unfold JsonItem_insert in Hop; rewrite Hvalue, decide_True in Hop by done;
     by simplify_eq|].
  destruct (repr_cell _ _ _ _ Hr Hsub) as (c & Hc & Hty).
  destruct t as [v|es|ts].
  - unfold JsonItem_insert in Hop.
    rewrite Hvalue, decide_False, (materialize_valid _ _ _ _ Hthis) in Hop by done.
    rewrite Hc in Hop. subst c. simpl in Hop. by simplify_eq.
  - destruct (DataItem_copy b h) as [[h2 b']|] eqn:Hcopy.
    + destruct (DataItem_copy_frame _ _ _ _ Hcopy) as (hc & tc & -> & Hd & Hrc).
      destruct (JsonItem_insert_copied key value force this h a hs es b b' hc tc)
        as (h'' & hs' & Heq & Hr' & Hsub' & Hfr); try done.
      rewrite Heq in Hop. simplify_eq. split; [done|].
      eexists _, _. split_and!; try done.
      intros Hf. by rewrite (entries_insert_false _ _ _ _ Hf).
    + unfold JsonItem_insert in Hop.
      rewrite Hvalue, decide_False, (materialize_valid _ _ _ _ Hthis) in Hop by done.
      rewrite Hc in Hop. simpl in Hop. rewrite decide_True, Hcopy in Hop by done. done.
  - unfold JsonItem_insert in Hop.
    rewrite Hvalue, decide_False, (materialize_valid _ _ _ _ Hthis) in Hop by done.
    rewrite Hc in Hop. simpl in Hop. rewrite decide_False in Hop by (by rewrite Hty).
    by simplify_eq.
Qed.

Lemma JsonItem_append_mutated value this h a hs t h' this' r :
  m_content this = Some a → repr hs a t → hs ⊆ h →
  JsonItem_append value this h = Some (h', this', r) →
  this' = this ∧ mutated h hs a t h' r.
Proof.
  intros Hthis Hr Hsub Hop.
  pose proof (mutated_same h hs a t Hr Hsub) as Hsame.
  destruct (m_content value) as [b|] eqn:Hvalue;
    [|unfold JsonItem_append in Hop; rewrite Hvalue in Hop; by simplify_eq].
  destruct (repr_cell _ _ _ _ Hr Hsub) as (c & Hc & Hty).
  destruct t as [v|es|ts].
  - unfold JsonItem_append in Hop.
    rewrite Hvalue, (materialize_valid _ _ _ _ Hthis) in Hop.
    rewrite Hc in Hop. subst c. simpl in Hop. by simplify_eq.
  - unfold JsonItem_append in Hop.
    rewrite Hvalue, (materialize_valid _ _ _ _ Hthis) in Hop.
    rewrite Hc in Hop. simpl in Hop. rewrite decide_False in Hop by (by rewrite Hty).
    by simplify_eq.
  - destruct (DataItem_copy b h) as [[h2 b']|] eqn:Hcopy.
    + destruct (DataItem_copy_frame _ _ _ _ Hcopy) as (hc & tc & -> & Hd & Hrc).
      destruct (JsonItem_append_copied value this h a hs ts b b' hc tc)
        as (h'' & hs' & Heq & Hr' & Hsub' & Hfr); try done.
      rewrite Heq in Hop. simplify_eq. split; [done|].
      eexists _, _. split_and!; done.
    + unfold JsonItem_append in Hop.
      rewrite Hvalue, (materialize_valid _ _ _ _ Hthis) in Hop.
      rewrite Hc in Hop. simpl in Hop. rewrite decide_True, Hcopy in Hop by done. done.
Qed.

Lemma JsonItem_replaceItem_mutated index value this h a hs t h' this' r :
  m_content this = Some a → repr hs a t → hs ⊆ h →
  JsonItem_replaceItem index value this h = Some (h', this', r) →
  this' = this ∧ mutated h hs a t h' r.
Proof.
  intros Hthis Hr Hsub Hop.
  pose proof (mutated_same h hs a t Hr Hsub) as Hsame.
  destruct (m_content value) as [b|] eqn:Hvalue;
    [|unfold JsonItem_replaceItem in Hop; rewrite Hvalue in Hop; by simplify_eq].
  destruct t as [v|es|ts].
  - destruct (repr_cell _ _ _ _ Hr Hsub) as (c & Hc & ->).
    unfold JsonItem_replaceItem in Hop.
    rewrite Hvalue, (materialize_valid _ _ _ _ Hthis), Hc in Hop.
    simpl in Hop. by simplify_eq.
  - pose proof Hr as (m & hs0 & -> & Hk & Hrs & Ha)%repr_Object_inv.
    unfold JsonItem_replaceItem in Hop.
    rewrite Hvalue, (materialize_valid _ _ _ _ Hthis) in Hop.
    assert (h !! a = Some (Object m)) as Hc by heap_solver. rewrite Hc in Hop.
    simpl in Hop. by simplify_eq.
  - destruct (decide (N.to_nat index < length ts)) as [Hi|Hi].
    + destruct (DataItem_copy b h) as [[h2 b']|] eqn:Hcopy.
      * destruct (DataItem_copy_frame _ _ _ _ Hcopy) as (hc & tc & -> & Hd & Hrc).
        destruct (JsonItem_replaceItem_copied index value this h a hs ts b b' hc tc)
          as (h'' & hs' & Heq & Hr' & Hsub' & Hfr); try done.
        rewrite Heq in Hop. simplify_eq. split; [done|].
        eexists _, _. split_and!; done.
      * pose proof Hr as (l & hs0 & -> & Hrs & Ha)%repr_Array_inv.
        pose proof (reprs_length _ _ _ Hrs) as Hlen.
        unfold JsonItem_replaceItem in Hop.
        rewrite Hvalue, (materialize_valid _ _ _ _ Hthis) in Hop.
        assert (h !! a = Some (Array l)) as Hc by heap_solver. rewrite Hc in Hop.
        simpl in Hop. rewrite decide_True, Hcopy in Hop by lia. done.
    + rewrite (JsonItem_replaceItem_out_of_range index value this h a hs ts) in Hop;
        [|done|done|done|lia].
      by simplify_eq.
Qed.

Lemma mutate_mutated m this h a hs t h' this' r :
  m_content this = Some a → repr hs a t → hs ⊆ h →
  mutate m this h = Some (h', this', r) →
  this' = this ∧ mutated h hs a t h' r.
Proof.
  intros Hthis Hr Hsub Hop. destruct m; simpl in Hop.
  - by eapply JsonItem_insert_mutated.
  - by eapply JsonItem_append_mutated.
  - by eapply JsonItem_replaceItem_mutated.
  - destruct (JsonItem_setValue_spec value this h a hs t)
      as (h'' & hs' & t' & r' & Heq & Hr' & Hsub' & Hfr & Hres); try done.
    rewrite Heq in Hop. simplify_eq. split; [done|].
    exists hs', t'. split_and!; try done.
    + destruct t; [by destruct Hres as [-> _]|by destruct Hres as [-> _]..].
    + intros ->. destruct t; [by destruct Hres|by destruct Hres as [-> _]..].
  - destruct (JsonItem_remove_key_spec key this h a hs t)
      as (h'' & hs' & t' & r' & Heq & Hr' & Hsub' & Hfr & Hres); try done.
    rewrite Heq in Hop. simplify_eq. split; [done|].
    exists hs', t'. split_and!; try done.
    + destruct t; [by destruct Hres as [-> _]|by destruct Hres as [-> _]..].
    + intros ->. destruct t as [v|es|ts]; [by destruct Hres as [-> _]| |by destruct Hres as [-> _]].
      destruct Hres as [-> Hf]. by rewrite entries_remove_false.
  - destruct (JsonItem_remove_index_spec index this h a hs t)
      as (h'' & hs' & t' & r' & Heq & Hr' & Hsub' & Hfr & Hres); try done.
    rewrite Heq in Hop. simplify_eq. split; [done|].
    exists hs', t'. split_and!; try done.
    + destruct t; [by destruct Hres as [-> _]|by destruct Hres as [-> _]..].
    + intros ->. destruct t as [v|es|ts]; [by destruct Hres as [-> _]..|].
      destruct Hres as [-> Hf]. by rewrite items_remove_false.
Qed.

(** X1.  On a handle that holds a tree, every mutating call ([insert],
    [append], [replaceItem], [setValue], [remove]) that returns leaves the
    handle itself as it was and leaves it holding a tree of the same variant;
    a call that returns [false] leaves the tree exactly as it was. *)
Theorem mutation_keeps_variant this h t m h' this' r :
  tree_at h (m_content this) = Some t →
  mutate m this h = Some (h', this', r) →
  this' = this ∧
  ∃ t', tree_at h' (m_content this) = Some t' ∧
        tree_kind t' = tree_kind t ∧ (r = false → t' = t).
Proof.
  intros Ht Hop. destruct (tree_at_valid _ _ _ Ht) as [a Ha]. rewrite Ha in *.
  apply tree_at_repr in Ht as (hs & Hr & Hsub).
  destruct (mutate_mutated _ _ _ _ _ _ _ _ _ Ha Hr Hsub Hop)
    as (-> & hs' & t' & Hr' & Hsub' & _ & Hkind & Hfalse).
  split; [done|]. exists t'. split_and!; try done. apply tree_at_repr. eauto.
Qed.

Lemma mutation_keeps_variant_witness :
  ∃ h',
    mutate (MInsert "name" sample_x false) sample_item sample_store
      = Some (h', sample_item, false) ∧
    ∃ t', tree_at h' (m_content sample_item) = Some t' ∧
          tree_kind t' = tree_kind sample_tree ∧ (false = false → t' = sample_tree).
Proof.
  eexists. split; [vm_compute; reflexivity|].
  eapply (mutation_keeps_variant sample_item sample_store sample_tree
            (MInsert "name" sample_x false)); vm_compute; reflexivity.
Defined.

Lemma find_key_not_elem {A} key (m : list (string * A)) :
  key ∉ m.*1 → find_key key m = None.
Proof.
  intros Hkey. apply list_find_None, Forall_forall. intros [k c] Hin Hk.
  simpl in Hk. subst k. apply Hkey, list_elem_of_fmap. by exists (key, c).
Qed.

Lemma repr_empty_object a : repr {[a := Object []]} a (TObject []).
Proof. rewrite <- insert_empty. constructor; [done|constructor|done]. Qed.

(** ** Calls that neither leak nor free anything else *)

Lemma JsonItem_dtor_owned this h a hs t :
  m_content this = Some a → m_deletable this = true → repr hs a t → hs ⊆ h →
  JsonItem_dtor this h = Some (h ∖ hs).
Proof.
  intros Ha Hdel Hr Hsub. unfold JsonItem_dtor, JsonItem_clear.
  by rewrite Ha, Hdel, (DataItem_delete_ok _ _ _ _ Hr Hsub).
Qed.

(** [append] on an array: the cells outside the tree of the handle are
    exactly those from before. *)
Lemma JsonItem_append_exact value this h a hs ts tv :
  m_content this = Some a → repr hs a (TArray ts) → hs ⊆ h →
  tree_at h (m_content value) = Some tv →
  ∃ h' hs',
    JsonItem_append value this h = Some (h', this, true) ∧
    repr hs' a (TArray (ts ++ [tv])) ∧ hs' ⊆ h' ∧ h' ∖ hs' = h ∖ hs.
Proof.
  intros Hthis Hr Hsub Hv.
  destruct (tree_at_valid _ _ _ Hv) as [b Hb]. rewrite Hb in Hv.
  apply tree_at_repr in Hv as (hb & Hrb & Hsubb).
  destruct (DataItem_copy_ok _ _ _ _ Hrb Hsubb) as (b' & hc & Hcopy & Hd & Hrc).
  unfold JsonItem_append. rewrite Hb, (materialize_valid _ _ _ _ Hthis).
  apply repr_Array_inv in Hr as (l & hs0 & -> & Hrs & Ha).
  assert (h !! a = Some (Array l)) as Hc by heap_solver. rewrite Hc. simpl.
  rewrite Hcopy. simpl. unfold DataArray_append.
  assert ((h ∪ hc) !! a = Some (Array l)) as -> by heap_solver. simpl.
  assert (hc !! a = None) as Hca by heap_solver.
  eexists _, (<[a := Array (l ++ [b'])]> (hs0 ∪ hc)). split; [done|]. split_and!.
  - constructor; [|heap_solver]. apply reprs_snoc; [done|done|heap_solver].
  - heap_solver.
  - heap_solver.
Qed.

(** [insert] of a key that the object does not have yet. *)
Lemma JsonItem_insert_exact key value force this h a hs es tv :
  m_content this = Some a → repr hs a (TObject es) → hs ⊆ h →
  tree_at h (m_content value) = Some tv → key ≠ ""%string → key ∉ es.*1 →
  ∃ h' hs',
    JsonItem_insert key value force this h = Some (h', this, true) ∧
    repr hs' a (TObject (es ++ [(key, tv)])) ∧ hs' ⊆ h' ∧ h' ∖ hs' = h ∖ hs.
Proof.
  intros Hthis Hr Hsub Hv Hkey Hnew.
  destruct (tree_at_valid _ _ _ Hv) as [b Hb]. rewrite Hb in Hv.
  apply tree_at_repr in Hv as (hb & Hrb & Hsubb).
  destruct (DataItem_copy_ok _ _ _ _ Hrb Hsubb) as (b' & hc & Hcopy & Hd & Hrc).
  unfold JsonItem_insert.
  rewrite Hb, decide_False, (materialize_valid _ _ _ _ Hthis) by done.
  apply repr_Object_inv in Hr as (m & hs0 & -> & Hk & Hrs & Ha).
  assert (h !! a = Some (Object m)) as Hc by heap_solver. rewrite Hc. simpl.
  rewrite Hcopy. simpl. unfold DataObject_insert.
  assert ((h ∪ hc) !! a = Some (Object m)) as -> by heap_solver. simpl.
  rewrite find_key_not_elem by (by rewrite Hk). simpl.
  assert (hc !! a = None) as Hca by heap_solver.
  eexists _, (<[a := Object (m ++ [(key, b')])]> (hs0 ∪ hc)). split; [done|].
  split_and!.
  - constructor.
    + by rewrite !fmap_app, Hk.
    + rewrite !fmap_app. simpl. apply reprs_snoc; [done|done|heap_solver].
    + heap_solver.
  - heap_solver.
  - heap_solver.
Qed.

(** ** The collection constructors *)

(** The loop of the vector constructor.  The elements live in the part of
    the heap outside the container, which stays as it is. *)
Lemma append_each_spec value :
  ∀ this h a hs ts,
    m_content this = Some a → repr hs a (TArray ts) → hs ⊆ h →
    Forall (usable (h ∖ hs)) value →
    ∃ h' hs',
      append_each value this h = Some (h', this) ∧
      repr hs' a (TArray (ts ++ omap (λ v, tree_at (h ∖ hs) (m_content v)) value)) ∧
      hs' ⊆ h' ∧ h' ∖ hs' = h ∖ hs.
Proof.
  induction value as [|v value IH]; intros this h a hs ts Hthis Hr Hsub Hok; simpl.
  - exists h, hs. by rewrite app_nil_r.
  - apply Forall_cons in Hok as [[Hnone|[tv Hv]] Hok].
    + unfold JsonItem_append at 1. rewrite Hnone. simpl.
      destruct (IH this h a hs ts) as (h' & hs' & -> & Hr' & ?); try done.
      exists h', hs'. split; [done|]. by split.
    + assert (h ∖ hs ⊆ h) as Hout by heap_solver.
      pose proof (tree_at_mono _ _ _ _ Hout Hv) as Hv'.
      destruct (JsonItem_append_exact v this h a hs ts tv Hthis Hr Hsub Hv')
        as (h1 & hs1 & -> & Hr1 & Hsub1 & Hex). simpl.
      rewrite <- Hex in Hok.
      destruct (IH this h1 a hs1 (ts ++ [tv]) Hthis Hr1 Hsub1 Hok)
        as (h' & hs' & -> & Hr' & Hsub' & Hex').
      exists h', hs'. split; [done|]. rewrite Hv. simpl.
      rewrite <- app_assoc, Hex in Hr'. split_and!; try done. congruence.
Qed.

(** X2.  The vector constructor builds an owning handle on an array that
    holds, in order, a deep copy of every valid element; invalid elements are
    dropped without notice.  Everything that was on the heap stays as it was,
    and destroying the new handle gives back exactly the heap from before
    the construction: nothing leaks. *)
Theorem JsonItem_ctor_vector_spec value h :
  Forall (usable h) value →
  ∃ h' this,
    JsonItem_ctor_vector value h = Some (h', this) ∧
    tree_at h' (m_content this)
      = Some (TArray (omap (λ v, tree_at h (m_content v)) value)) ∧
    m_deletable this = true ∧
    h ⊆ h' ∧
    JsonItem_dtor this h' = Some h.
Proof.
  intros Hok. unfold JsonItem_ctor_vector. simpl.
  assert (h !! fresh (dom h) = None) as Hfresh by apply not_elem_of_dom, is_fresh.
  set (a := fresh (dom h)) in *. clearbody a.
  assert (<[a := Array []]> h ∖ {[a := Array []]} = h) as Hout by heap_solver.
  destruct (append_each_spec value (set_content (Some a) JsonItem_members)
              (<[a := Array []]> h) a {[a := Array []]} [])
    as (h' & hs' & -> & Hr' & Hsub' & Hex); try done.
  - apply repr_empty_array.
  - heap_solver.
  - by rewrite Hout.
  - rewrite Hout in Hr', Hex. eexists _, _. split; [done|]. split_and!; try done.
    + apply tree_at_repr. eauto.
    + rewrite <- Hex. heap_solver.
    + rewrite (JsonItem_dtor_owned (set_content (Some a) JsonItem_members) h' a hs' _
                 eq_refl eq_refl Hr' Hsub').
      by rewrite Hex.
Qed.

Lemma JsonItem_ctor_vector_spec_witness :
  ∃ h' this,
    JsonItem_ctor_vector [sample_x; JsonItem_ctor; sample_item; sample_y] sample_store
      = Some (h', this) ∧
    tree_at h' (m_content this)
      = Some (TArray [TValue (IntValue 7); sample_tree; TValue (StringValue "hi")]) ∧
    m_deletable this = true ∧
    sample_store ⊆ h' ∧
    JsonItem_dtor this h' = Some sample_store.
Proof.
  apply (JsonItem_ctor_vector_spec [sample_x; JsonItem_ctor; sample_item; sample_y]
           sample_store).
  repeat first
    [ apply Forall_nil_2
    | apply Forall_cons_2;
      [first [by left | right; eexists; vm_compute; reflexivity]|] ].
Defined.

(** The loop of the map constructor. *)
Lemma insert_each_spec value :
  ∀ this h a hs es,
    m_content this = Some a → repr hs a (TObject es) → hs ⊆ h →
    Forall (λ it, usable (h ∖ hs) it.2) value →
    NoDup value.*1 → (∀ k, k ∈ value.*1 → k ∉ es.*1) →
    ∃ h' hs',
      insert_each value this h = Some (h', this) ∧
      repr hs' a (TObject (es ++ omap (kept_entry (h ∖ hs)) value)) ∧
      hs' ⊆ h' ∧ h' ∖ hs' = h ∖ hs.
Proof.
  induction value as [|[k v] value IH];
    intros this h a hs es Hthis Hr Hsub Hok Hnd Hnew; simpl.
  - exists h, hs. by rewrite app_nil_r.
  - apply Forall_cons in Hok as [Hv Hok]. simpl in Hv, Hnd.
    apply NoDup_cons in Hnd as [Hk Hnd].
    assert (∀ k', k' ∈ value.*1 → k' ∉ es.*1) as Hnew'.
    { intros k' Hin. apply Hnew. simpl. by right. }
    assert (kept_entry (h ∖ hs) (k, v) = None →
            JsonItem_insert k v false this h = Some (h, this, false)) as Hskip.
    { unfold kept_entry, JsonItem_insert. simpl.
      destruct (m_content v) as [b|] eqn:Hb; [|done].
      case_decide; [done|]. intros Hnone.
      destruct Hv as [?|[tv Hv]]; [congruence|]. rewrite Hb in Hv.
      by rewrite Hv in Hnone. }
    destruct (kept_entry (h ∖ hs) (k, v)) as [[k' tv0]|] eqn:Hkept.
    + unfold kept_entry in Hkept. simpl in Hkept.
      case_decide as Hkey; [done|].
      destruct (tree_at (h ∖ hs) (m_content v)) as [tv|] eqn:Htv; [|done].
      simpl in Hkept. injection Hkept as <- <-.
      assert (h ∖ hs ⊆ h) as Hout by heap_solver.
      pose proof (tree_at_mono _ _ _ _ Hout Htv) as Htv'.
      destruct (JsonItem_insert_exact k v false this h a hs es tv)
        as (h1 & hs1 & -> & Hr1 & Hsub1 & Hex); try done.
      { apply Hnew. simpl. by left. }
      simpl. rewrite <- Hex in Hok.
      destruct (IH this h1 a hs1 (es ++ [(k, tv)]) Hthis Hr1 Hsub1 Hok Hnd)
        as (h' & hs' & -> & Hr' & Hsub' & Hex').
      { intros k' Hin. rewrite fmap_app. simpl. intros [?|Hin']%elem_of_app.
        - by eapply Hnew'.
        - apply list_elem_of_singleton in Hin' as ->. done. }
      exists h', hs'. split; [done|].
      rewrite <- app_assoc, Hex in Hr'. split_and!; try done. congruence.
    + rewrite Hskip by done. simpl.
      destruct (IH this h a hs es) as (h' & hs' & -> & Hr' & ?); try done.
      by exists h', hs'.
Qed.

(** X3.  The map constructor, given the pairs of a map in iteration order
    (its keys are pairwise different), builds an owning handle on an object
    that holds, in that order, a deep copy of the value of every pair with a
    non-empty key and a valid handle; the other pairs are dropped without
    notice.  Everything that was on the heap stays as it was, and destroying
    the new handle gives back exactly the heap from before the
    construction. *)
Theorem JsonItem_ctor_map_spec value h :
  NoDup value.*1 →
  Forall (λ it, usable h it.2) value →
  ∃ h' this,
    JsonItem_ctor_map value h = Some (h', this) ∧
    tree_at h' (m_content this) = Some (TObject (omap (kept_entry h) value)) ∧
    m_deletable this = true ∧
    h ⊆ h' ∧
    JsonItem_dtor this h' = Some h.
Proof.
  intros Hnd Hok. unfold JsonItem_ctor_map. simpl.
  assert (h !! fresh (dom h) = None) as Hfresh by apply not_elem_of_dom, is_fresh.
  set (a := fresh (dom h)) in *. clearbody a.
  assert (<[a := Object []]> h ∖ {[a := Object []]} = h) as Hout by heap_solver.
  destruct (insert_each_spec value (set_content (Some a) JsonItem_members)
              (<[a := Object []]> h) a {[a := Object []]} [])
    as (h' & hs' & -> & Hr' & Hsub' & Hex); try done.
  - apply repr_empty_object.
  - heap_solver.
  - by rewrite Hout.
  - intros k _. simpl. apply not_elem_of_nil.
  - rewrite Hout in Hr', Hex. eexists _, _. split; [done|]. split_and!; try done.
    + apply tree_at_repr. eauto.
    + rewrite <- Hex. heap_solver.
    + rewrite (JsonItem_dtor_owned (set_content (Some a) JsonItem_members) h' a hs' _
                 eq_refl eq_refl Hr' Hsub').
      by rewrite Hex.
Qed.

Lemma JsonItem_ctor_map_spec_witness :
  ∃ h' this,
    JsonItem_ctor_map [("", sample_x); ("a", sample_x); ("b", JsonItem_ctor);
                       ("c", sample_item)] sample_store
      = Some (h', this) ∧
    tree_at h' (m_content this)
      = Some (TObject [("a", TValue (IntValue 7)); ("c", sample_tree)]) ∧
    m_deletable this = true ∧
    sample_store ⊆ h' ∧
    JsonItem_dtor this h' = Some sample_store.
Proof.
  apply (JsonItem_ctor_map_spec
           [(""%string, sample_x); ("a"%string, sample_x); ("b"%string, JsonItem_ctor);
            ("c"%string, sample_item)] sample_store).
  - apply (bool_decide_unpack _). vm_compute. exact I.
  - repeat first
      [ apply Forall_nil_2
      | apply Forall_cons_2;
        [first [by left | right; eexists; vm_compute; reflexivity]|] ].
Defined.

(** ** Ownership round trips *)

(** X4.  Copy-constructing from a handle that holds a tree and then
    destroying the copy gives back exactly the heap from before: the copy
    owns all the cells it allocated and nothing else. *)
Theorem copy_then_destroy T h t :
  tree_at h (m_content T) = Some t →
  ∃ h1 T2,
    JsonItem_ctor_copy T h = Some (h1, T2) ∧
    m_deletable T2 = true ∧
    JsonItem_dtor T2 h1 = Some h.
Proof.
  intros Ht. destruct (tree_at_valid _ _ _ Ht) as [a Ha]. rewrite Ha in Ht.
  apply tree_at_repr in Ht as (hs & Hr & Hsub).
  destruct (DataItem_copy_ok _ _ _ _ Hr Hsub) as (a' & hs' & Hcopy & Hd & Hr').
  unfold JsonItem_ctor_copy. rewrite Ha. simpl. rewrite Hcopy. simpl.
  eexists _, _. split; [done|]. split; [done|].
  rewrite (JsonItem_dtor_owned (set_content (Some a') JsonItem_members)
             (h ∪ hs') a' hs' t eq_refl eq_refl Hr'); [|heap_solver].
  f_equal. heap_solver.
Qed.

Lemma copy_then_destroy_witness :
  ∃ h1 T2,
    JsonItem_ctor_copy sample_item sample_store = Some (h1, T2) ∧
    m_deletable T2 = true ∧
    JsonItem_dtor T2 h1 = Some sample_store.
Proof.
  apply (copy_then_destroy sample_item sample_store sample_tree).
  vm_compute; reflexivity.
Defined.

(** X5.  A handle constructed from a string, an [int] or a [float] owns a
    scalar with that value: the getter of the matching sub-kind returns the
    value and the two others return their default, what was on the heap stays
    as it was, and destroying the handle gives back the heap from before. *)
Theorem scalar_ctor_round_trip value h :
  ∃ h' this,
    JsonItem_ctor_value value h = (h', this) ∧
    tree_at h' (m_content this) = Some (TValue value) ∧
    JsonItem_getString this h'
      = Some (match value with StringValue s => s | _ => ""%string end) ∧
    JsonItem_getInt this h' = Some (match value with IntValue i => i | _ => 0%Z end) ∧
    JsonItem_getFloat this h'
      = Some (match value with FloatValue f => f | _ => float_zero end) ∧
    h ⊆ h' ∧
    JsonItem_dtor this h' = Some h.
Proof.
  unfold JsonItem_ctor_value. simpl.
  assert (h !! fresh (dom h) = None) as Hfresh by apply not_elem_of_dom, is_fresh.
  set (a := fresh (dom h)) in *. clearbody a.
  eexists _, _. split; [done|].
  assert (repr {[a := Value value]} a (TValue value)) as Hr by constructor.
  assert ({[a := Value value]} ⊆ <[a := Value value]> h) as Hsub by heap_solver.
  unfold JsonItem_getString, JsonItem_getInt, JsonItem_getFloat. simpl.
  rewrite lookup_insert_eq. simpl. split_and!.
  - apply tree_at_repr. eauto.
  - by destruct value.
  - by destruct value.
  - by destruct value.
  - heap_solver.
  - rewrite (JsonItem_dtor_owned (set_content (Some a) JsonItem_members)
               (<[a := Value value]> h) a _ _ eq_refl eq_refl Hr Hsub).
    f_equal. heap_solver.
Qed.

(** ** Views and copies of children *)

(** The child under a key of an owned object, with the cells of the object
    split into the child's and the rest. *)
Lemma object_child hs a es key i tc :
  repr hs a (TObject es) → find_key key es = Some (i, (key, tc)) →
  ∃ m c hc hr,
    hs = <[a := Object m]> (hc ∪ hr) ∧ hc ##ₘ hr ∧ (hc ∪ hr) !! a = None ∧
    DataItem_get_key key (Object m) = Some c ∧ repr hc c tc ∧
    ∀ hc' tc', repr hc' c tc' → hc' ##ₘ hr → hc' !! a = None →
      repr (<[a := Object m]> (hc' ∪ hr)) a (TObject (<[i := (key, tc')]> es)).
Proof.
  intros (m & hs0 & -> & Hk & Hrs & Ha)%repr_Object_inv Hf.
  destruct (find_key_Some key es m i key tc (eq_sym Hk) Hf) as (_ & Hei & c & Hm & Hmi).
  assert (m.*2 !! i = Some c) as Hc by (by rewrite list_lookup_fmap, Hmi).
  destruct (reprs_focus _ _ _ _ _ Hrs Hc) as (hc & hr & t' & Ht' & Hrc & -> & Hd & _ & Hrepl).
  rewrite list_lookup_fmap, Hei in Ht'. simplify_eq/=.
  exists m, c, hc, hr. split_and!; try done.
  - by rewrite Hm.
  - intros hc' tc' Hr' Hd' Ha'. constructor.
    + rewrite list_fmap_insert. simpl. rewrite list_insert_id; [done|].
      by rewrite list_lookup_fmap, Hei.
    + rewrite list_fmap_insert. simpl.
      rewrite <- (list_insert_id m.*2 i c) by done. by apply Hrepl.
    + heap_solver.
Qed.

Lemma array_child hs a ts i tc :
  repr hs a (TArray ts) → ts !! i = Some tc →
  ∃ l c hc hr,
    hs = <[a := Array l]> (hc ∪ hr) ∧ hc ##ₘ hr ∧ (hc ∪ hr) !! a = None ∧
    l !! i = Some c ∧ repr hc c tc ∧
    ∀ hc' tc', repr hc' c tc' → hc' ##ₘ hr → hc' !! a = None →
      repr (<[a := Array l]> (hc' ∪ hr)) a (TArray (<[i := tc']> ts)).
Proof.
  intros (l & hs0 & -> & Hrs & Ha)%repr_Array_inv Hi.
  destruct (lookup_lt_is_Some_2 l i) as [c Hc].
  { rewrite (reprs_length _ _ _ Hrs). by eapply lookup_lt_Some. }
  destruct (reprs_focus _ _ _ _ _ Hrs Hc) as (hc & hr & t' & Ht' & Hrc & -> & Hd & _ & Hrepl).
  simplify_eq. exists l, c, hc, hr. split_and!; try done.
  intros hc' tc' Hr' Hd' Ha'. constructor; [|heap_solver].
  rewrite <- (list_insert_id l i c) by done. by apply Hrepl.
Qed.

(** A mutation through a view of a child writes into the tree of the
    parent: the cells of the parent around the child are kept. *)
Lemma view_mutated h a c hc hr tc h' r (cell : DataItem) (t' : tree → tree) :
  <[a := cell]> (hc ∪ hr) ⊆ h → hc ##ₘ hr → (hc ∪ hr) !! a = None →
  mutated h hc c tc h' r →
  (∀ hc' tc', repr hc' c tc' → hc' ##ₘ hr → hc' !! a = None →
     repr (<[a := cell]> (hc' ∪ hr)) a (t' tc')) →
  ∃ tc', tree_at h' (Some c) = Some tc' ∧ tree_at h' (Some a) = Some (t' tc') ∧
         tree_kind tc' = tree_kind tc ∧ (r = false → tc' = tc).
Proof.
  intros Hsub Hd Ha (hc' & tc' & Hr' & Hsub' & [Hf1 Hf2] & Hkind & Hfalse) Hrepl.
  exists tc'. split_and!; try done.
  - apply tree_at_repr. eauto.
  - apply tree_at_repr. exists (<[a := cell]> (hc' ∪ hr)). split.
    + apply Hrepl; [done|heap_solver|].
      destruct (hc' !! a) eqn:Hca; [|done]. exfalso. clear Hrepl Hr'. heap_at a.
    + clear Hrepl Hr'. heap_solver.
Qed.

(** X6.  [get(key, false)] on a handle that holds an object returns, without
    touching the heap, a non-owning view of the child under the key: it holds
    the child's tree and its destructor frees nothing.  Every mutation through
    the view writes into the parent: afterwards the parent holds its old tree
    with the child's new tree under the key. *)
Theorem view_of_entry_aliases_parent this h es key i tc :
  tree_at h (m_content this) = Some (TObject es) →
  find_key key es = Some (i, (key, tc)) →
  ∃ v,
    JsonItem_get_key key false this h = Some (h, v) ∧
    m_deletable v = false ∧
    tree_at h (m_content v) = Some tc ∧
    JsonItem_dtor v h = Some h ∧
    ∀ m h' v' r, mutate m v h = Some (h', v', r) →
      v' = v ∧
      ∃ tc', tree_at h' (m_content v) = Some tc' ∧
             tree_at h' (m_content this) = Some (TObject (<[i := (key, tc')]> es)) ∧
             tree_kind tc' = tree_kind tc ∧ (r = false → tc' = tc).
Proof.
  intros Ht Hf. destruct (tree_at_valid _ _ _ Ht) as [a Ha]. rewrite Ha in *.
  apply tree_at_repr in Ht as (hs & Hr & Hsub).
  destruct (object_child _ _ _ _ _ _ Hr Hf)
    as (m & c & hc & hr & -> & Hd & Hnone & Hget & Hrc & Hrepl).
  assert (h !! a = Some (Object m)) as Hcell by heap_solver.
  assert (hc ⊆ h) as Hsubc by heap_solver.
  unfold JsonItem_get_key. rewrite Ha, Hcell. simpl DataItem_get_key in *.
  simpl. rewrite Hget. simpl.
  eexists. split; [done|]. simpl. split_and!; try done.
  - apply tree_at_repr. eauto.
  - intros mu h' v' r Hmu.
    destruct (mutate_mutated mu {| m_content := Some c; m_deletable := false |}
                h c hc tc h' v' r eq_refl Hrc Hsubc Hmu) as [-> Hmut].
    split; [done|].
    by apply (view_mutated h a c hc hr tc h' r (Object m)
                (λ tc', TObject (<[i := (key, tc')]> es))).
Qed.

Lemma view_of_entry_aliases_parent_witness :
  ∃ v,
    JsonItem_get_key "count" false sample_item sample_store = Some (sample_store, v) ∧
    m_deletable v = false ∧
    tree_at sample_store (m_content v) = Some (TValue (IntValue 2)) ∧
    JsonItem_dtor v sample_store = Some sample_store ∧
    ∀ m h' v' r, mutate m v sample_store = Some (h', v', r) →
      v' = v ∧
      ∃ tc', tree_at h' (m_content v) = Some tc' ∧
             tree_at h' (m_content sample_item)
               = Some (TObject (<[2 := ("count"%string, tc')]>
                                  [("name"%string, TValue (StringValue "a"));
                                   ("tags"%string,
                                    TArray [TValue (StringValue "x");
                                            TValue (StringValue "y")]);
                                   ("count"%string, TValue (IntValue 2))])) ∧
             tree_kind tc' = tree_kind (TValue (IntValue 2)) ∧
             (r = false → tc' = TValue (IntValue 2)).
Proof.
  apply (view_of_entry_aliases_parent sample_item sample_store
           [("name"%string, TValue (StringValue "a"));
            ("tags"%string, TArray [TValue (StringValue "x"); TValue (StringValue "y")]);
            ("count"%string, TValue (IntValue 2))] "count" 2 (TValue (IntValue 2)));
    vm_compute; reflexivity.
Defined.

(** A write through a view, run on the sample document. *)
Example write_through_view :
  ∃ v h',
    JsonItem_get_key "count" false sample_item sample_store = Some (sample_store, v) ∧
    JsonItem_setValue (IntValue 3) v sample_store = Some (h', v, true) ∧
    JsonItem_get_key "count" true sample_item h' ≫= (λ r, JsonItem_getInt r.2 r.1)
      = Some 3%Z.
Proof. eexists _, _. split_and!; vm_compute; reflexivity. Qed.

(** X7.  [get(index, false)] on a handle that holds an array returns, without
    touching the heap, a non-owning view of the element at the index; every
    mutation through the view writes into the parent, which afterwards holds
    its old elements with the element's new tree at the index. *)
Theorem view_of_element_aliases_parent this h ts index tc :
  tree_at h (m_content this) = Some (TArray ts) →
  ts !! N.to_nat index = Some tc →
  ∃ v,
    JsonItem_get_index index false this h = Some (h, v) ∧
    m_deletable v = false ∧
    tree_at h (m_content v) = Some tc ∧
    JsonItem_dtor v h = Some h ∧
    ∀ m h' v' r, mutate m v h = Some (h', v', r) →
      v' = v ∧
      ∃ tc', tree_at h' (m_content v) = Some tc' ∧
             tree_at h' (m_content this) = Some (TArray (<[N.to_nat index := tc']> ts)) ∧
             tree_kind tc' = tree_kind tc ∧ (r = false → tc' = tc).
Proof.
  intros Ht Hi. destruct (tree_at_valid _ _ _ Ht) as [a Ha]. rewrite Ha in *.
  apply tree_at_repr in Ht as (hs & Hr & Hsub).
  destruct (array_child _ _ _ _ _ Hr Hi)
    as (l & c & hc & hr & -> & Hd & Hnone & Hget & Hrc & Hrepl).
  assert (h !! a = Some (Array l)) as Hcell by heap_solver.
  assert (hc ⊆ h) as Hsubc by heap_solver.
  unfold JsonItem_get_index. rewrite Ha, Hcell. simpl. rewrite Hget. simpl.
  eexists. split; [done|]. simpl. split_and!; try done.
  - apply tree_at_repr. eauto.
  - intros mu h' v' r Hmu.
    destruct (mutate_mutated mu {| m_content := Some c; m_deletable := false |}
                h c hc tc h' v' r eq_refl Hrc Hsubc Hmu) as [-> Hmut].
    split; [done|].
    by apply (view_mutated h a c hc hr tc h' r (Array l)
                (λ tc', TArray (<[N.to_nat index := tc']> ts))).
Qed.

Lemma view_of_element_aliases_parent_witness :
  ∃ h0 arr,
    JsonItem_ctor_vector [sample_x; sample_y] sample_store = Some (h0, arr) ∧
    ∃ v,
    JsonItem_get_index 1 false arr h0 = Some (h0, v) ∧
    m_deletable v = false ∧
    tree_at h0 (m_content v) = Some (TValue (StringValue "hi")) ∧
    JsonItem_dtor v h0 = Some h0 ∧
    ∀ m h' v' r, mutate m v h0 = Some (h', v', r) →
      v' = v ∧
      ∃ tc', tree_at h' (m_content v) = Some tc' ∧
             tree_at h' (m_content arr)
               = Some (TArray (<[1 := tc']> [TValue (IntValue 7);
                                            TValue (StringValue "hi")])) ∧
             tree_kind tc' = tree_kind (TValue (StringValue "hi")) ∧
             (r = false → tc' = TValue (StringValue "hi")).
Proof.
  eexists _, _. split; [vm_compute; reflexivity|].
  apply (view_of_element_aliases_parent _ _
           [TValue (IntValue 7); TValue (StringValue "hi")] 1%N
           (TValue (StringValue "hi"))); vm_compute; reflexivity.
Defined.

(** The copying form of [JsonItem(DataItem*, bool)] on a pointer that holds
    a tree. *)
Lemma JsonItem_ctor_ptr_copy h c hc tc :
  repr hc c tc → hc ⊆ h →
  ∃ h1 w,
    JsonItem_ctor_ptr (Some c) true h = Some (h1, w) ∧
    m_deletable w = true ∧
    tree_at h1 (m_content w) = Some tc ∧
    h ⊆ h1 ∧
    JsonItem_dtor w h1 = Some h ∧
    ∀ p t, tree_at h p = Some t →
      ∀ ms h' w', mutate_all ms w h1 = Some (h', w') → tree_at h' p = Some t.
Proof.
  intros Hr Hsub.
  destruct (DataItem_copy_ok _ _ _ _ Hr Hsub) as (c' & hc' & Hcopy & Hd & Hr').
  unfold JsonItem_ctor_ptr. rewrite Hcopy. simpl.
  assert (hc' ⊆ h ∪ hc') as Hsub' by heap_solver.
  eexists _, _. split; [done|]. simpl. split_and!; try done.
  - apply tree_at_repr. eauto.
  - heap_solver.
  - rewrite (JsonItem_dtor_owned (set_content (Some c') JsonItem_members)
               (h ∪ hc') c' hc' tc eq_refl eq_refl Hr' Hsub').
    f_equal. heap_solver.
  - intros p t Ht ms h' w' Hrun.
    destruct (tree_at_valid _ _ _ Ht) as [b ->].
    apply tree_at_repr in Ht as (hb & Hrb & Hsubb). apply tree_at_repr.
    exists hb. split; [done|].
    eapply (mutate_all_kept ms (set_content (Some c') JsonItem_members)
              (h ∪ hc') c' hc' tc hb); [done|done|done|heap_solver|heap_solver|done].
Qed.

(** X8.  [operator[]] (and [get] with [copy = true]) on a key of an object or
    on an index of an array returns an owning handle on a deep copy of the
    child: it holds the child's tree, what was on the heap stays as it was,
    destroying the returned handle gives back the heap from before the
    lookup, and no run of mutations of the returned handle changes the
    parent. *)
Theorem subscript_returns_independent_copy this h :
  (∀ es key i tc,
     tree_at h (m_content this) = Some (TObject es) →
     find_key key es = Some (i, (key, tc)) →
     ∃ h1 w,
       JsonItem_subscript_key key this h = Some (h1, w) ∧
       m_deletable w = true ∧
       tree_at h1 (m_content w) = Some tc ∧
       h ⊆ h1 ∧
       JsonItem_dtor w h1 = Some h ∧
       ∀ ms h' w', mutate_all ms w h1 = Some (h', w') →
         tree_at h' (m_content this) = Some (TObject es)) ∧
  (∀ ts index tc,
     tree_at h (m_content this) = Some (TArray ts) →
     ts !! N.to_nat index = Some tc →
     ∃ h1 w,
       JsonItem_subscript_index index this h = Some (h1, w) ∧
       m_deletable w = true ∧
       tree_at h1 (m_content w) = Some tc ∧
       h ⊆ h1 ∧
       JsonItem_dtor w h1 = Some h ∧
       ∀ ms h' w', mutate_all ms w h1 = Some (h', w') →
         tree_at h' (m_content this) = Some (TArray ts)).
Proof.
  split.
  - intros es key i tc Ht Hf. pose proof Ht as Ht0.
    destruct (tree_at_valid _ _ _ Ht) as [a Ha]. rewrite Ha in Ht.
    apply tree_at_repr in Ht as (hs & Hr & Hsub).
    destruct (object_child _ _ _ _ _ _ Hr Hf)
      as (m & c & hc & hr & -> & Hd & Hnone & Hget & Hrc & _).
    assert (h !! a = Some (Object m)) as Hcell by heap_solver.
    assert (hc ⊆ h) as Hsubc by heap_solver.
    destruct (JsonItem_ctor_ptr_copy h c hc tc Hrc Hsubc)
      as (h1 & w & Heq & Hdel & Hw & Hsub1 & Hdtor & Hind).
    unfold JsonItem_subscript_key, JsonItem_get_key. rewrite Ha, Hcell. simpl.
    simpl in Hget. rewrite Hget. simpl JsonItem_ctor_ptr.
    exists h1, w. split_and!; try done. intros ms h' w' Hrun.
    rewrite Ha in Ht0. exact (Hind (Some a) _ Ht0 ms h' w' Hrun).
  - intros ts index tc Ht Hi. pose proof Ht as Ht0.
    destruct (tree_at_valid _ _ _ Ht) as [a Ha]. rewrite Ha in Ht.
    apply tree_at_repr in Ht as (hs & Hr & Hsub).
    destruct (array_child _ _ _ _ _ Hr Hi)
      as (l & c & hc & hr & -> & Hd & Hnone & Hget & Hrc & _).
    assert (h !! a = Some (Array l)) as Hcell by heap_solver.
    assert (hc ⊆ h) as Hsubc by heap_solver.
    destruct (JsonItem_ctor_ptr_copy h c hc tc Hrc Hsubc)
      as (h1 & w & Heq & Hdel & Hw & Hsub1 & Hdtor & Hind).
    unfold JsonItem_subscript_index, JsonItem_get_index. rewrite Ha, Hcell. simpl.
    rewrite Hget.
    exists h1, w. split_and!; try done. intros ms h' w' Hrun.
    rewrite Ha in Ht0. exact (Hind (Some a) _ Ht0 ms h' w' Hrun).
Qed.

Lemma subscript_returns_independent_copy_witness :
  ∃ h1 w,
    JsonItem_subscript_key "tags" sample_item sample_store = Some (h1, w) ∧
    m_deletable w = true ∧
    tree_at h1 (m_content w)
      = Some (TArray [TValue (StringValue "x"); TValue (StringValue "y")]) ∧
    sample_store ⊆ h1 ∧
    JsonItem_dtor w h1 = Some sample_store ∧
    ∀ ms h' w', mutate_all ms w h1 = Some (h', w') →
      tree_at h' (m_content sample_item) = Some sample_tree.
Proof.
  destruct (subscript_returns_independent_copy sample_item sample_store) as [Hkey _].
  apply (Hkey _ "tags"%string 1
              (TArray [TValue (StringValue "x"); TValue (StringValue "y")]));
    vm_compute; reflexivity.
Defined.

(** ** Clearing and dangling views *)

(** X9.  [clear] on an owning handle frees exactly the cells of its tree
    and resets the pointer; every tree in other cells is still there; a
    second [clear] and the destructor then do nothing. *)
Theorem clear_frees_own_cells this h hs :
  cells_at h (m_content this) = Some hs →
  m_deletable this = true →
  JsonItem_clear this h = Some (h ∖ hs, set_content None this) ∧
  JsonItem_clear (set_content None this) (h ∖ hs)
    = Some (h ∖ hs, set_content None this) ∧
  JsonItem_dtor (set_content None this) (h ∖ hs) = Some (h ∖ hs) ∧
  (∀ a, is_Some (hs !! a) → (h ∖ hs) !! a = None) ∧
  (∀ p hp, cells_at h p = Some hp → hp ##ₘ hs →
     tree_at (h ∖ hs) p = tree_at h p).
Proof.
  intros Hc Hdel. destruct (cells_at_valid _ _ _ Hc) as [a Ha]. rewrite Ha in Hc.
  apply cells_at_repr in Hc as (t & Hr & Hsub).
  unfold JsonItem_dtor, JsonItem_clear. rewrite Ha, Hdel.
  rewrite (DataItem_delete_ok _ _ _ _ Hr Hsub). simpl. split_and!; try done.
  - intros b [c Hb]. rewrite lookup_difference, Hb. done.
  - intros p hp Hp Hd. destruct (cells_at_valid _ _ _ Hp) as [b ->].
    apply cells_at_repr in Hp as (tp & Hrp & Hsubp).
    assert (tree_at h (Some b) = Some tp) as -> by (apply tree_at_repr; eauto).
    apply tree_at_repr. exists hp. split; [done|]. clear Hr Hrp. heap_solver.
Qed.

Lemma clear_frees_own_cells_witness :
  ∃ hs,
    cells_at sample_store (m_content sample_item) = Some hs ∧
    JsonItem_clear sample_item sample_store
      = Some (sample_store ∖ hs, set_content None sample_item) ∧
    JsonItem_clear (set_content None sample_item) (sample_store ∖ hs)
      = Some (sample_store ∖ hs, set_content None sample_item) ∧
    JsonItem_dtor (set_content None sample_item) (sample_store ∖ hs)
      = Some (sample_store ∖ hs) ∧
    (∀ a, is_Some (hs !! a) → (sample_store ∖ hs) !! a = None) ∧
    (∀ p hp, cells_at sample_store p = Some hp → hp ##ₘ hs →
       tree_at (sample_store ∖ hs) p = tree_at sample_store p).
Proof.
  eexists. split; [vm_compute; reflexivity|].
  apply (clear_frees_own_cells sample_item sample_store); vm_compute; reflexivity.
Defined.

(** X10.  A view taken with [get(key, false)] or [get(index, false)] does not
    survive the owner: once the owning handle is cleared (or destroyed), the
    view still reports [isValid], but its content pointer dangles and every
    call that dereferences it is undefined. *)
Theorem view_dangles_after_clear this h :
  m_deletable this = true →
  (∀ es key i tc,
     tree_at h (m_content this) = Some (TObject es) →
     find_key key es = Some (i, (key, tc)) →
     ∃ v h' this',
       JsonItem_get_key key false this h = Some (h, v) ∧
       JsonItem_clear this h = Some (h', this') ∧
       JsonItem_isValid v = true ∧
       tree_at h' (m_content v) = None ∧
       JsonItem_getString v h' = None ∧
       JsonItem_getInt v h' = None ∧
       JsonItem_getSize v h' = None ∧
       JsonItem_isValue v h' = None ∧
       (∀ value, JsonItem_setValue value v h' = None) ∧
       (∀ copy, JsonItem_ctor_ptr (m_content v) true h' = None ∧
                JsonItem_get_key key copy v h' = None)) ∧
  (∀ ts index tc,
     tree_at h (m_content this) = Some (TArray ts) →
     ts !! N.to_nat index = Some tc →
     ∃ v h' this',
       JsonItem_get_index index false this h = Some (h, v) ∧
       JsonItem_clear this h = Some (h', this') ∧
       JsonItem_isValid v = true ∧
       tree_at h' (m_content v) = None ∧
       JsonItem_getString v h' = None ∧
       JsonItem_getInt v h' = None ∧
       JsonItem_getSize v h' = None ∧
       JsonItem_isValue v h' = None ∧
       (∀ value, JsonItem_setValue value v h' = None) ∧
       (∀ copy, JsonItem_ctor_ptr (m_content v) true h' = None ∧
                JsonItem_get_index index copy v h' = None)).
Proof.
  intros Hdel.
  assert (∀ c h', h' !! c = None →
            let v := {| m_content := Some c; m_deletable := false |} in
            JsonItem_isValid v = true ∧
            tree_at h' (m_content v) = None ∧
            JsonItem_getString v h' = None ∧
            JsonItem_getInt v h' = None ∧
            JsonItem_getSize v h' = None ∧
            JsonItem_isValue v h' = None ∧
            (∀ value, JsonItem_setValue value v h' = None) ∧
            (∀ key index copy,
               JsonItem_ctor_ptr (m_content v) true h' = None ∧
               JsonItem_get_key key copy v h' = None ∧
               JsonItem_get_index index copy v h' = None)) as Hdangle.
  { intros c h' Hc v.
    assert (∀ n, read n c h' = None) as Hread by (intros [|n]; simpl; [done|by rewrite Hc]).
    assert (∀ n, copy n c h' = None) as Hcopy by (intros [|n]; simpl; [done|by rewrite Hc]).
    unfold tree_at, JsonItem_getString, JsonItem_getInt, JsonItem_getSize,
      JsonItem_isValue, JsonItem_isType, JsonItem_setValue, JsonItem_get_key,
      JsonItem_get_index, JsonItem_ctor_ptr, DataItem_copy, materialize.
    simpl. rewrite Hread, Hcopy, Hc. done. }
  split.
  - intros es key i tc Ht Hf.
    destruct (tree_at_valid _ _ _ Ht) as [a Ha]. rewrite Ha in Ht.
    apply tree_at_repr in Ht as (hs & Hr & Hsub).
    destruct (object_child _ _ _ _ _ _ Hr Hf)
      as (m & c & hc & hr & Hhs & Hd & Hnone & Hget & Hrc & _).
    assert (h !! a = Some (Object m)) as Hcell by (subst hs; heap_solver).
    destruct (repr_root _ _ _ Hrc) as [cc Hcc].
    unfold JsonItem_get_key at 1, JsonItem_clear. rewrite Ha, Hcell, Hdel. simpl.
    simpl in Hget. rewrite Hget. simpl.
    rewrite (DataItem_delete_ok _ _ _ _ Hr Hsub). simpl.
    eexists _, _, _. split; [done|]. split; [done|].
    assert ((h ∖ hs) !! c = None) as Hgone.
    { subst hs. clear Hr Hrc. heap_solver. }
    destruct (Hdangle c _ Hgone) as (? & ? & ? & ? & ? & ? & ? & Hrest).
    split_and!; try done. intros copy. destruct (Hrest key 0%N copy) as (? & ? & ?).
    done.
  - intros ts index tc Ht Hi.
    destruct (tree_at_valid _ _ _ Ht) as [a Ha]. rewrite Ha in Ht.
    apply tree_at_repr in Ht as (hs & Hr & Hsub).
    destruct (array_child _ _ _ _ _ Hr Hi)
      as (l & c & hc & hr & Hhs & Hd & Hnone & Hget & Hrc & _).
    assert (h !! a = Some (Array l)) as Hcell by (subst hs; heap_solver).
    destruct (repr_root _ _ _ Hrc) as [cc Hcc].
    unfold JsonItem_get_index at 1, JsonItem_clear. rewrite Ha, Hcell, Hdel. simpl.
    rewrite Hget. simpl.
    rewrite (DataItem_delete_ok _ _ _ _ Hr Hsub). simpl.
    eexists _, _, _. split; [done|]. split; [done|].
    assert ((h ∖ hs) !! c = None) as Hgone.
    { subst hs. clear Hr Hrc. heap_solver. }
    destruct (Hdangle c _ Hgone) as (? & ? & ? & ? & ? & ? & ? & Hrest).
    split_and!; try done. intros copy. destruct (Hrest ""%string index copy) as (? & ? & ?).
    done.
Qed.

Lemma view_dangles_after_clear_witness :
  ∃ v h' this',
    JsonItem_get_key "tags" false sample_item sample_store = Some (sample_store, v) ∧
    JsonItem_clear sample_item sample_store = Some (h', this') ∧
    JsonItem_isValid v = true ∧
    tree_at h' (m_content v) = None ∧
    JsonItem_getString v h' = None ∧
    JsonItem_getInt v h' = None ∧
    JsonItem_getSize v h' = None ∧
    JsonItem_isValue v h' = None ∧
    (∀ value, JsonItem_setValue value v h' = None) ∧
    (∀ copy, JsonItem_ctor_ptr (m_content v) true h' = None ∧
             JsonItem_get_key "tags" copy v h' = None).
Proof.
  destruct (view_dangles_after_clear sample_item sample_store eq_refl) as [Hkey _].
  eapply (Hkey _ "tags"%string 1
              (TArray [TValue (StringValue "x"); TValue (StringValue "y")]));
    vm_compute; reflexivity.
Defined.

(** ** What [replaceItem] leaves behind *)

(** X11.  [replaceItem] on a valid index overwrites the slot with a deep copy
    of the operand and does not destroy the element that was there: the old
    element keeps its cells, and it keeps them even after the destructor of
    the owning handle has run, which frees the array with its current
    elements only.  The cells of the replaced element are never freed. *)
Theorem replaceItem_leaks_old_element this h ts index told value tv :
  m_deletable this = true →
  tree_at h (m_content this) = Some (TArray ts) →
  ts !! N.to_nat index = Some told →
  tree_at h (m_content value) = Some tv →
  ∃ old h' h'' hs ho,
    JsonItem_get_index index false this h = Some (h, old) ∧
    cells_at h (m_content this) = Some hs ∧
    cells_at h (m_content old) = Some ho ∧
    JsonItem_replaceItem index value this h = Some (h', this, true) ∧
    tree_at h' (m_content this) = Some (TArray (<[N.to_nat index := tv]> ts)) ∧
    tree_at h' (m_content old) = Some told ∧
    JsonItem_dtor this h' = Some h'' ∧
    h'' = h ∖ hs ∪ ho ∧
    tree_at h'' (m_content old) = Some told.
Proof.
  intros Hdel Ht Hi Hv.
  destruct (tree_at_valid _ _ _ Ht) as [a Ha]. rewrite Ha in Ht.
  apply tree_at_repr in Ht as (hs & Hr & Hsub).
  destruct (tree_at_valid _ _ _ Hv) as [b Hb]. rewrite Hb in Hv.
  apply tree_at_repr in Hv as (hb & Hrb & Hsubb).
  destruct (DataItem_copy_ok _ _ _ _ Hrb Hsubb) as (b' & hc & Hcopy & Hd & Hrc).
  pose proof Hr as (l & hs0 & Hhs & Hrs & Hnone)%repr_Array_inv.
  destruct (lookup_lt_is_Some_2 l (N.to_nat index)) as [c Hc].
  { rewrite (reprs_length _ _ _ Hrs). by eapply lookup_lt_Some. }
  destruct (reprs_focus _ _ _ _ _ Hrs Hc)
    as (ho & hr & t' & Ht' & Hro & Hhs0 & Hdo & _ & Hrepl).
  simplify_eq.
  assert (h !! a = Some (Array l)) as Hcell by heap_solver.
  assert (hc !! a = None) as Hca by heap_solver.
  set (hs' := <[a := Array (<[N.to_nat index := b']> l)]> (hc ∪ hr)).
  set (h' := <[a := Array (<[N.to_nat index := b']> l)]> (h ∪ hc)).
  assert (repr hs' a (TArray (<[N.to_nat index := tv]> ts))) as Hr'.
  { constructor; [|heap_solver]. apply Hrepl; [done|heap_solver]. }
  assert (hs' ⊆ h') as Hsub' by (subst hs' h'; heap_solver).
  assert (ho ⊆ h) as Hsubo by heap_solver.
  assert (ho ⊆ h') as Hsubo' by (subst h'; heap_solver).
  assert (h' ∖ hs' = h ∖ <[a := Array l]> (ho ∪ hr) ∪ ho) as Hleak.
  { subst hs' h'. clear Hr Hr' Hro Hrc Hrb Hrepl Hrs. heap_solver. }
  exists {| m_content := Some c; m_deletable := false |}, h', (h' ∖ hs'),
    (<[a := Array l]> (ho ∪ hr)), ho.
  split_and!.
  - unfold JsonItem_get_index. rewrite Ha, Hcell. simpl. by rewrite Hc.
  - rewrite Ha. apply cells_at_repr. eauto.
  - apply cells_at_repr. eauto.
  - unfold JsonItem_replaceItem. rewrite Hb, (materialize_valid _ _ _ _ Ha), Hcell.
    simpl. rewrite decide_True by (apply lookup_lt_Some in Hc; lia).
    rewrite Hcopy. simpl. by rewrite N2Nat.id || done.
  - rewrite Ha. apply tree_at_repr. eauto.
  - apply tree_at_repr. eauto.
  - by apply (JsonItem_dtor_owned this h' a hs' _ Ha Hdel Hr').
  - done.
  - apply tree_at_repr. exists ho. split; [done|]. rewrite Hleak.
    clear Hr Hr' Hro Hrc Hrb Hrepl Hrs Hleak. heap_solver.
Qed.

Lemma replaceItem_leaks_old_element_witness :
  ∃ h0 arr,
    JsonItem_ctor_vector [sample_x; sample_item] sample_store = Some (h0, arr) ∧
    ∃ old h' h'' hs ho,
      JsonItem_get_index 1 false arr h0 = Some (h0, old) ∧
      cells_at h0 (m_content arr) = Some hs ∧
      cells_at h0 (m_content old) = Some ho ∧
      JsonItem_replaceItem 1 sample_y arr h0 = Some (h', arr, true) ∧
      tree_at h' (m_content arr)
        = Some (TArray (<[1 := TValue (StringValue "hi")]>
                          [TValue (IntValue 7); sample_tree])) ∧
      tree_at h' (m_content old) = Some sample_tree ∧
      JsonItem_dtor arr h' = Some h'' ∧
      h'' = h0 ∖ hs ∪ ho ∧
      tree_at h'' (m_content old) = Some sample_tree.
Proof.
  eexists _, _. split; [vm_compute; reflexivity|].
  apply (replaceItem_leaks_old_element _ _ [TValue (IntValue 7); sample_tree] 1%N
           sample_tree sample_y (TValue (StringValue "hi")));
    vm_compute; reflexivity.
Defined.

(** ** Ownership after [parse] *)

(** X12.  A successful [parse] does not touch the ownership flag.  On a
    non-owning view the parsed tree is installed but never owned: the
    destructor leaves it allocated.  On an owning handle the old tree is
    freed and the parsed tree is owned: after the destructor, the heap is the
    one from before the call without the cells of the old tree. *)
Theorem parse_keeps_ownership_flag parser_parse input traceParsing this h output :
  parser_parse traceParsing input = inr output →
  (m_deletable this = false →
     ∃ h' this',
       JsonItem_parse parser_parse input traceParsing this h
         = Some (h', this', (true, ""%string)) ∧
       m_deletable this' = false ∧
       tree_at h' (m_content this') = Some output ∧
       h ⊆ h' ∧
       JsonItem_dtor this' h' = Some h') ∧
  (m_deletable this = true →
     (∀ hs, cells_at h (m_content this) = Some hs →
        ∃ h' this',
          JsonItem_parse parser_parse input traceParsing this h
            = Some (h', this', (true, ""%string)) ∧
          m_deletable this' = true ∧
          tree_at h' (m_content this') = Some output ∧
          JsonItem_dtor this' h' = Some (h ∖ hs)) ∧
     (m_content this = None →
        ∃ h' this',
          JsonItem_parse parser_parse input traceParsing this h
            = Some (h', this', (true, ""%string)) ∧
          m_deletable this' = true ∧
          tree_at h' (m_content this') = Some output ∧
          JsonItem_dtor this' h' = Some h)).
Proof.
  intros Hparse. unfold JsonItem_parse. rewrite Hparse.
  destruct (alloc_tree_ok output h) as (out & ho & -> & Hd & Hro).
  assert (ho ⊆ h ∪ ho) as Hsubo by heap_solver.
  split; [|intros Hdel; split].
  - intros Hdel. unfold JsonItem_clear. rewrite Hdel.
    assert (∃ r, match m_content this with
                 | Some _ => Some (h ∪ ho, this) | None => Some (h ∪ ho, this)
                 end = Some r ∧ r = (h ∪ ho, this)) as (r & -> & ->)
      by (destruct (m_content this); eauto).
    simpl. eexists _, _. split; [done|]. simpl. split_and!; try done.
    + apply tree_at_repr. eauto.
    + heap_solver.
    + unfold JsonItem_dtor, JsonItem_clear. simpl. by rewrite Hdel.
  - intros hs Hc. destruct (cells_at_valid _ _ _ Hc) as [a Ha]. rewrite Ha in Hc.
    apply cells_at_repr in Hc as (t & Hr & Hsub).
    unfold JsonItem_clear. rewrite Ha, Hdel.
    rewrite (DataItem_delete_ok hs a t (h ∪ ho)); [|done|heap_solver]. simpl.
    assert (hs ##ₘ ho) as Hdo by (by eapply map_disjoint_weaken_l; [symmetry; exact Hd|]).
    assert (ho ⊆ (h ∪ ho) ∖ hs) as Hsubo' by (clear Hr Hro; heap_solver).
    eexists _, _. split; [done|]. simpl. split_and!; try done.
    + apply tree_at_repr. eauto.
    + erewrite JsonItem_dtor_owned; [|reflexivity|exact Hdel|exact Hro|exact Hsubo'].
      f_equal. clear Hr Hro. heap_solver.
  - intros Hnone. unfold JsonItem_clear. rewrite Hnone. simpl.
    eexists _, _. split; [done|]. simpl. split_and!; try done.
    + apply tree_at_repr. eauto.
    + erewrite JsonItem_dtor_owned; [|reflexivity|exact Hdel|exact Hro|exact Hsubo].
      f_equal. clear Hro. heap_solver.
Qed.

Lemma parse_keeps_ownership_flag_witness :
  (∃ h' this',
     JsonItem_parse sample_parser "{sample}" false sample_view sample_store
       = Some (h', this', (true, ""%string)) ∧
     m_deletable this' = false ∧
     tree_at h' (m_content this') = Some sample_tree ∧
     sample_store ⊆ h' ∧
     JsonItem_dtor this' h' = Some h') ∧
  (∃ hs h' this',
     cells_at sample_store (m_content sample_item) = Some hs ∧
     JsonItem_parse sample_parser "{sample}" false sample_item sample_store
       = Some (h', this', (true, ""%string)) ∧
     m_deletable this' = true ∧
     tree_at h' (m_content this') = Some sample_tree ∧
     JsonItem_dtor this' h' = Some (sample_store ∖ hs)).
Proof.
  split.
  - eapply (parse_keeps_ownership_flag sample_parser "{sample}" false sample_view
              sample_store sample_tree); [vm_compute; reflexivity|reflexivity].
  - exists (default ∅ (cells_at sample_store (m_content sample_item))).
    assert (cells_at sample_store (m_content sample_item)
            = Some (default ∅ (cells_at sample_store (m_content sample_item)))) as Hc
      by (vm_compute; reflexivity).
    { assert (sample_parser false "{sample}" = inr sample_tree) as Hparse
        by (vm_compute; reflexivity).
      destruct (parse_keeps_ownership_flag sample_parser "{sample}" false sample_item
                  sample_store sample_tree Hparse) as [_ Hown].
      destruct (Hown eq_refl) as [Htree _].
      destruct (Htree _ Hc) as (h' & this' & ?). exists h', this'. split; [exact Hc|done]. }
Defined.

(** ** Assignment *)

Lemma DataItem_copy_freed c h : h !! c = None → DataItem_copy c h = None.
Proof. intros Hc. unfold DataItem_copy. destruct (size h); simpl; [done|by rewrite Hc]. Qed.

(** X13.  The self-assignment guard of [operator=] compares handle objects,
    not contents.  Assigning to an owning handle from another handle whose
    content lies inside the tree of the assigned handle (a second handle on
    the same content, or a view of a child obtained with [get(key, false)])
    destroys that tree first and then copies from a freed cell: the
    behaviour is undefined. *)
Theorem assign_from_view_of_own_content this other h hs c cell :
  m_deletable this = true →
  cells_at h (m_content this) = Some hs →
  m_content other = Some c →
  hs !! c = Some cell →
  JsonItem_assign (RefOther other) this h = None.
Proof.
  intros Hdel Hcells Hother Hc.
  destruct (cells_at_valid _ _ _ Hcells) as [a Ha]. rewrite Ha in Hcells.
  apply cells_at_repr in Hcells as (t & Hr & Hsub).
  unfold JsonItem_assign, JsonItem_clear.
  rewrite Ha, Hdel, (DataItem_delete_ok _ _ _ _ Hr Hsub), Hother. simpl.
  rewrite DataItem_copy_freed; [done|]. clear Hr. heap_solver.
Qed.

Lemma assign_from_view_of_own_content_witness :
  JsonItem_assign (RefOther sample_view) sample_item sample_store = None.
Proof.
  eapply (assign_from_view_of_own_content sample_item sample_view sample_store).
  - reflexivity.
  - vm_compute; reflexivity.
  - vm_compute; reflexivity.
  - vm_compute; reflexivity.
Defined.

(** X14.  [operator=] from a handle that holds a tree does not touch the
    ownership flag of the assigned handle.  A non-owning view is rebound to
    a fresh copy that it does not own: nothing of the old heap changes and
    the destructor leaves the copy allocated.  An owning handle whose tree
    is disjoint from the one of the right-hand side frees its old tree and
    owns the copy: after its destructor the heap is the one from before
    without the cells of the old tree. *)
Theorem assign_keeps_ownership_flag this other h t :
  tree_at h (m_content other) = Some t →
  (m_deletable this = false →
     ∃ h' this' hc,
       JsonItem_assign (RefOther other) this h = Some (h', this') ∧
       m_deletable this' = false ∧
       tree_at h' (m_content this') = Some t ∧
       cells_at h' (m_content this') = Some hc ∧
       h' = h ∪ hc ∧ hc ##ₘ h ∧
       JsonItem_dtor this' h' = Some h') ∧
  (m_deletable this = true →
     ∀ hs ho,
       cells_at h (m_content this) = Some hs →
       cells_at h (m_content other) = Some ho →
       hs ##ₘ ho →
       ∃ h' this',
         JsonItem_assign (RefOther other) this h = Some (h', this') ∧
         m_deletable this' = true ∧
         tree_at h' (m_content this') = Some t ∧
         tree_at h' (m_content other) = Some t ∧
         JsonItem_dtor this' h' = Some (h ∖ hs)).
Proof.
  intros Ht. destruct (tree_at_valid _ _ _ Ht) as [b Hb]. rewrite Hb in Ht.
  pose proof Ht as (hb & Hrb & Hsubb)%tree_at_repr.
  split.
  - intros Hdel. unfold JsonItem_assign, JsonItem_clear. rewrite Hdel.
    assert (match m_content this with
            | Some _ => Some (h, this) | None => Some (h, this)
            end = Some (h, this)) as -> by (by destruct (m_content this)).
    simpl. rewrite Hb. simpl.
    destruct (DataItem_copy_ok _ _ _ _ Hrb Hsubb) as (b' & hc & -> & Hdc & Hrc). simpl.
    assert (hc ⊆ h ∪ hc) as Hsubc by (clear Hrb Hrc; heap_solver).
    eexists _, _, hc. split; [done|]. simpl. split_and!; try done.
    + apply tree_at_repr. eauto.
    + apply cells_at_repr. eauto.
    + unfold JsonItem_dtor, JsonItem_clear. simpl. by rewrite Hdel.
  - intros Hdel hs ho Hcs Hco Hd.
    destruct (cells_at_valid _ _ _ Hcs) as [a Ha]. rewrite Ha in Hcs.
    apply cells_at_repr in Hcs as (ta & Hr & Hsub).
    rewrite Hb in Hco. apply cells_at_repr in Hco as (tb & Hrb' & Hsubb').
    unfold JsonItem_assign, JsonItem_clear.
    rewrite Ha, Hdel, (DataItem_delete_ok _ _ _ _ Hr Hsub). simpl. rewrite Hb. simpl.
    assert (ho ⊆ h ∖ hs) as Hsubo by (clear Hr Hrb Hrb'; heap_solver).
    assert (tb = t) as ->.
    { by destruct (repr_unique _ _ _ _ _ _ Hrb Hsubb Hrb' Hsubb') as [_ ?]. }
    destruct (DataItem_copy_ok _ _ _ _ Hrb' Hsubo) as (b' & hc & -> & Hdc & Hrc). simpl.
    assert (hc ⊆ h ∖ hs ∪ hc) as Hsubc by (clear Hr Hrb Hrb' Hrc; heap_solver).
    eexists _, _. split; [done|]. simpl. split_and!; try done.
    + apply tree_at_repr. eauto.
    + apply tree_at_repr. exists ho. split; [done|]. clear Hr Hrb Hrb' Hrc. heap_solver.
    + erewrite JsonItem_dtor_owned; [|reflexivity|exact Hdel|exact Hrc|exact Hsubc].
      f_equal. clear Hr Hrb Hrb' Hrc. heap_solver.
Qed.

Lemma assign_keeps_ownership_flag_witness :
  (∃ h' this' hc,
     JsonItem_assign (RefOther sample_x) sample_view sample_store = Some (h', this') ∧
     m_deletable this' = false ∧
     tree_at h' (m_content this') = Some (TValue (IntValue 7)) ∧
     cells_at h' (m_content this') = Some hc ∧
     h' = sample_store ∪ hc ∧ hc ##ₘ sample_store ∧
     JsonItem_dtor this' h' = Some h') ∧
  (∃ hs h' this',
     cells_at sample_store (m_content sample_item) = Some hs ∧
     JsonItem_assign (RefOther sample_x) sample_item sample_store = Some (h', this') ∧
     m_deletable this' = true ∧
     tree_at h' (m_content this') = Some (TValue (IntValue 7)) ∧
     tree_at h' (m_content sample_x) = Some (TValue (IntValue 7)) ∧
     JsonItem_dtor this' h' = Some (sample_store ∖ hs)).
Proof.
  assert (tree_at sample_store (m_content sample_x) = Some (TValue (IntValue 7))) as Ht
    by (vm_compute; reflexivity).
  split.
  - apply (assign_keeps_ownership_flag sample_view sample_x sample_store _ Ht).
    reflexivity.
  - exists (default ∅ (cells_at sample_store (m_content sample_item))).
    assert (cells_at sample_store (m_content sample_item)
            = Some (default ∅ (cells_at sample_store (m_content sample_item)))) as Hcs
      by (vm_compute; reflexivity).
    assert (cells_at sample_store (m_content sample_x)
            = Some (default ∅ (cells_at sample_store (m_content sample_x)))) as Hco
      by (vm_compute; reflexivity).
    assert (default ∅ (cells_at sample_store (m_content sample_item))
            ##ₘ default ∅ (cells_at sample_store (m_content sample_x))) as Hd
      by (apply (bool_decide_unpack _); vm_compute; exact I).
    destruct (assign_keeps_ownership_flag sample_item sample_x sample_store _ Ht)
      as [_ Hown].
    destruct (Hown eq_refl _ _ Hcs Hco Hd) as (h' & this' & ?).
    exists h', this'. split; [exact Hcs|done].
Defined.

(** ** Observers *)

Lemma find_key_is_Some {A} key (m : list (string * A)) :
  is_Some (find_key key m) ↔ key ∈ m.*1.
Proof.
  split.
  - intros [[i [k c]] (Hi & Hk & _)%list_find_Some]. simpl in Hk. subst k.
    apply list_elem_of_fmap. exists (key, c). split; [done|]. by eapply list_elem_of_lookup_2.
  - intros Hin. destruct (find_key key m) eqn:Hf; [done|].
    apply list_find_None in Hf. rewrite Forall_forall in Hf.
    apply list_elem_of_fmap in Hin as ([k c] & -> & Hin). by destruct (Hf _ Hin).
Qed.

(** X15.  The observers of a handle that holds a tree answer from the tree
    alone, whatever the addresses of its cells: [getSize] is the number of
    entries or elements (0 for a scalar), [getKeys] lists the keys of an
    object in order and is empty otherwise, [contains] tells whether the key
    is among them, and exactly the one of [isObject], [isArray], [isValue]
    that names the variant of the tree is true.  A deep copy therefore
    answers as its original. *)
Theorem observers_read_the_tree this h t key :
  tree_at h (m_content this) = Some t →
  JsonItem_isValid this = true ∧
  JsonItem_getSize this h = Some (tree_size t) ∧
  JsonItem_getKeys this h = Some (tree_keys t) ∧
  JsonItem_contains key this h = Some (bool_decide (key ∈ tree_keys t)) ∧
  JsonItem_isObject this h = Some (bool_decide (tree_kind t = OBJECT_TYPE)) ∧
  JsonItem_isArray this h = Some (bool_decide (tree_kind t = ARRAY_TYPE)) ∧
  JsonItem_isValue this h = Some (bool_decide (tree_kind t = VALUE_TYPE)).
Proof.
  intros Ht. destruct (tree_at_valid _ _ _ Ht) as [a Ha]. rewrite Ha in Ht.
  apply tree_at_repr in Ht as (hs & Hr & Hsub).
  unfold JsonItem_isValid, JsonItem_getSize, JsonItem_getKeys, JsonItem_contains,
    JsonItem_isObject, JsonItem_isArray, JsonItem_isValue, JsonItem_isType.
  rewrite Ha. destruct t as [v|es|ts].
  - apply repr_Value_inv in Hr as ->.
    assert (h !! a = Some (Value v)) as -> by heap_solver. done.
  - apply repr_Object_inv in Hr as (m & hs0 & -> & Hk & Hrs & Hfresh).
    assert (h !! a = Some (Object m)) as -> by heap_solver. simpl.
    split_and!; try done.
    + do 2 f_equal. by rewrite <- (length_fmap fst m), Hk, length_fmap.
    + by rewrite Hk.
    + f_equal. apply bool_decide_ext. by rewrite find_key_is_Some, Hk.
  - apply repr_Array_inv in Hr as (l & hs0 & -> & Hrs & Hfresh).
    assert (h !! a = Some (Array l)) as -> by heap_solver. simpl.
    split_and!; try done.
    do 2 f_equal. by apply reprs_length in Hrs.
Qed.

Lemma observers_read_the_tree_witness :
  JsonItem_isValid sample_item = true ∧
  JsonItem_getSize sample_item sample_store = Some 3%N ∧
  JsonItem_getKeys sample_item sample_store = Some ["name"; "tags"; "count"]%string ∧
  JsonItem_contains "tags" sample_item sample_store = Some true ∧
  JsonItem_isObject sample_item sample_store = Some true ∧
  JsonItem_isArray sample_item sample_store = Some false ∧
  JsonItem_isValue sample_item sample_store = Some false.
Proof.
  apply (observers_read_the_tree sample_item sample_store sample_tree "tags").
  vm_compute; reflexivity.
Defined.

(** ** The scalar getters on every content *)

(** X16.  On an invalid handle the three scalar getters return their
    defaults.  On a handle that holds a scalar each getter returns the stored
    value if the sub-kind is its own and its default otherwise.  On a handle
    that holds an object or an array [getString], which asks for the variant
    first, returns the empty string, while [getInt] and [getFloat] go through
    the downcast without asking and are undefined. *)
Theorem getters_by_content this h :
  (m_content this = None →
     JsonItem_getString this h = Some ""%string ∧
     JsonItem_getInt this h = Some 0%Z ∧
     JsonItem_getFloat this h = Some float_zero) ∧
  (∀ t, tree_at h (m_content this) = Some t →
     match t with
     | TValue v =>
         JsonItem_getString this h
           = Some (match v with StringValue s => s | _ => ""%string end) ∧
         JsonItem_getInt this h
           = Some (match v with IntValue i => i | _ => 0%Z end) ∧
         JsonItem_getFloat this h
           = Some (match v with FloatValue f => f | _ => float_zero end)
     | _ =>
         JsonItem_getString this h = Some ""%string ∧
         JsonItem_getInt this h = None ∧
         JsonItem_getFloat this h = None
     end).
Proof.
  unfold JsonItem_getString, JsonItem_getInt, JsonItem_getFloat. split.
  - by intros ->.
  - intros t Ht. destruct (tree_at_valid _ _ _ Ht) as [a Ha]. rewrite Ha in *.
    apply tree_at_repr in Ht as (hs & Hr & Hsub).
    destruct t as [v|es|ts].
    + apply repr_Value_inv in Hr as ->.
      assert (h !! a = Some (Value v)) as -> by heap_solver.
      by destruct v.
    + apply repr_Object_inv in Hr as (m & hs0 & -> & _ & _ & _).
      by assert (h !! a = Some (Object m)) as -> by heap_solver.
    + apply repr_Array_inv in Hr as (l & hs0 & -> & _ & _).
      by assert (h !! a = Some (Array l)) as -> by heap_solver.
Qed.

Lemma getters_by_content_witness :
  (JsonItem_getString JsonItem_ctor sample_store = Some ""%string ∧
   JsonItem_getInt JsonItem_ctor sample_store = Some 0%Z ∧
   JsonItem_getFloat JsonItem_ctor sample_store = Some float_zero) ∧
  (JsonItem_getString sample_y sample_store = Some "hi"%string ∧
   JsonItem_getInt sample_y sample_store = Some 0%Z ∧
   JsonItem_getFloat sample_y sample_store = Some float_zero) ∧
  (JsonItem_getString sample_x sample_store = Some ""%string ∧
   JsonItem_getInt sample_x sample_store = Some 7%Z ∧
   JsonItem_getFloat sample_x sample_store = Some float_zero).
Proof.
  split; [|split].
  - apply (getters_by_content JsonItem_ctor sample_store). reflexivity.
  - apply (proj2 (getters_by_content sample_y sample_store) (TValue (StringValue "hi"))).
    vm_compute; reflexivity.
  - apply (proj2 (getters_by_content sample_x sample_store) (TValue (IntValue 7))).
    vm_compute; reflexivity.
Defined.
